(** * Proactive call scheduling, dispatch and PMS reconciliation

    A shallow embedding of the hotel voice-AI orchestration layer:
    - the service module imported as [@/lib/services/proactive] (its text
      follows the landing page in [src/app/page.tsx]): [makeOutboundCall], the
      four [schedule*Calls] operations, [processScheduledCalls],
      [processWakeUpCalls], [syncFromPMS];
    - [src/lib/vapi/security.ts]: [verifyCronSecret];
    - the constants of [src/lib/vapi/config.ts] those functions read.

    Dates are milliseconds since the epoch ([Z]), the Prisma tables are finite
    maps from row identifiers to rows, [process.env] is a finite map from
    names to strings, and the asynchronous functions are computations in a
    state-and-exception monad over the store. *)

From Stdlib Require Import ZArith QArith Qround Ascii String.
From stdpp Require Import base decidable option list gmap strings pretty fin_maps.
From stdpp Require Import sorting.

Close Scope Q_scope.
Open Scope Z_scope.

(** ** JavaScript strings and truthiness *)

Module Js.

(** [!s] for [s : string | undefined]: undefined and the empty string are falsy. *)
Definition falsy (s : option string) : bool :=
  match s with
  | None => true
  | Some s => bool_decide (s = "")
  end.

(** [a || b] on optional strings. *)
Definition or_else (a b : option string) : option string :=
  if falsy a then b else a.

(** [a || 'literal'] *)
Definition or_default (a : option string) (d : string) : string :=
  if falsy a then d else default d a.

Definition upper_ascii (c : ascii) : ascii :=
  let n := Ascii.nat_of_ascii c in
  if ((97 <=? n) && (n <=? 122))%nat then Ascii.ascii_of_nat (n - 32) else c.

Definition lower_ascii (c : ascii) : ascii :=
  let n := Ascii.nat_of_ascii c in
  if ((65 <=? n) && (n <=? 90))%nat then Ascii.ascii_of_nat (n + 32) else c.

Fixpoint map_string (f : ascii → ascii) (s : string) : string :=
  match s with
  | EmptyString => EmptyString
  | String c r => String (f c) (map_string f r)
  end.

Definition toUpperCase : string → string := map_string upper_ascii.
Definition toLowerCase : string → string := map_string lower_ascii.

(** [s.replace(c, r)] with a one-character string pattern: only the first
    occurrence is replaced. *)
Fixpoint replace (c : ascii) (r : string) (s : string) : string :=
  match s with
  | EmptyString => EmptyString
  | String d rest =>
      if bool_decide (c = d) then r +:+ rest else String d (replace c r rest)
  end.

(** [Buffer.from(s, 'utf8')]: a string of the embedding is the sequence of
    its UTF-8 bytes already. *)
Definition Buffer_from (s : string) : list ascii := String.list_ascii_of_string s.

(** [crypto.timingSafeEqual] on two buffers of equal length. *)
Definition timingSafeEqual (a b : list ascii) : bool := bool_decide (a = b).

End Js.

(** ** Exceptions and results *)

(** What a [catch] clause can receive: an [Error] instance with its message,
    or some other thrown value. *)
Inductive Exn : Type :=
  | Error (message : string)
  | Thrown.

Inductive Res (A : Type) : Type :=
  | Ok (a : A)
  | Throw (e : Exn).
Arguments Ok {A} a.
Arguments Throw {A} e.

(** ** Data model (the Prisma models the core reads and writes) *)

Abbreviation ID := nat.

Inductive ReservationStatus : Type :=
  | CONFIRMED | CHECKED_IN | CHECKED_OUT | CANCELLED.

Inductive CallType : Type :=
  | PRE_ARRIVAL | WAKE_UP | MID_STAY | PRE_CHECKOUT | POST_STAY.

Inductive CallStatus : Type :=
  | SCHEDULED | IN_PROGRESS | ENDED | FAILED.

(** [WU_FAILED] is the member FAILED of the wake-up status enum. *)
Inductive WakeUpStatus : Type :=
  | PENDING | COMPLETED | WU_FAILED.

#[global] Instance ReservationStatus_eq_dec : EqDecision ReservationStatus.
Proof. solve_decision. Defined.
#[global] Instance CallType_eq_dec : EqDecision CallType.
Proof. solve_decision. Defined.
#[global] Instance CallStatus_eq_dec : EqDecision CallStatus.
Proof. solve_decision. Defined.
#[global] Instance WakeUpStatus_eq_dec : EqDecision WakeUpStatus.
Proof. solve_decision. Defined.

Module Guest.
Record t : Type := mk {
  externalId : option string;
  firstName : string;
  lastName : string;
  email : option string;
  phone : string;
  preferredLanguage : string;
  vipStatus : bool;
}.
End Guest.

Module Reservation.
Record t : Type := mk {
  externalId : option string;
  guestId : ID;
  roomNumber : option string;
  roomType : string;
  checkInDate : Z;
  checkOutDate : Z;
  status : ReservationStatus;
  numberOfGuests : Z;
  specialRequests : option string;
}.
End Reservation.

Module ProactiveCall.
Record t : Type := mk {
  reservationId : ID;
  callType : CallType;
  scheduledTime : Z;
  actualTime : option Z;
  status : CallStatus;
  attempts : Z;
  maxAttempts : Z;
  vapiCallId : option string;
  notes : option string;
}.
End ProactiveCall.

Module WakeUpRequest.
Record t : Type := mk {
  roomNumber : string;
  requestedTime : Z;
  status : WakeUpStatus;
  attempts : Z;
  completedAt : option Z;
}.
End WakeUpRequest.

(** The Call Record Store.  A row's [id] is its key in the table; a query
    returns rows paired with their keys. *)
Record Store : Type := mkStore {
  guests : gmap ID Guest.t;
  reservations : gmap ID Reservation.t;
  proactiveCalls : gmap ID ProactiveCall.t;
  wakeUpRequests : gmap ID WakeUpRequest.t;
}.

Definition emptyStore : Store := mkStore ∅ ∅ ∅ ∅.

(** What [prisma/schema.prisma] fixes and the functions rely on. *)
Class Schema : Type := {
  (** [@default] of [ProactiveCall.maxAttempts] *)
  default_maxAttempts : Z;
  (** whether [Guest.phone] is [@unique] *)
  guest_phone_unique : bool;
}.

(** ** The host: clock, environment and remote services of one invocation *)

(** Upstream records ([PMSGuest], [PMSReservation] of [types.ts]). *)
Module PMSGuest.
Record t : Type := mk {
  id : string;
  firstName : string;
  lastName : string;
  email : option string;
  phone : string;
  preferredLanguage : option string;
  vipStatus : option bool;
}.
End PMSGuest.

Module PMSReservation.
Record t : Type := mk {
  id : string;
  guestId : string;
  roomNumber : option string;
  roomType : string;
  checkInDate : string;
  checkOutDate : string;
  status : string;
  numberOfGuests : Z;
  specialRequests : option string;
}.
End PMSReservation.

(** The system prompts of [config.ts], by name. *)
Inductive Prompt : Type :=
  | PRE_ARRIVAL_SYSTEM_PROMPT | WAKE_UP_SYSTEM_PROMPT | MID_STAY_SYSTEM_PROMPT
  | PRE_CHECKOUT_SYSTEM_PROMPT | POST_STAY_SYSTEM_PROMPT.

(** The metadata bag handed to the gateway. *)
Inductive Metadata : Type :=
  | ProactiveMeta (proactiveCallId reservationId : ID) (callType : CallType)
      (guestName : string) (roomNumber : option string)
  | WakeUpMeta (wakeUpRequestId : ID) (roomNumber guestName : string).

(** The body of [POST /call/phone], without its constant parts (voice,
    transcriber, tools, server, temperature, silence timeout). *)
Record OutboundCallRequest : Type := mkRequest {
  phoneNumberId : string;
  customer_number : string;
  assistant_name : string;
  assistant_firstMessage : option string;
  model_provider : string;
  model_model : string;
  model_messages : list Prompt;
  maxDurationSeconds : Z;
  metadata : option Metadata;
}.

Record Host : Type := mkHost {
  (** [process.env] *)
  env : gmap string string;
  (** the value of the n-th [new Date()] of the invocation *)
  clk : nat → Z;
  (** [axios.post(`${VAPI_API_URL}/call/phone`, request, ...)]: the
      [id] of the response's data, or the exception axios raises *)
  vapi_post : string → OutboundCallRequest → Res (option string);
  (** [axios.get(`${pmsUrl}/hotels/${hotelId}/reservations`, ...)] with its
      url, authorization header and the [from]/[to] parameters *)
  pms_get_reservations : string → string → Z → Z → Res (list PMSReservation.t);
  (** [axios.get(`${pmsUrl}/guests/${guestId}`, ...)] with its url and
      authorization header *)
  pms_get_guest : string → string → Res PMSGuest.t;
}.

(** ** The monad of the asynchronous functions *)

Record World : Type := mkWorld {
  db : Store;
  (** how many times the clock has been read so far *)
  reads : nat;
}.

Definition M (A : Type) : Type := World → Res A * World.

#[global] Instance M_ret : MRet M := λ A a w, (Ok a, w).
#[global] Instance M_bind : MBind M := λ A B f m w,
  match m w with
  | (Ok a, w') => f a w'
  | (Throw e, w') => (Throw e, w')
  end.

Definition throw {A} (e : Exn) : M A := λ w, (Throw e, w).

(** [try { body } catch (error) { handler }] *)
Definition try_catch {A} (body : M A) (handler : Exn → M A) : M A := λ w,
  match body w with
  | (Ok a, w') => (Ok a, w')
  | (Throw e, w') => handler e w'
  end.

(** [for (const x of xs) { ... }] threading the loop's local variables. *)
Fixpoint for_of {A S} (xs : list A) (body : S → A → M S) (acc : S) : M S :=
  match xs with
  | [] => mret acc
  | x :: rest => acc' ← body acc x; for_of rest body acc'
  end.

Definition get_db : M Store := λ w, (Ok (db w), w).
Definition set_db (s : Store) : M unit := λ w, (Ok tt, mkWorld s (reads w)).

(** [new Date()] *)
Definition new_Date (h : Host) : M Z := λ w,
  (Ok (clk h (reads w)), mkWorld (db w) (S (reads w))).

(** One invocation against a store: the clock starts at its first reading. *)
Definition run {A} (m : M A) (s : Store) : Res A * Store :=
  let '(r, w) := m (mkWorld s 0) in (r, db w).

Definition result_of {A} (m : M A) (s : Store) : Res A := (run m s).1.
Definition store_after {A} (m : M A) (s : Store) : Store := (run m s).2.

(** ** Dates: [date-fns] and the host's local calendar

    [addHours] and [isAfter] work on the time value alone.  What depends on
    the host's time zone, or on the installed version of [date-fns], is taken
    through an interface; [FixedOffset.calendar] below implements it. *)

Class Calendar : Type := {
  (** [startOfDay(date)] *)
  startOfDay : Z → Z;
  (** [addDays(date, amount)]; the amount is a JavaScript number *)
  addDays : Z → Q → Z;
  (** [date.setHours(h, 0, 0, 0)] *)
  setHours : Z → Z → Z;
  (** [parseISO(text)]; [None] is the Invalid Date *)
  parseISO : string → option Z;
  (** [format(date, 'h:mm a')] *)
  format_h_mm_a : Z → string;
}.

Definition subDays `{Calendar} (date : Z) (amount : Q) : Z :=
  addDays date (- amount)%Q.

Definition millisecondsInHour : Z := 3600000.

Definition addHours (date : Z) (amount : Z) : Z :=
  date + amount * millisecondsInHour.

Definition isAfter (date dateToCompare : Z) : bool :=
  bool_decide (dateToCompare < date).

(** ** Constants of [config.ts] *)

Definition HOTEL_CONFIG_name : string := "The Grand Luxe Hotel".

Record ProactiveCallConfig : Type := mkConfig {
  systemPrompt : Prompt;
  maxDuration : Z;
  retryAttempts : Z;
  retryDelay : Z;
}.

Definition PROACTIVE_CALL_CONFIGS : list (string * ProactiveCallConfig) :=
  [ ("preArrival", mkConfig PRE_ARRIVAL_SYSTEM_PROMPT 300 3 3600000);
    ("wakeUp", mkConfig WAKE_UP_SYSTEM_PROMPT 120 2 300000);
    ("midStay", mkConfig MID_STAY_SYSTEM_PROMPT 300 2 7200000);
    ("preCheckout", mkConfig PRE_CHECKOUT_SYSTEM_PROMPT 240 2 1800000);
    ("postStay", mkConfig POST_STAY_SYSTEM_PROMPT 300 3 86400000) ].

Definition PROACTIVE_CALL_CONFIGS_midStay : ProactiveCallConfig :=
  mkConfig MID_STAY_SYSTEM_PROMPT 300 2 7200000.

Definition PROACTIVE_CALL_CONFIGS_wakeUp : ProactiveCallConfig :=
  mkConfig WAKE_UP_SYSTEM_PROMPT 120 2 300000.

Fixpoint assoc {V} (k : string) (l : list (string * V)) : option V :=
  match l with
  | [] => None
  | (k', v) :: rest => if bool_decide (k = k') then Some v else assoc k rest
  end.

(** The name of an enum member, as Prisma hands it to JavaScript. *)
Definition CallType_name (t : CallType) : string :=
  match t with
  | PRE_ARRIVAL => "PRE_ARRIVAL"
  | WAKE_UP => "WAKE_UP"
  | MID_STAY => "MID_STAY"
  | PRE_CHECKOUT => "PRE_CHECKOUT"
  | POST_STAY => "POST_STAY"
  end.

Definition ReservationStatus_of_name (s : string) : option ReservationStatus :=
  if bool_decide (s = "CONFIRMED") then Some CONFIRMED
  else if bool_decide (s = "CHECKED_IN") then Some CHECKED_IN
  else if bool_decide (s = "CHECKED_OUT") then Some CHECKED_OUT
  else if bool_decide (s = "CANCELLED") then Some CANCELLED
  else None.

(** ** The Prisma client, table by table *)

Module prisma.

(** A new row gets an identifier no row of the table has. *)
Definition new_id {V} (table : gmap ID V) : ID := fresh (dom table).

Module reservation.

(** [findMany({ where })]; the [where] clause may look at the related
    rows of the store. *)
Definition findMany (where_ : Store → ID → Reservation.t → bool)
    : M (list (ID * Reservation.t)) :=
  s ← get_db;
  mret (List.filter (λ kr, where_ s kr.1 kr.2) (map_to_list (reservations s))).

(** [findFirst({ where, include: { guest: true } })]: the first matching
    row with its guest; a row whose guest is missing is an inconsistent
    result, which the client rejects. *)
Definition findFirst_with_guest (where_ : Reservation.t → bool)
    : M (option (ID * Reservation.t * Guest.t)) :=
  s ← get_db;
  match List.find (λ kr, where_ kr.2) (map_to_list (reservations s)) with
  | None => mret None
  | Some (k, r) =>
      match guests s !! Reservation.guestId r with
      | Some g => mret (Some (k, r, g))
      | None => throw (Error "Inconsistent query result: guest")
      end
  end.

End reservation.

Module proactiveCall.

(** The relation filter [proactiveCalls: { none: { callType } }] of a
    reservation. *)
Definition none (s : Store) (reservationId : ID) (callType : CallType) : bool :=
  forallb (λ kc, negb (bool_decide (ProactiveCall.reservationId kc.2 = reservationId)
                       && bool_decide (ProactiveCall.callType kc.2 = callType)))
          (map_to_list (proactiveCalls s)).

(** [create({ data: { reservationId, callType, scheduledTime, status } })];
    the other columns take their defaults. *)
Definition create `{Schema} (reservationId : ID) (callType : CallType)
    (scheduledTime : Z) (status : CallStatus) : M ID :=
  s ← get_db;
  let id := new_id (proactiveCalls s) in
  let row := ProactiveCall.mk reservationId callType scheduledTime None status
               0 default_maxAttempts None None in
  set_db (mkStore (guests s) (reservations s)
            (<[id := row]> (proactiveCalls s)) (wakeUpRequests s));;
  mret id.

(** [update({ where: { id }, data })]: [data] rewrites the columns it
    names; a missing row is an error. *)
Definition update (id : ID) (data : ProactiveCall.t → ProactiveCall.t) : M unit :=
  s ← get_db;
  match proactiveCalls s !! id with
  | None => throw (Error "Record to update not found")
  | Some row =>
      set_db (mkStore (guests s) (reservations s)
                (<[id := data row]> (proactiveCalls s)) (wakeUpRequests s))
  end.

End proactiveCall.

Module wakeUpRequest.

Definition update (id : ID) (data : WakeUpRequest.t → WakeUpRequest.t) : M unit :=
  s ← get_db;
  match wakeUpRequests s !! id with
  | None => throw (Error "Record to update not found")
  | Some row =>
      set_db (mkStore (guests s) (reservations s) (proactiveCalls s)
                (<[id := data row]> (wakeUpRequests s)))
  end.

End wakeUpRequest.

End prisma.

(** ** The Outbound Call Gateway: [makeOutboundCall] *)

(** [Partial<VapiAssistantConfig>], the fields the callers set. *)
Record AssistantConfig : Type := mkAssistant {
  cfg_name : option string;
  cfg_firstMessage : option string;
  cfg_model : option (string * string * list Prompt);
  cfg_maxDurationSeconds : option Z;
}.

(** [{ success: boolean; callId?: string; error?: string }] *)
Record CallResult : Type := mkResult {
  success : bool;
  callId : option string;
  error : option string;
}.

(** The function awaits one HTTP request and touches no table, so it is a
    function of the host. *)
Definition makeOutboundCall (h : Host) (phoneNumber : string)
    (assistantConfig : AssistantConfig) (metadata : option Metadata) : CallResult :=
  let apiKey := env h !! "VAPI_API_KEY" in
  let phoneNumberId := env h !! "VAPI_PHONE_NUMBER_ID" in
  if Js.falsy apiKey || Js.falsy phoneNumberId then
    mkResult false None (Some "VAPI not configured")
  else
    let request := {|
      phoneNumberId := default "" phoneNumberId;
      customer_number := phoneNumber;
      assistant_name :=
        Js.or_default (cfg_name assistantConfig) "Proactive Service Agent";
      assistant_firstMessage := cfg_firstMessage assistantConfig;
      model_provider :=
        Js.or_default (fst ∘ fst <$> cfg_model assistantConfig) "openai";
      model_model :=
        Js.or_default (snd ∘ fst <$> cfg_model assistantConfig) "gpt-4o-2024-11-20";
      model_messages := default [] (snd <$> cfg_model assistantConfig);
      maxDurationSeconds :=
        match cfg_maxDurationSeconds assistantConfig with
        | Some d => if bool_decide (d = 0) then 300 else d
        | None => 300
        end;
      metadata := metadata;
    |} in
    match vapi_post h ("Bearer " +:+ default "" apiKey) request with
    | Ok id => mkResult true id None
    | Throw (Error message) => mkResult false None (Some message)
    | Throw Thrown => mkResult false None (Some "Failed to initiate call")
    end.

(** ** The Scheduling Engine *)

(** The queries [include: { guest: true }]; the loops read [reservation.id]
    only, so the result rows are the reservations with their keys. *)

Section Scheduling.
Context {cal : Calendar} {sch : Schema}.

(** The [where] clause of the pre-arrival query, given [new Date()]. *)
Definition where_preArrival (today : Z) (s : Store) (id : ID) (r : Reservation.t)
    : bool :=
  let tomorrow := addDays (startOfDay today) 1 in
  let dayAfterTomorrow := addDays tomorrow 1 in
  bool_decide (Reservation.status r = CONFIRMED)
  && (tomorrow <=? Reservation.checkInDate r)
  && (Reservation.checkInDate r <? dayAfterTomorrow)
  && prisma.proactiveCall.none s id PRE_ARRIVAL.

(** Schedule pre-arrival calls for guests checking in tomorrow. *)
Definition schedulePreArrivalCalls (h : Host) : M nat :=
  today ← new_Date h;
  (* Find reservations checking in tomorrow that haven't been called *)
  reservations ← prisma.reservation.findMany (where_preArrival today);
  for_of reservations (λ scheduledCount reservation,
    d ← new_Date h;
    let scheduledTime := setHours d 16 in
    now ← new_Date h;
    scheduledTime ←
      (if isAfter now scheduledTime
       then later ← new_Date h; mret (addHours later 1)
       else mret scheduledTime);
    prisma.proactiveCall.create reservation.1 PRE_ARRIVAL scheduledTime SCHEDULED;;
    mret (S scheduledCount)) 0%nat.

Definition where_midStay (today : Z) (s : Store) (id : ID) (r : Reservation.t)
    : bool :=
  let yesterday := subDays (startOfDay today) 1 in
  let twoDaysAgo := subDays yesterday 1 in
  bool_decide (Reservation.status r = CHECKED_IN)
  && (twoDaysAgo <=? Reservation.checkInDate r)
  && (Reservation.checkInDate r <? yesterday)
  && prisma.proactiveCall.none s id MID_STAY.

(** Schedule mid-stay check-in calls for guests on day 2. *)
Definition scheduleMidStayCalls (h : Host) : M nat :=
  today ← new_Date h;
  (* Find guests who checked in yesterday (now on day 2) *)
  reservations ← prisma.reservation.findMany (where_midStay today);
  for_of reservations (λ scheduledCount reservation,
    d ← new_Date h;
    let scheduledTime := setHours d 14 in
    now ← new_Date h;
    scheduledTime ←
      (if isAfter now scheduledTime
       then later ← new_Date h; mret (addHours later 1)
       else mret scheduledTime);
    prisma.proactiveCall.create reservation.1 MID_STAY scheduledTime SCHEDULED;;
    mret (S scheduledCount)) 0%nat.

Definition where_preCheckout (d0 : Z) (s : Store) (id : ID) (r : Reservation.t)
    : bool :=
  let today := startOfDay d0 in
  let tomorrow := addDays today 1 in
  bool_decide (Reservation.status r = CHECKED_IN)
  && (today <=? Reservation.checkOutDate r)
  && (Reservation.checkOutDate r <? tomorrow)
  && prisma.proactiveCall.none s id PRE_CHECKOUT.

(** Schedule pre-checkout calls for guests checking out today. *)
Definition schedulePreCheckoutCalls (h : Host) : M nat :=
  d0 ← new_Date h;
  reservations ← prisma.reservation.findMany (where_preCheckout d0);
  for_of reservations (λ scheduledCount reservation,
    d ← new_Date h;
    let scheduledTime := setHours d 8 in
    now ← new_Date h;
    scheduledTime ←
      (if isAfter now scheduledTime
       then later ← new_Date h; mret later
       else mret scheduledTime);
    prisma.proactiveCall.create reservation.1 PRE_CHECKOUT scheduledTime SCHEDULED;;
    mret (S scheduledCount)) 0%nat.

Definition where_postStay (today : Z) (s : Store) (id : ID) (r : Reservation.t)
    : bool :=
  let twoDaysAgo := subDays (startOfDay today) 2 in
  let threeDaysAgo := subDays twoDaysAgo 1 in
  bool_decide (Reservation.status r = CHECKED_OUT)
  && (threeDaysAgo <=? Reservation.checkOutDate r)
  && (Reservation.checkOutDate r <? twoDaysAgo)
  && prisma.proactiveCall.none s id POST_STAY.

(** Schedule post-stay follow-up calls. *)
Definition schedulePostStayCalls (h : Host) : M nat :=
  today ← new_Date h;
  reservations ← prisma.reservation.findMany (where_postStay today);
  for_of reservations (λ scheduledCount reservation,
    d ← new_Date h;
    let scheduledTime := setHours d 14 in
    prisma.proactiveCall.create reservation.1 POST_STAY scheduledTime SCHEDULED;;
    mret (S scheduledCount)) 0%nat.

End Scheduling.

(** ** The Dispatch Engine: [processScheduledCalls] *)

(** A row of the due-job query, with the relations it includes. *)
Record DueCall : Type := mkDue {
  due_id : ID;
  due_call : ProactiveCall.t;
  due_reservation_id : ID;
  due_reservation : Reservation.t;
  due_guest : Guest.t;
}.

(** The [where] clause of the due-job query. *)
Definition isDue (now : Z) (callType : option CallType) (c : ProactiveCall.t) : bool :=
  bool_decide (ProactiveCall.status c = SCHEDULED)
  && (ProactiveCall.scheduledTime c <=? now)
  && (ProactiveCall.attempts c <? 3)
  && match callType with
     | Some t => bool_decide (ProactiveCall.callType c = t)
     | None => true
     end.

(** [orderBy: { scheduledTime: 'asc' }] *)
Fixpoint insert_by_time (x : ID * ProactiveCall.t) (l : list (ID * ProactiveCall.t))
    : list (ID * ProactiveCall.t) :=
  match l with
  | [] => [x]
  | y :: rest =>
      if ProactiveCall.scheduledTime x.2 <=? ProactiveCall.scheduledTime y.2
      then x :: l
      else y :: insert_by_time x rest
  end.

Definition orderBy_scheduledTime (l : list (ID * ProactiveCall.t))
    : list (ID * ProactiveCall.t) :=
  foldr insert_by_time [] l.

(** The rows the query selects: filtered, ordered, the first ten. *)
Definition dueRows (now : Z) (callType : option CallType) (s : Store)
    : list (ID * ProactiveCall.t) :=
  take 10 (orderBy_scheduledTime
             (List.filter (λ kc, isDue now callType kc.2)
                          (map_to_list (proactiveCalls s)))).

(** [include: { reservation: { include: { guest: true } } }]: both relations
    are required; a dangling reference is an inconsistent result, which the
    client rejects. *)
Definition include_reservation_guest (s : Store) (kc : ID * ProactiveCall.t)
    : Res DueCall :=
  match reservations s !! ProactiveCall.reservationId kc.2 with
  | None => Throw (Error "Inconsistent query result: reservation")
  | Some r =>
      match guests s !! Reservation.guestId r with
      | None => Throw (Error "Inconsistent query result: guest")
      | Some g => Ok (mkDue kc.1 kc.2 (ProactiveCall.reservationId kc.2) r g)
      end
  end.

Fixpoint all_ok {A B} (f : A → Res B) (l : list A) : Res (list B) :=
  match l with
  | [] => Ok []
  | x :: rest =>
      match f x with
      | Throw e => Throw e
      | Ok y => match all_ok f rest with
                | Throw e => Throw e
                | Ok ys => Ok (y :: ys)
                end
      end
  end.

(** [prisma.proactiveCall.findMany({ where, include, take: 10, orderBy })] *)
Definition dueBatch (now : Z) (callType : option CallType) (s : Store)
    : Res (list DueCall) :=
  all_ok (include_reservation_guest s) (dueRows now callType s).

Definition lift {A} (r : Res A) : M A := λ w, (r, w).

(** The [config] of a call: the table is indexed by the lower-cased type
    name without its first underscore, and falls back on [midStay]. *)
Definition config_of (t : CallType) : ProactiveCallConfig :=
  default PROACTIVE_CALL_CONFIGS_midStay
    (assoc (Js.replace "_" "" (Js.toLowerCase (CallType_name t))) PROACTIVE_CALL_CONFIGS).

(** The personalized first message. *)
Definition firstMessage_of (t : CallType) (g : Guest.t) : string :=
  match t with
  | PRE_ARRIVAL =>
      "Hello, this is " +:+ HOTEL_CONFIG_name +:+ " calling. May I speak with "
        +:+ Guest.firstName g +:+ "?"
  | WAKE_UP =>
      "Good morning! This is your wake-up call from " +:+ HOTEL_CONFIG_name +:+ "."
  | MID_STAY =>
      "Hello " +:+ Guest.firstName g +:+ ", this is Guest Services from "
        +:+ HOTEL_CONFIG_name +:+ ". I'm calling to check on your stay."
  | PRE_CHECKOUT =>
      "Good morning " +:+ Guest.firstName g +:+ ", this is the front desk at "
        +:+ HOTEL_CONFIG_name +:+ "."
  | POST_STAY =>
      "Hello " +:+ Guest.firstName g +:+ ", this is " +:+ HOTEL_CONFIG_name
        +:+ " calling."
  end.

(** The gateway invocation of one due call. *)
Definition placeCall (h : Host) (d : DueCall) : CallResult :=
  let call := due_call d in
  let guest := due_guest d in
  makeOutboundCall h (Guest.phone guest)
    {| cfg_name := Some (CallType_name (ProactiveCall.callType call) +:+ " Call");
       cfg_firstMessage := Some (firstMessage_of (ProactiveCall.callType call) guest);
       cfg_model := Some ("openai", "gpt-4o-2024-11-20",
                          [systemPrompt (config_of (ProactiveCall.callType call))]);
       cfg_maxDurationSeconds :=
         Some (maxDuration (config_of (ProactiveCall.callType call))) |}
    (Some (ProactiveMeta (due_id d) (due_reservation_id d)
             (ProactiveCall.callType call)
             (Guest.firstName guest +:+ " " +:+ Guest.lastName guest)
             (Reservation.roomNumber (due_reservation d)))).

(** The [data] of the three updates. *)
Definition data_in_progress (now : Z) (row : ProactiveCall.t) : ProactiveCall.t :=
  {| ProactiveCall.reservationId := ProactiveCall.reservationId row;
     ProactiveCall.callType := ProactiveCall.callType row;
     ProactiveCall.scheduledTime := ProactiveCall.scheduledTime row;
     ProactiveCall.actualTime := Some now;
     ProactiveCall.status := IN_PROGRESS;
     ProactiveCall.attempts := ProactiveCall.attempts row + 1;
     ProactiveCall.maxAttempts := ProactiveCall.maxAttempts row;
     ProactiveCall.vapiCallId := ProactiveCall.vapiCallId row;
     ProactiveCall.notes := ProactiveCall.notes row |}.

(** An [undefined] value in [data] leaves the column as it is. *)
Definition set_if_defined {A} (new : option A) (old : option A) : option A :=
  match new with
  | Some v => Some v
  | None => old
  end.

Definition data_placed (callId : option string) (row : ProactiveCall.t)
    : ProactiveCall.t :=
  {| ProactiveCall.reservationId := ProactiveCall.reservationId row;
     ProactiveCall.callType := ProactiveCall.callType row;
     ProactiveCall.scheduledTime := ProactiveCall.scheduledTime row;
     ProactiveCall.actualTime := ProactiveCall.actualTime row;
     ProactiveCall.status := ProactiveCall.status row;
     ProactiveCall.attempts := ProactiveCall.attempts row;
     ProactiveCall.maxAttempts := ProactiveCall.maxAttempts row;
     ProactiveCall.vapiCallId := set_if_defined callId (ProactiveCall.vapiCallId row);
     ProactiveCall.notes := ProactiveCall.notes row |}.

Definition data_retry (status : CallStatus) (notes : option string)
    (scheduledTime : Z) (row : ProactiveCall.t) : ProactiveCall.t :=
  {| ProactiveCall.reservationId := ProactiveCall.reservationId row;
     ProactiveCall.callType := ProactiveCall.callType row;
     ProactiveCall.scheduledTime := scheduledTime;
     ProactiveCall.actualTime := ProactiveCall.actualTime row;
     ProactiveCall.status := status;
     ProactiveCall.attempts := ProactiveCall.attempts row;
     ProactiveCall.maxAttempts := ProactiveCall.maxAttempts row;
     ProactiveCall.vapiCallId := ProactiveCall.vapiCallId row;
     ProactiveCall.notes := set_if_defined notes (ProactiveCall.notes row) |}.

(** The body of the dispatch loop. *)
Definition processOne (h : Host) (now : Z) (processedCount : nat) (d : DueCall)
    : M nat :=
  let call := due_call d in
  (* Update call to in-progress *)
  prisma.proactiveCall.update (due_id d) (data_in_progress now);;
  (* Make the call *)
  let result := placeCall h d in
  if success result then
    prisma.proactiveCall.update (due_id d) (data_placed (callId result));;
    mret (S processedCount)
  else
    (* Mark as failed if max attempts reached *)
    let newAttempts := ProactiveCall.attempts call + 1 in
    prisma.proactiveCall.update (due_id d)
      (data_retry
         (if ProactiveCall.maxAttempts call <=? newAttempts then FAILED else SCHEDULED)
         (error result)
         (addHours now 1));;
    mret processedCount.

(** Process scheduled proactive calls.  The optional [callType] argument is
    one of the enum's names at every call site. *)
Definition processScheduledCalls (h : Host) (callType : option CallType) : M nat :=
  now ← new_Date h;
  s ← get_db;
  scheduledCalls ← lift (dueBatch now callType s);
  for_of scheduledCalls (processOne h now) 0%nat.

(** ** Wake-up dispatch: [processWakeUpCalls] *)

Section WakeUp.
Context {cal : Calendar}.

(** The lower bound of the selection window. *)
Definition fiveMinutesAgo (now : Z) : Z := subDays now (5 / (24 * 60))%Q.

(** The [where] clause of the wake-up query. *)
Definition isDueWakeUp (now : Z) (r : WakeUpRequest.t) : bool :=
  bool_decide (WakeUpRequest.status r = PENDING)
  && (fiveMinutesAgo now <=? WakeUpRequest.requestedTime r)
  && (WakeUpRequest.requestedTime r <=? now).

(** [prisma.wakeUpRequest.findMany({ where, take: 10 })] *)
Definition wakeUpBatch (now : Z) (s : Store) : list (ID * WakeUpRequest.t) :=
  take 10 (List.filter (λ kr, isDueWakeUp now kr.2)
                       (map_to_list (wakeUpRequests s))).

Definition data_wu_status (status : WakeUpStatus) (row : WakeUpRequest.t)
    : WakeUpRequest.t :=
  {| WakeUpRequest.roomNumber := WakeUpRequest.roomNumber row;
     WakeUpRequest.requestedTime := WakeUpRequest.requestedTime row;
     WakeUpRequest.status := status;
     WakeUpRequest.attempts := WakeUpRequest.attempts row;
     WakeUpRequest.completedAt := WakeUpRequest.completedAt row |}.

Definition data_wu_attempt (row : WakeUpRequest.t) : WakeUpRequest.t :=
  {| WakeUpRequest.roomNumber := WakeUpRequest.roomNumber row;
     WakeUpRequest.requestedTime := WakeUpRequest.requestedTime row;
     WakeUpRequest.status := WakeUpRequest.status row;
     WakeUpRequest.attempts := WakeUpRequest.attempts row + 1;
     WakeUpRequest.completedAt := WakeUpRequest.completedAt row |}.

Definition data_wu_completed (now : Z) (row : WakeUpRequest.t) : WakeUpRequest.t :=
  {| WakeUpRequest.roomNumber := WakeUpRequest.roomNumber row;
     WakeUpRequest.requestedTime := WakeUpRequest.requestedTime row;
     WakeUpRequest.status := COMPLETED;
     WakeUpRequest.attempts := WakeUpRequest.attempts row;
     WakeUpRequest.completedAt := Some now |}.

(** The gateway invocation of one wake-up request. *)
Definition placeWakeUp (h : Host) (now : Z) (request : ID * WakeUpRequest.t)
    (guest : Guest.t) : CallResult :=
  makeOutboundCall h (Guest.phone guest)
    {| cfg_name := Some "Wake-Up Call";
       cfg_firstMessage :=
         Some ("Good morning! This is your " +:+ HOTEL_CONFIG_name
               +:+ " wake-up call. The time is " +:+ format_h_mm_a now +:+ ".");
       cfg_model := Some ("openai", "gpt-4o-mini",
                          [systemPrompt PROACTIVE_CALL_CONFIGS_wakeUp]);
       cfg_maxDurationSeconds := Some 120 |}
    (Some (WakeUpMeta request.1 (WakeUpRequest.roomNumber request.2)
             (Guest.firstName guest +:+ " " +:+ Guest.lastName guest))).

(** The body of the wake-up loop. *)
Definition wakeUpOne (h : Host) (now : Z) (processedCount : nat)
    (request : ID * WakeUpRequest.t) : M nat :=
  (* Find the reservation *)
  reservation ← prisma.reservation.findFirst_with_guest (λ r,
    bool_decide (Reservation.roomNumber r = Some (WakeUpRequest.roomNumber request.2))
    && bool_decide (Reservation.status r = CHECKED_IN));
  match reservation with
  | None =>
      prisma.wakeUpRequest.update request.1 (data_wu_status WU_FAILED);;
      mret processedCount
  | Some (_, _, guest) =>
      (* Update to in-progress *)
      prisma.wakeUpRequest.update request.1 data_wu_attempt;;
      (* Make the call *)
      let result := placeWakeUp h now request guest in
      if success result then
        prisma.wakeUpRequest.update request.1 (data_wu_completed now);;
        mret (S processedCount)
      else if 2 <=? WakeUpRequest.attempts request.2 then
        prisma.wakeUpRequest.update request.1 (data_wu_status WU_FAILED);;
        mret processedCount
      else
        mret processedCount
  end.

(** Process wake-up call requests. *)
Definition processWakeUpCalls (h : Host) : M nat :=
  now ← new_Date h;
  s ← get_db;
  for_of (wakeUpBatch now s) (wakeUpOne h now) 0%nat.

End WakeUp.

(** ** PMS reconciliation: [syncFromPMS] *)

Module prisma_sync.

(** [prisma.guest.findUnique({ where: { externalId } })] *)
Definition guest_findUnique (externalId : string) : M (option (ID * Guest.t)) :=
  s ← get_db;
  mret (List.find (λ kg, bool_decide (Guest.externalId kg.2 = Some externalId))
                  (map_to_list (guests s))).

(** [prisma.guest.create({ data })]; a [@unique] phone that another guest
    already has is a constraint violation. *)
Definition guest_create `{Schema} (data : Guest.t) : M (ID * Guest.t) :=
  s ← get_db;
  if guest_phone_unique
     && existsb (λ kg, bool_decide (Guest.phone kg.2 = Guest.phone data))
                (map_to_list (guests s))
  then throw (Error "Unique constraint failed on the fields: (`phone`)")
  else
    let id := prisma.new_id (guests s) in
    set_db (mkStore (<[id := data]> (guests s)) (reservations s)
              (proactiveCalls s) (wakeUpRequests s));;
    mret (id, data).

(** [prisma.reservation.upsert({ where: { externalId }, update, create })];
    [update] and [create] are functions of the stored row and of nothing. *)
Definition reservation_upsert (externalId : string)
    (update : Reservation.t → Reservation.t) (create : Reservation.t) : M unit :=
  s ← get_db;
  match List.find (λ kr, bool_decide (Reservation.externalId kr.2 = Some externalId))
                  (map_to_list (reservations s)) with
  | Some (id, row) =>
      set_db (mkStore (guests s) (<[id := update row]> (reservations s))
                (proactiveCalls s) (wakeUpRequests s))
  | None =>
      let id := prisma.new_id (reservations s) in
      set_db (mkStore (guests s) (<[id := create]> (reservations s))
                (proactiveCalls s) (wakeUpRequests s))
  end.

End prisma_sync.

Record SyncResult : Type := mkSync {
  synced : nat;
  errors : nat;
}.

Section Sync.
Context {cal : Calendar} {sch : Schema}.

(** [pmsRes.status.toUpperCase().replace('-', '_') as never] *)
Definition normalize_status (status : string) : option ReservationStatus :=
  ReservationStatus_of_name (Js.replace "-" "_" (Js.toUpperCase status)).

(** [axios.get(`${pmsUrl}/guests/${pmsRes.guestId}`, { headers })] *)
Definition get_guest (h : Host) (pmsUrl pmsKey : string)
    (pmsRes : PMSReservation.t) : Res PMSGuest.t :=
  pms_get_guest h (pmsUrl +:+ "/guests/" +:+ PMSReservation.guestId pmsRes)
    ("Bearer " +:+ pmsKey).

(** [axios.get(`${pmsUrl}/hotels/${hotelId}/reservations`, { headers, params })] *)
Definition get_reservations (h : Host) (pmsUrl pmsKey : string)
    (hotelId : option string) (from to : Z) : Res (list PMSReservation.t) :=
  pms_get_reservations h
    (pmsUrl +:+ "/hotels/" +:+ default "undefined" hotelId +:+ "/reservations")
    ("Bearer " +:+ pmsKey) from to.

(** The guest row [create] is given. *)
Definition guest_of_pms (pmsGuest : PMSGuest.t) : Guest.t :=
  {| Guest.externalId := Some (PMSGuest.id pmsGuest);
     Guest.firstName := PMSGuest.firstName pmsGuest;
     Guest.lastName := PMSGuest.lastName pmsGuest;
     Guest.email := PMSGuest.email pmsGuest;
     Guest.phone := PMSGuest.phone pmsGuest;
     Guest.preferredLanguage :=
       Js.or_default (PMSGuest.preferredLanguage pmsGuest) "en";
     Guest.vipStatus := default false (PMSGuest.vipStatus pmsGuest) |}.

(** The [update] and [create] arguments of the upsert. *)
Definition reservation_update (pmsRes : PMSReservation.t)
    (checkIn checkOut : Z) (status : ReservationStatus) (row : Reservation.t)
    : Reservation.t :=
  {| Reservation.externalId := Reservation.externalId row;
     Reservation.guestId := Reservation.guestId row;
     Reservation.roomNumber :=
       set_if_defined (PMSReservation.roomNumber pmsRes) (Reservation.roomNumber row);
     Reservation.roomType := PMSReservation.roomType pmsRes;
     Reservation.checkInDate := checkIn;
     Reservation.checkOutDate := checkOut;
     Reservation.status := status;
     Reservation.numberOfGuests := PMSReservation.numberOfGuests pmsRes;
     Reservation.specialRequests :=
       set_if_defined (PMSReservation.specialRequests pmsRes)
                      (Reservation.specialRequests row) |}.

Definition reservation_create (pmsRes : PMSReservation.t) (guestId : ID)
    (checkIn checkOut : Z) (status : ReservationStatus) : Reservation.t :=
  {| Reservation.externalId := Some (PMSReservation.id pmsRes);
     Reservation.guestId := guestId;
     Reservation.roomNumber := PMSReservation.roomNumber pmsRes;
     Reservation.roomType := PMSReservation.roomType pmsRes;
     Reservation.checkInDate := checkIn;
     Reservation.checkOutDate := checkOut;
     Reservation.status := status;
     Reservation.numberOfGuests := PMSReservation.numberOfGuests pmsRes;
     Reservation.specialRequests := PMSReservation.specialRequests pmsRes |}.

(** The body of the inner [try]: one upstream reservation. *)
Definition syncReservation (h : Host) (pmsUrl pmsKey : string)
    (pmsRes : PMSReservation.t) : M unit :=
  (* Find or create guest *)
  pmsGuest ← lift (get_guest h pmsUrl pmsKey pmsRes);
  found ← prisma_sync.guest_findUnique (PMSGuest.id pmsGuest);
  guest ← match found with
          | Some g => mret g
          | None => prisma_sync.guest_create (guest_of_pms pmsGuest)
          end;
  (* Upsert reservation; the client validates the arguments first *)
  match parseISO (PMSReservation.checkInDate pmsRes),
        parseISO (PMSReservation.checkOutDate pmsRes),
        normalize_status (PMSReservation.status pmsRes) with
  | Some checkIn, Some checkOut, Some status =>
      prisma_sync.reservation_upsert (PMSReservation.id pmsRes)
        (reservation_update pmsRes checkIn checkOut status)
        (reservation_create pmsRes guest.1 checkIn checkOut status)
  | _, _, _ => throw (Error "Invalid value provided")
  end.

(** One turn of the loop: the inner [try]/[catch] around [syncReservation],
    with the counters [synced] and [errors]. *)
Definition syncOne (h : Host) (pmsUrl pmsKey : string) (counts : nat * nat)
    (pmsRes : PMSReservation.t) : M (nat * nat) :=
  try_catch
    (syncReservation h pmsUrl pmsKey pmsRes;;
     mret (S counts.1, counts.2))
    (λ _, mret (counts.1, S counts.2)).

(** Sync reservations from the PMS. *)
Definition syncFromPMS (h : Host) : M SyncResult :=
  let pmsUrl := env h !! "PMS_API_URL" in
  let pmsKey := env h !! "PMS_API_KEY" in
  let hotelId := env h !! "PMS_HOTEL_ID" in
  if Js.falsy pmsUrl || Js.falsy pmsKey then
    mret (mkSync 0 0)
  else
    let pmsUrl := default "" pmsUrl in
    let pmsKey := default "" pmsKey in
    try_catch
      ((* Fetch recent reservations from PMS *)
       from ← new_Date h;
       to ← new_Date h;
       response ← lift (get_reservations h pmsUrl pmsKey hotelId
                          (subDays from 1) (addDays to 30));
       counts ← for_of response (syncOne h pmsUrl pmsKey) (0%nat, 0%nat);
       mret (mkSync counts.1 counts.2))
      (λ _, mret (mkSync 0 1)).

End Sync.

(** ** [verifyCronSecret] of [security.ts] *)

Definition verifyCronSecret (env : gmap string string)
    (secret : option string) (expectedSecret : option string) : bool :=
  if Js.falsy secret then false
  else
    let expected := Js.or_else expectedSecret (env !! "CRON_SECRET") in
    if Js.falsy expected then
      if bool_decide (env !! "NODE_ENV" = Some "development") then true else false
    else
      let secretBuffer := Js.Buffer_from (default "" secret) in
      let expectedBuffer := Js.Buffer_from (default "" expected) in
      if bool_decide (length secretBuffer ≠ length expectedBuffer) then false
      else Js.timingSafeEqual secretBuffer expectedBuffer.

(** ** A concrete calendar

    A host whose local time is UTC plus a fixed offset, with [date-fns] 3 and
    4's [addDays]: [date.setDate(date.getDate() + amount)], where [setDate]
    truncates its argument to an integer. *)

Module FixedOffset.

Definition millisecondsInDay : Z := 86400000.

(** Days since 1970-01-01 of a civil date, and back. *)
Definition days_from_civil (y m d : Z) : Z :=
  let y := if m <=? 2 then y - 1 else y in
  let era := y / 400 in
  let yoe := y - era * 400 in
  let doy := (153 * (if 2 <? m then m - 3 else m + 9) + 2) / 5 + d - 1 in
  let doe := yoe * 365 + yoe / 4 - yoe / 100 + doy in
  era * 146097 + doe - 719468.

Definition civil_from_days (z : Z) : Z * Z * Z :=
  let z := z + 719468 in
  let era := z / 146097 in
  let doe := z - era * 146097 in
  let yoe := (doe - doe / 1460 + doe / 36524 - doe / 146096) / 365 in
  let y := yoe + era * 400 in
  let doy := doe - (365 * yoe + yoe / 4 - yoe / 100) in
  let mp := (5 * doy + 2) / 153 in
  let d := doy - (153 * mp + 2) / 5 + 1 in
  let m := if mp <? 10 then mp + 3 else mp - 9 in
  (if m <=? 2 then y + 1 else y, m, d).

Section WithOffset.
Variable offset : Z.

(** [date.getDate()]: the day of the month, in local time. *)
Definition getDate (date : Z) : Z :=
  (civil_from_days ((date + offset) / millisecondsInDay)).2.

Definition startOfDay (date : Z) : Z :=
  date - (date + offset) mod millisecondsInDay.

Definition truncate (x : Q) : Z :=
  if Qle_bool 0 x then Qfloor x else Qceiling x.

Definition addDays (date : Z) (amount : Q) : Z :=
  if Qeq_bool amount 0 then date
  else
    let d := getDate date in
    date + (truncate (inject_Z d + amount)%Q - d) * millisecondsInDay.

Definition setHours (date : Z) (hours : Z) : Z :=
  startOfDay date + hours * millisecondsInHour.

Definition digit (c : ascii) : option Z :=
  let n := Z.of_nat (Ascii.nat_of_ascii c) in
  if (48 <=? n) && (n <=? 57) then Some (n - 48) else None.

Fixpoint number (acc : Z) (cs : list ascii) : option Z :=
  match cs with
  | [] => Some acc
  | c :: rest =>
      match digit c with
      | Some d => number (10 * acc + d) rest
      | None => None
      end
  end.

(** The calendar-date form [YYYY-MM-DD], read as local midnight; every
    other text is the Invalid Date here. *)
Definition parseISO (text : string) : option Z :=
  match String.list_ascii_of_string text with
  | [y1; y2; y3; y4; "-"%char; m1; m2; "-"%char; d1; d2] =>
      match number 0 [y1; y2; y3; y4], number 0 [m1; m2], number 0 [d1; d2] with
      | Some y, Some m, Some d =>
          if bool_decide (civil_from_days (days_from_civil y m d) = (y, m, d))
             && (1 <=? m) && (m <=? 12) && (1 <=? d)
          then Some (days_from_civil y m d * millisecondsInDay - offset)
          else None
      | _, _, _ => None
      end
  | _ => None
  end.

Definition format_h_mm_a (date : Z) : string :=
  let ms := (date + offset) mod millisecondsInDay in
  let hours := ms / millisecondsInHour in
  let minutes := (ms mod millisecondsInHour) / 60000 in
  let h12 := if bool_decide (hours mod 12 = 0) then 12 else hours mod 12 in
  pretty h12 +:+ ":" +:+ (if minutes <? 10 then "0" else "") +:+ pretty minutes
    +:+ (if hours <? 12 then " AM" else " PM").

End WithOffset.

Definition calendar (offset : Z) : Calendar :=
  Build_Calendar (startOfDay offset) (addDays offset) (setHours offset)
    (parseISO offset) (format_h_mm_a offset).

End FixedOffset.

(** The calendar of a host on UTC. *)
Definition utc : Calendar := FixedOffset.calendar 0.

(** A schema with the usual retry budget and a unique phone column. *)
Definition schema3 (phone_unique : bool) : Schema :=
  {| default_maxAttempts := 3; guest_phone_unique := phone_unique |}.

(** ** Sample data *)

Module Sample.

(** 2024-03-15T00:00:00Z *)
Definition day0 : Z := 1710460800000.
Definition hours (n : Z) : Z := n * millisecondsInHour.
Definition days (n : Z) : Z := n * FixedOffset.millisecondsInDay.

Definition john : Guest.t :=
  Guest.mk None "John" "Doe" (Some "john.doe@example.com") "+15551234567" "en" false.

(** A confirmed stay that checks in on the 16th, in room 101. *)
Definition stay (status : ReservationStatus) : Reservation.t :=
  Reservation.mk (Some "sample-reservation-001") 0%nat (Some "101") "DELUXE"
    (day0 + days 1) (day0 + days 3) status 2 None.

Definition store (status : ReservationStatus) : Store :=
  mkStore {[ 0%nat := john ]} {[ 0%nat := stay status ]} ∅ ∅.

Definition configured : gmap string string :=
  {[ "VAPI_API_KEY" := "key"; "VAPI_PHONE_NUMBER_ID" := "pn-1";
     "PMS_API_URL" := "https://pms.example"; "PMS_API_KEY" := "pms-key";
     "PMS_HOTEL_ID" := "hotel-1" ]}.

(** A host whose clock stands at [now] and whose gateway answers [reply]. *)
Definition host (now : Z) (reply : Res (option string)) : Host :=
  mkHost configured (λ _, now) (λ _ _, reply)
    (λ _ _ _ _, Throw (Error "Network Error")) (λ _ _, Throw (Error "Network Error")).

(** The pre-arrival job of that stay, due at 16:00 on the 15th. *)
Definition job : ProactiveCall.t :=
  ProactiveCall.mk 0%nat PRE_ARRIVAL (day0 + hours 16) None SCHEDULED 0 3 None None.

Definition store_with_job : Store :=
  mkStore {[ 0%nat := john ]} {[ 0%nat := stay CONFIRMED ]} {[ 0%nat := job ]} ∅.

(** A wake-up request of room 101, whose guest has checked in. *)
Definition wake (requestedTime : Z) (status : WakeUpStatus) (attempts : Z)
    (completedAt : option Z) : WakeUpRequest.t :=
  WakeUpRequest.mk "101" requestedTime status attempts completedAt.

Definition store_with_wake (requestedTime : Z) : Store :=
  mkStore {[ 0%nat := john ]} {[ 0%nat := stay CHECKED_IN ]} ∅
    {[ 0%nat := wake requestedTime PENDING 0 None ]}.

Definition with_wake (s : Store) (r : WakeUpRequest.t) : Store :=
  mkStore (guests s) (reservations s) (proactiveCalls s) {[ 0%nat := r ]}.

Definition busy : Res (option string) := Throw (Error "line busy").

(** Upstream records: reservation [r<n>] of guest [g<n>]. *)
Definition pms_guest (n : string) : PMSGuest.t :=
  PMSGuest.mk ("g" +:+ n) "Guest" n None ("+1555000000" +:+ n) None None.

Definition pms_reservation (n : string) : PMSReservation.t :=
  PMSReservation.mk ("r" +:+ n) ("g" +:+ n) (Some ("10" +:+ n)) "DELUXE"
    "2024-03-16" "2024-03-18" "confirmed" 2 None.

(** A PMS that lists [batch] and knows the guests of [known]. *)
Definition pms (batch : list PMSReservation.t) (known : list PMSGuest.t) : Host :=
  mkHost configured (λ _, day0 + hours 3) (λ _ _, busy)
    (λ _ _ _ _, Ok batch)
    (λ url _,
       match assoc url (map (λ g, ("https://pms.example/guests/" +:+ PMSGuest.id g, g))
                            known) with
       | Some g => Ok g
       | None => Throw (Error "Request failed with status code 500")
       end).

(** Five upstream reservations; the guest of the third cannot be fetched. *)
Definition five : Host :=
  pms (map pms_reservation ["1"; "2"; "3"; "4"; "5"])
      (map pms_guest ["1"; "2"; "4"; "5"]).

(** Upstream, John has the phone and the email of the local [john]. *)
Definition pms_john : PMSGuest.t :=
  PMSGuest.mk "g1" "John" "Doe" (Some "john.doe@example.com") "+15551234567"
    None None.

Definition john_upstream : Host := pms [pms_reservation "1"] [pms_john].

Definition only_john : Store := mkStore {[ 0%nat := john ]} ∅ ∅ ∅.
Definition accepted : Res (option string) := Ok (Some "call-1").

End Sample.

(** ** Vocabulary of the properties *)

(** How many [ProactiveCall] rows the store holds for a reservation and a
    call type. *)
Definition callCount (s : Store) (reservationId : ID) (callType : CallType) : nat :=
  length (filter (λ kc : ID * ProactiveCall.t,
                    ProactiveCall.reservationId kc.2 = reservationId
                    ∧ ProactiveCall.callType kc.2 = callType)
                 (map_to_list (proactiveCalls s))).

(** The four scheduling operations, and a sequence of their invocations, one
    after the other, each with the host it happens to meet. *)
Inductive SchedulingOp : Type :=
  | PreArrival | MidStay | PreCheckout | PostStay.

Definition schedule `{Calendar} `{Schema} (op : SchedulingOp) : Host → M nat :=
  match op with
  | PreArrival => schedulePreArrivalCalls
  | MidStay => scheduleMidStayCalls
  | PreCheckout => schedulePreCheckoutCalls
  | PostStay => schedulePostStayCalls
  end.

Definition callType_of (op : SchedulingOp) : CallType :=
  match op with
  | PreArrival => PRE_ARRIVAL
  | MidStay => MID_STAY
  | PreCheckout => PRE_CHECKOUT
  | PostStay => POST_STAY
  end.

Definition after_invocations `{Calendar} `{Schema}
    (invocations : list (SchedulingOp * Host)) (s : Store) : Store :=
  foldl (λ s oh, store_after (schedule oh.1 oh.2) s) s invocations.

(** The store after [create] has added one scheduled call. *)
Definition add_call `{Schema} (s : Store) (reservationId : ID) (callType : CallType)
    (scheduledTime : Z) : Store :=
  mkStore (guests s) (reservations s)
    (<[prisma.new_id (proactiveCalls s) :=
         ProactiveCall.mk reservationId callType scheduledTime None SCHEDULED
           0 default_maxAttempts None None]> (proactiveCalls s))
    (wakeUpRequests s).

Fixpoint adds `{Schema} (callType : CallType) (ids : list ID) (s s' : Store) : Prop :=
  match ids with
  | [] => s' = s
  | id :: rest => ∃ t, adds callType rest (add_call s id callType t) s'
  end.

(** A store with another table of scheduled calls. *)
Definition with_calls (s : Store) (calls : gmap ID ProactiveCall.t) : Store :=
  mkStore (guests s) (reservations s) calls (wakeUpRequests s).

(** The row a due call is left with when its turn in the dispatch loop is
    over: the in-progress update, then the update of the branch taken. *)
Definition settle (h : Host) (now : Z) (d : DueCall) : ProactiveCall.t :=
  let row := data_in_progress now (due_call d) in
  let result := placeCall h d in
  if success result then data_placed (callId result) row
  else
    data_retry
      (if ProactiveCall.maxAttempts (due_call d) <=? ProactiveCall.attempts (due_call d) + 1
       then FAILED else SCHEDULED)
      (error result) (addHours now 1) row.

(** The jobs of a batch the gateway accepted. *)
Definition acceptedCalls (h : Host) (batch : list DueCall) : list DueCall :=
  List.filter (λ d, success (placeCall h d)) batch.

(** What the gateway answered for a job in a dispatch pass; [None] when the
    pass did not select the job. *)
Definition dispatched (h : Host) (callType : option CallType) (s : Store) (id : ID)
    : option CallResult :=
  match dueBatch (clk h 0) callType s with
  | Ok batch => placeCall h <$> List.find (λ d, bool_decide (due_id d = id)) batch
  | Throw _ => None
  end.

Definition gateway_failed (r : option CallResult) : bool :=
  match r with
  | Some result => negb (success result)
  | None => false
  end.

(** A sequence of dispatch passes, one after the other. *)
Definition after_passes (passes : list (Host * option CallType)) (s : Store) : Store :=
  foldl (λ s p, store_after (processScheduledCalls p.1 p.2) s) s passes.

(** The PMS as one invocation of [syncFromPMS] sees it. *)
Definition pms_configured (h : Host) : bool :=
  negb (Js.falsy (env h !! "PMS_API_URL") || Js.falsy (env h !! "PMS_API_KEY")).

Definition pms_url (h : Host) : string := default "" (env h !! "PMS_API_URL").
Definition pms_key (h : Host) : string := default "" (env h !! "PMS_API_KEY").

(** The answer to the reservation request, and to the guest request of an
    upstream reservation. *)
Definition upstream {cal : Calendar} (h : Host) : Res (list PMSReservation.t) :=
  get_reservations h (pms_url h) (pms_key h) (env h !! "PMS_HOTEL_ID")
    (subDays (clk h 0) 1) (addDays (clk h 1) 30).

Definition upstream_guest (h : Host) (pmsRes : PMSReservation.t) : Res PMSGuest.t :=
  get_guest h (pms_url h) (pms_key h) pmsRes.

(** The same host, with another answer to the reservation request. *)
Definition with_upstream (h : Host) (reply : Res (list PMSReservation.t)) : Host :=
  mkHost (env h) (clk h) (vapi_post h) (λ _ _ _ _, reply) (pms_get_guest h).

(** One more error on the counter of a result. *)
Definition one_more_error (r : Res SyncResult) : Res SyncResult :=
  match r with
  | Ok r => Ok (mkSync (synced r) (S (errors r)))
  | Throw e => Throw e
  end.

(** The local guest and reservation that carry an external identifier. *)
Definition guest_by_externalId (s : Store) (externalId : string)
    : option (ID * Guest.t) :=
  List.find (λ kg, bool_decide (Guest.externalId kg.2 = Some externalId))
            (map_to_list (guests s)).

Definition reservation_by_externalId (s : Store) (externalId : string)
    : option (ID * Reservation.t) :=
  List.find (λ kr, bool_decide (Reservation.externalId kr.2 = Some externalId))
            (map_to_list (reservations s)).

(** The guest an upstream guest resolves to, and the guest table after the
    resolution: the local guest with that external identifier, or a new one. *)
Definition resolved_guest {cal : Calendar} (s : Store) (pmsGuest : PMSGuest.t)
    : ID * gmap ID Guest.t :=
  match guest_by_externalId s (PMSGuest.id pmsGuest) with
  | Some (k, _) => (k, guests s)
  | None =>
      (prisma.new_id (guests s),
       <[prisma.new_id (guests s) := guest_of_pms pmsGuest]> (guests s))
  end.

Section Vocabulary.
Context {cal : Calendar} {sch : Schema}.

(** A loop body that creates one scheduled call for its reservation. *)
Definition creates_one (ty : CallType)
    (body : nat → ID * Reservation.t → M nat) : Prop :=
  ∀ n r w, ∃ t rd,
    body n r w = (Ok (S n), mkWorld (add_call (db w) r.1 ty t) rd).

(** The [where] clause of each operation. *)
Definition where_of (op : SchedulingOp) : Z → Store → ID → Reservation.t → bool :=
  match op with
  | PreArrival => where_preArrival
  | MidStay => where_midStay
  | PreCheckout => where_preCheckout
  | PostStay => where_postStay
  end.

(** The reservations an invocation selects. *)
Definition selected (op : SchedulingOp) (today : Z) (s : Store)
    : list (ID * Reservation.t) :=
  List.filter (λ kr, where_of op today s kr.1 kr.2) (map_to_list (reservations s)).

End Vocabulary.

(** * Further code of the cited files *)

(** ** More of JavaScript's strings *)

Module JsString.

(** [s.startsWith(p)] *)
Fixpoint startsWith (p s : string) : bool :=
  match p, s with
  | EmptyString, _ => true
  | String a p', String b s' => bool_decide (a = b) && startsWith p' s'
  | String _ _, EmptyString => false
  end.

(** [s.slice(n)] for [n] within the string *)
Fixpoint slice (n : nat) (s : string) : string :=
  match n, s with
  | O, _ => s
  | S n', String _ s' => slice n' s'
  | S _, EmptyString => EmptyString
  end.

(** [s.replace(pattern, replacement)] with a string pattern: the first
    occurrence, wherever it is.  The replacement is taken as it stands (the
    call sites replace by the empty string, which has no [$] pattern). *)
Fixpoint replace (pattern replacement s : string) : string :=
  if startsWith pattern s then replacement +:+ slice (String.length pattern) s
  else
    match s with
    | EmptyString => EmptyString
    | String c rest => String c (replace pattern replacement rest)
    end.

(** [s.replace(/re/g, '')] for a regular expression that matches single
    characters: the characters it matches are dropped. *)
Fixpoint remove_all (matches : ascii → bool) (s : string) : string :=
  match s with
  | EmptyString => EmptyString
  | String c rest =>
      if matches c then remove_all matches rest
      else String c (remove_all matches rest)
  end.

(** [s.includes(c)] for a one-character string *)
Fixpoint includes (c : ascii) (s : string) : bool :=
  match s with
  | EmptyString => false
  | String d rest => bool_decide (c = d) || includes c rest
  end.

(** The class [\d] and its subclass [[1-9]]. *)
Definition digit (c : ascii) : bool :=
  let n := Ascii.nat_of_ascii c in ((48 <=? n) && (n <=? 57))%nat.

Definition digit_1_9 (c : ascii) : bool :=
  let n := Ascii.nat_of_ascii c in ((49 <=? n) && (n <=? 57))%nat.

Fixpoint all_chars (p : ascii → bool) (s : string) : bool :=
  match s with
  | EmptyString => true
  | String c rest => p c && all_chars p rest
  end.

End JsString.

(** ** The rest of [security.ts] *)

(** The comparison the three verifiers end with: buffers of the two strings,
    the length check, then [crypto.timingSafeEqual]. *)
Definition safe_equal (a b : string) : bool :=
  let aBuffer := Js.Buffer_from a in
  let bBuffer := Js.Buffer_from b in
  if bool_decide (length aBuffer ≠ length bBuffer) then false
  else Js.timingSafeEqual aBuffer bBuffer.

Section Webhook.
(** [crypto.createHmac('sha256', key).update(body).digest('hex')] *)
Variable hmac_sha256_hex : string → string → string.

(** Verify the webhook signature using HMAC-SHA256. *)
Definition verifyWebhookSignature (env : gmap string string)
    (body : string) (signature : option string) (secret : option string) : bool :=
  if Js.falsy signature then false
  else
    let webhookSecret := Js.or_else secret (env !! "VAPI_WEBHOOK_SECRET") in
    if Js.falsy webhookSecret then
      (* In development, allow unsigned requests *)
      if bool_decide (env !! "NODE_ENV" = Some "development") then true else false
    else
      let expectedSignature := hmac_sha256_hex (default "" webhookSecret) body in
      safe_equal (default "" signature) expectedSignature.

End Webhook.

(** Verify bearer token authentication. *)
Definition verifyBearerToken (env : gmap string string)
    (authHeader : option string) (expectedToken : option string) : bool :=
  if Js.falsy authHeader then false
  else
    let token := JsString.replace "Bearer " "" (default "" authHeader) in
    let expected := Js.or_else expectedToken (env !! "VAPI_WEBHOOK_SECRET") in
    if Js.falsy expected then
      if bool_decide (env !! "NODE_ENV" = Some "development") then true else false
    else safe_equal token (default "" expected).

(** Sanitize phone numbers: [/[^\d+]/g] removes every character that is
    neither a digit nor a plus sign; a plus sign that is not in front takes
    all plus signs away. *)
Definition sanitizePhoneNumber (phone : string) : string :=
  let sanitized :=
    JsString.remove_all
      (λ c, negb (JsString.digit c || bool_decide (c = "+"%char))) phone in
  if JsString.includes "+" sanitized && negb (JsString.startsWith "+" sanitized)
  then JsString.remove_all (λ c, bool_decide (c = "+"%char)) sanitized
  else sanitized.

(** The characters [sanitizePhoneNumber] keeps. *)
Definition phone_char (c : ascii) : bool :=
  JsString.digit c || bool_decide (c = "+"%char).

(** Validate the E.164 format: [/^\+[1-9]\d{1,14}$/]. *)
Definition isValidE164 (phone : string) : bool :=
  match phone with
  | String "+" (String d rest) =>
      JsString.digit_1_9 d && JsString.all_chars JsString.digit rest
      && (1 <=? String.length rest)%nat && (String.length rest <=? 14)%nat
  | _ => false
  end.

(** The rate limiter: a [Map] from identifiers to the times of their
    admitted requests. *)
Module RateLimiter.

Record t : Type := mk {
  requests : gmap string (list Z);
  windowMs : Z;
  maxRequests : Z;
}.

(** [new RateLimiter()], [new RateLimiter(windowMs, maxRequests)] *)
Definition new (windowMs maxRequests : option Z) : t :=
  mk ∅ (default 60000 windowMs) (default 100 maxRequests).

(** [requests.filter(time => time > windowStart)] *)
Definition recent (windowStart : Z) (times : list Z) : list Z :=
  List.filter (λ time, windowStart <? time) times.

(** [isAllowed(identifier)], when [Date.now()] is [now]: the answer and the
    limiter afterwards. *)
Definition isAllowed (now : Z) (identifier : string) (this : t) : bool * t :=
  let windowStart := now - windowMs this in
  (* Get existing requests for this identifier *)
  let requests := default [] (requests this !! identifier) in
  (* Filter out old requests *)
  let requests := recent windowStart requests in
  (* Check if under limit *)
  if maxRequests this <=? Z.of_nat (length requests) then (false, this)
  else
    (* Add current request *)
    (true, mk (<[identifier := requests ++ [now]]> (RateLimiter.requests this))
              (windowMs this) (maxRequests this)).

(** [reset(identifier)] *)
Definition reset (identifier : string) (this : t) : t :=
  mk (delete identifier (requests this)) (windowMs this) (maxRequests this).

(** [cleanup()], when [Date.now()] is [now] *)
Definition cleanup (now : Z) (this : t) : t :=
  let windowStart := now - windowMs this in
  mk (omap (λ times,
        let filtered := recent windowStart times in
        if bool_decide (filtered = []) then None else Some filtered)
      (requests this))
     (windowMs this) (maxRequests this).

(** A run of [isAllowed] calls, each with its identifier and its time: the
    admitted ones, in order, and the limiter afterwards. *)
Fixpoint serve (calls : list (string * Z)) (this : t) : list (string * Z) * t :=
  match calls with
  | [] => ([], this)
  | (identifier, now) :: rest =>
      let '(allowed, this') := isAllowed now identifier this in
      let '(admitted, final) := serve rest this' in
      (if allowed then (identifier, now) :: admitted else admitted, final)
  end.

(** The times at which an identifier was admitted, and how many of them lie
    in the window of length [windowMs] that ends at [t]. *)
Definition times_of (identifier : string) (admitted : list (string * Z)) : list Z :=
  (filter (λ e : string * Z, e.1 = identifier) admitted).*2.

Definition admitted_in_window (this : t) (identifier : string) (t : Z)
    (admitted : list (string * Z)) : nat :=
  length (filter (λ x, t - windowMs this < x ∧ x ≤ t) (times_of identifier admitted)).

(** What the limiter remembers agrees, inside the window, with what it
    admitted; nothing admitted is later than [now]; the bound holds so far. *)
Definition consistent (this : t) (now : Z) (hist : list (string * Z)) : Prop :=
  (∀ id, recent (now - windowMs this) (default [] (requests this !! id))
         = recent (now - windowMs this) (times_of id hist))
  ∧ (∀ e, e ∈ hist → e.2 ≤ now)
  ∧ (∀ id t, Z.of_nat (admitted_in_window this id t hist) ≤ maxRequests this).

End RateLimiter.

(** ** Vocabulary of the dispatch properties *)

(** The order of the due-job query. *)
Definition by_scheduledTime (a b : ID * ProactiveCall.t) : Prop :=
  ProactiveCall.scheduledTime a.2 ≤ ProactiveCall.scheduledTime b.2.

(** The columns that say what a scheduled call is a call for. *)
Definition call_key (c : ProactiveCall.t) : ID * CallType :=
  (ProactiveCall.reservationId c, ProactiveCall.callType c).

(** The gateway is not configured. *)
Definition vapi_unconfigured (h : Host) : bool :=
  Js.falsy (env h !! "VAPI_API_KEY") || Js.falsy (env h !! "VAPI_PHONE_NUMBER_ID").

(** A backlog: [n] pre-arrival jobs of the sample stay, job [i] due [i]
    minutes before 16:00. *)
Definition backlog (n : nat) : Store :=
  mkStore {[ 0%nat := Sample.john ]} {[ 0%nat := Sample.stay CONFIRMED ]}
    (list_to_map
       (imap (λ i (_ : unit),
                (i, ProactiveCall.mk 0%nat PRE_ARRIVAL
                      (Sample.day0 + Sample.hours 16 - Z.of_nat i * 60000)
                      None SCHEDULED 0 3 None None))
             (replicate n tt)))
    ∅.

(** ** Vocabulary of the wake-up properties *)

(** The reservation the wake-up loop finds for a room: the first one of the
    room that is checked in. *)
Definition occupant (s : Store) (roomNumber : string) : option (ID * Reservation.t) :=
  List.find (λ kr : ID * Reservation.t,
               bool_decide (Reservation.roomNumber kr.2 = Some roomNumber)
               && bool_decide (Reservation.status kr.2 = CHECKED_IN))
            (map_to_list (reservations s)).

(** Every reservation has its guest (the foreign key of the relation). *)
Definition guests_resolve (s : Store) : bool :=
  forallb (λ kr : ID * Reservation.t,
             bool_decide (is_Some (guests s !! Reservation.guestId kr.2)))
          (map_to_list (reservations s)).

(** Whether the gateway accepts the wake-up call of a request, and the row
    the request is left with when its turn in the loop is over. *)
Definition wake_served `{Calendar} (h : Host) (now : Z) (s : Store)
    (request : ID * WakeUpRequest.t) : bool :=
  match occupant s (WakeUpRequest.roomNumber request.2) with
  | None => false
  | Some (_, r) =>
      match guests s !! Reservation.guestId r with
      | None => false
      | Some guest => success (placeWakeUp h now request guest)
      end
  end.

Definition wake_settle `{Calendar} (h : Host) (now : Z) (s : Store)
    (request : ID * WakeUpRequest.t) : WakeUpRequest.t :=
  match occupant s (WakeUpRequest.roomNumber request.2) with
  | None => data_wu_status WU_FAILED request.2
  | Some (_, r) =>
      match guests s !! Reservation.guestId r with
      | None => request.2
      | Some guest =>
          let row := data_wu_attempt request.2 in
          if success (placeWakeUp h now request guest) then data_wu_completed now row
          else if 2 <=? WakeUpRequest.attempts request.2
               then data_wu_status WU_FAILED row
               else row
      end
  end.

(** A sequence of wake-up sweeps, one after the other. *)
Definition after_sweeps `{Calendar} (hosts : list Host) (s : Store) : Store :=
  foldl (λ s h, store_after (processWakeUpCalls h) s) s hosts.

(** ** Vocabulary of the frame properties *)

(** A computation keeps a relation between the store it starts from and the
    store it leaves, whether it returns or throws. *)
Definition keeps {A} (R : relation Store) (m : M A) : Prop :=
  ∀ w, R (db w) (db (m w).2).

(** How a wake-up request may change: not at all in its room and requested
    time, and upwards in its attempts; none appears or disappears. *)
Definition wakeUp_evolves (r r' : option WakeUpRequest.t) : Prop :=
  match r, r' with
  | Some a, Some b =>
      WakeUpRequest.roomNumber b = WakeUpRequest.roomNumber a
      ∧ WakeUpRequest.requestedTime b = WakeUpRequest.requestedTime a
      ∧ WakeUpRequest.attempts a ≤ WakeUpRequest.attempts b
  | None, None => True
  | _, _ => False
  end.

Definition wakeUp_frame (s s' : Store) : Prop :=
  guests s' = guests s
  ∧ reservations s' = reservations s
  ∧ proactiveCalls s' = proactiveCalls s
  ∧ ∀ k, wakeUp_evolves (wakeUpRequests s !! k) (wakeUpRequests s' !! k).

#[local] Instance wakeUp_frame_PreOrder : PreOrder wakeUp_frame.
Proof.
  split.
  - intros s. repeat split; try done. intros k. unfold wakeUp_evolves.
    destruct (wakeUpRequests s !! k); [|done]. repeat split; [done..|lia].
  - intros s1 s2 s3 (Eg & Er & Ep & H12) (Eg' & Er' & Ep' & H23).
    repeat split; try congruence. intros k. specialize (H12 k). specialize (H23 k).
    unfold wakeUp_evolves in *.
    destruct (wakeUpRequests s1 !! k), (wakeUpRequests s2 !! k),
      (wakeUpRequests s3 !! k); try done.
    destruct H12 as (? & ? & ?), H23 as (? & ? & ?).
    repeat split; [congruence.. | lia].
Qed.

(** ** Vocabulary of the reconciliation properties *)

(** What reconciliation may do to the store: scheduled calls and wake-up
    requests are as they were, guests are only added, and a reservation keeps
    its key, its external identifier and its guest. *)
Definition sync_frame (s s' : Store) : Prop :=
  proactiveCalls s' = proactiveCalls s
  ∧ wakeUpRequests s' = wakeUpRequests s
  ∧ guests s ⊆ guests s'
  ∧ ∀ k r, reservations s !! k = Some r →
      ∃ r', reservations s' !! k = Some r'
            ∧ Reservation.externalId r' = Reservation.externalId r
            ∧ Reservation.guestId r' = Reservation.guestId r.

#[local] Instance sync_frame_PreOrder : PreOrder sync_frame.
Proof.
  split.
  - intros s. repeat split; try done. intros k r E. by exists r.
  - intros s1 s2 s3 (Ep & Ew & Hg & Hr) (Ep' & Ew' & Hg' & Hr').
    repeat split; try congruence; [by etrans|].
    intros k r E. destruct (Hr k r E) as (r2 & E2 & ? & ?).
    destruct (Hr' k r2 E2) as (r3 & E3 & ? & ?).
    exists r3. repeat split; congruence.
Qed.

(** At most one reservation carries the external identifier. *)
Definition externalId_unique (s : Store) (externalId : string) : Prop :=
  ∀ k1 r1 k2 r2,
    reservations s !! k1 = Some r1 → reservations s !! k2 = Some r2 →
    Reservation.externalId r1 = Some externalId →
    Reservation.externalId r2 = Some externalId →
    k1 = k2.

Definition externalIds_unique (s s' : Store) : Prop :=
  (∀ e, externalId_unique s e) → ∀ e, externalId_unique s' e.

#[local] Instance externalIds_unique_PreOrder : PreOrder externalIds_unique.
Proof.
  split.
  - intros s H. exact H.
  - intros s1 s2 s3 H12 H23 H. apply H23, H12, H.
Qed.

(** The key and the row an upsert writes. *)
Definition upsert_target (s : Store) (externalId : string)
    (update : Reservation.t → Reservation.t) (create : Reservation.t)
    : ID * Reservation.t :=
  match reservation_by_externalId s externalId with
  | Some (id, row) => (id, update row)
  | None => (prisma.new_id (reservations s), create)
  end.

(** ** The cron route: [GET] and [POST] of the proactive-calls endpoint *)

Module cron.

(** The [result] object of each case of the [switch]. *)
Inductive CronResult : Type :=
  | Scheduled (preArrival midStay preCheckout postStay total : nat)
  | Processed (processed : nat)
  | WakeUpCalls (wakeUpCalls : nat)
  | PmsSync (pmsSync : SyncResult)
  | ScheduledProcessed (scheduled processed : nat).

(** The JSON bodies the route answers with; a timestamp is the time value
    its ISO string stands for. *)
Inductive Body : Type :=
  | ErrorBody (error : string)
  | SuccessBody (type : string) (result : CronResult) (timestamp : Z)
  | FailureBody (type : string) (error : string) (timestamp : Z).

Record Response : Type := mkResponse {
  status : Z;
  body : Body;
}.

Definition known_types : list string :=
  [ "schedule"; "process"; "wakeup"; "sync";
    "pre-arrival"; "mid-stay"; "pre-checkout"; "post-stay" ].

Section Route.
Context {cal : Calendar} {sch : Schema}.

(** The [switch]: the [result] of the case taken, or [None] when the
    [default] case returns. *)
Definition switch (h : Host) (type : string) : M (option CronResult) :=
  if bool_decide (type = "schedule") then
    (* Schedule all types of proactive calls *)
    preArrival ← schedulePreArrivalCalls h;
    midStay ← scheduleMidStayCalls h;
    preCheckout ← schedulePreCheckoutCalls h;
    postStay ← schedulePostStayCalls h;
    mret (Some (Scheduled preArrival midStay preCheckout postStay
                  (preArrival + midStay + preCheckout + postStay)))
  else if bool_decide (type = "process") then
    (* Process scheduled calls that are ready *)
    processed ← processScheduledCalls h None;
    mret (Some (Processed processed))
  else if bool_decide (type = "wakeup") then
    wakeUps ← processWakeUpCalls h;
    mret (Some (WakeUpCalls wakeUps))
  else if bool_decide (type = "sync") then
    syncResult ← syncFromPMS h;
    mret (Some (PmsSync syncResult))
  else if bool_decide (type = "pre-arrival") then
    preArrivalScheduled ← schedulePreArrivalCalls h;
    preArrivalProcessed ← processScheduledCalls h (Some PRE_ARRIVAL);
    mret (Some (ScheduledProcessed preArrivalScheduled preArrivalProcessed))
  else if bool_decide (type = "mid-stay") then
    midStayScheduled ← scheduleMidStayCalls h;
    midStayProcessed ← processScheduledCalls h (Some MID_STAY);
    mret (Some (ScheduledProcessed midStayScheduled midStayProcessed))
  else if bool_decide (type = "pre-checkout") then
    preCheckoutScheduled ← schedulePreCheckoutCalls h;
    preCheckoutProcessed ← processScheduledCalls h (Some PRE_CHECKOUT);
    mret (Some (ScheduledProcessed preCheckoutScheduled preCheckoutProcessed))
  else if bool_decide (type = "post-stay") then
    postStayScheduled ← schedulePostStayCalls h;
    postStayProcessed ← processScheduledCalls h (Some POST_STAY);
    mret (Some (ScheduledProcessed postStayScheduled postStayProcessed))
  else
    mret None.

(** [GET(request)], given the request's [authorization] header and the
    [type] parameter of its URL. *)
Definition GET (h : Host) (authorization type : option string) : M Response :=
  (* Verify cron secret *)
  let authHeader := authorization in
  let cronSecret := JsString.replace "Bearer " "" <$> authHeader in
  if negb (verifyCronSecret (env h) cronSecret None) then
    mret (mkResponse 401 (ErrorBody "Unauthorized"))
  else
    let type := Js.or_default type "process" in
    started ← new_Date h;
    try_catch
      (result ← switch h type;
       match result with
       | None => mret (mkResponse 400 (ErrorBody "Invalid type"))
       | Some result =>
           timestamp ← new_Date h;
           mret (mkResponse 200 (SuccessBody type result timestamp))
       end)
      (λ error,
         timestamp ← new_Date h;
         mret (mkResponse 500
                 (FailureBody type
                    match error with
                    | Error message => message
                    | Thrown => "Unknown error"
                    end
                    timestamp))).

(** Also support POST for manual triggers. *)
Definition POST (h : Host) (authorization type : option string) : M Response :=
  GET h authorization type.

End Route.

End cron.

(** A computation keeps the at-most-one-call property of a reservation and
    call type. *)
Definition at_most_one_kept (reservationId : ID) (callType : CallType)
    (s s' : Store) : Prop :=
  (callCount s reservationId callType ≤ 1)%nat →
  (callCount s' reservationId callType ≤ 1)%nat.

#[local] Instance at_most_one_kept_PreOrder rid ty : PreOrder (at_most_one_kept rid ty).
Proof.
  split.
  - intros s H. exact H.
  - intros s1 s2 s3 H12 H23 H. apply H23, H12, H.
Qed.

(** * Properties *)

(** ** The concrete calendar and the constants, on samples *)

Example civil_from_days_sample :
  FixedOffset.civil_from_days 19797 = (2024, 3, 15).
Proof. reflexivity. Qed.

Example parseISO_sample : @parseISO utc "2024-03-15" = Some Sample.day0.
Proof. vm_compute. reflexivity. Qed.

Example parseISO_invalid_sample : @parseISO utc "2024-02-30" = None.
Proof. vm_compute. reflexivity. Qed.

Example addDays_sample :
  @addDays utc Sample.day0 1 = Sample.day0 + Sample.days 1.
Proof. vm_compute. reflexivity. Qed.

(** Across the end of a month: 2024-03-01 minus two days. *)
Example subDays_sample :
  @subDays utc 1709251200000 2 = 1709251200000 - Sample.days 2.
Proof. vm_compute. reflexivity. Qed.

(** With this [addDays], the fractional amount of [fiveMinutesAgo] moves the
    date by one whole day. *)
Example fiveMinutesAgo_sample :
  @fiveMinutesAgo utc Sample.day0 = Sample.day0 - Sample.days 1.
Proof. vm_compute. reflexivity. Qed.

Example format_sample :
  @format_h_mm_a utc (Sample.day0 + Sample.hours 13 + 5 * 60000) = "1:05 PM".
Proof. vm_compute. reflexivity. Qed.

(** No key of [PROACTIVE_CALL_CONFIGS] is the lower-cased type name, so every
    call type gets the [midStay] configuration. *)
Example config_of_sample :
  Forall (λ t, config_of t = PROACTIVE_CALL_CONFIGS_midStay)
         [PRE_ARRIVAL; WAKE_UP; MID_STAY; PRE_CHECKOUT; POST_STAY].
Proof. repeat constructor. Qed.

Example normalize_status_sample :
  normalize_status "checked-in" = Some CHECKED_IN
  ∧ normalize_status "cancelled" = Some CANCELLED
  ∧ normalize_status "no-show" = None.
Proof. vm_compute. repeat split; reflexivity. Qed.

(** ** The monad, evaluated *)

Lemma bind_Ok {A B} (m : M A) (f : A → M B) w a w' :
  m w = (Ok a, w') → (m ≫= f) w = f a w'.
Proof. intros E. unfold mbind, M_bind. by rewrite E. Qed.

Lemma bind_Throw {A B} (m : M A) (f : A → M B) w e w' :
  m w = (Throw e, w') → (m ≫= f) w = (Throw e, w').
Proof. intros E. unfold mbind, M_bind. by rewrite E. Qed.

Lemma for_of_nil {A S} (body : S → A → M S) acc w :
  for_of [] body acc w = (Ok acc, w).
Proof. reflexivity. Qed.

Lemma for_of_cons {A S} (body : S → A → M S) x xs acc w :
  for_of (x :: xs) body acc w =
    match body acc x w with
    | (Ok acc', w') => for_of xs body acc' w'
    | (Throw e, w') => (Throw e, w')
    end.
Proof. reflexivity. Qed.

(** ** Counting scheduled calls *)

Lemma new_id_fresh {V} (m : gmap ID V) : m !! prisma.new_id m = None.
Proof. apply not_elem_of_dom, is_fresh. Qed.

Lemma length_filter_eq_NoDup (a : ID) (l : list ID) :
  NoDup l →
  length (filter (λ x, x = a) l) = if bool_decide (a ∈ l) then 1%nat else 0%nat.
Proof.
  induction 1 as [|x l Hx Hl IH]; [done|].
  rewrite filter_cons. destruct (decide (x = a)) as [->|Hne]; simpl.
  - rewrite IH. rewrite (bool_decide_eq_false_2 _ Hx).
    rewrite bool_decide_eq_true_2; [done | by left].
  - rewrite IH. destruct (decide (a ∈ l)) as [Hin|Hin].
    + rewrite !bool_decide_eq_true_2; [done | by right | done].
    + rewrite !bool_decide_eq_false_2; [done | | done].
      intros [->|?]%elem_of_cons; done.
Qed.

Section SchedulingFacts.
Context {cal : Calendar} {sch : Schema}.

Lemma callCount_add s rid ty t rid' ty' :
  callCount (add_call s rid ty t) rid' ty'
  = (callCount s rid' ty'
     + if bool_decide (rid = rid' ∧ ty = ty') then 1 else 0)%nat.
Proof.
  unfold callCount, add_call; simpl.
  rewrite map_to_list_insert by apply new_id_fresh.
  rewrite filter_cons; simpl.
  case_decide; case_bool_decide; simpl; try done; lia.
Qed.

Lemma none_callCount s rid ty :
  prisma.proactiveCall.none s rid ty = true ↔ callCount s rid ty = 0%nat.
Proof.
  unfold prisma.proactiveCall.none, callCount.
  induction (map_to_list (proactiveCalls s)) as [|kc l IH]; [done|].
  rewrite filter_cons; simpl.
  rewrite andb_true_iff, IH, negb_true_iff, andb_false_iff.
  rewrite !bool_decide_eq_false.
  destruct (decide _) as [Hd|Hd]; simpl.
  - split; [tauto | discriminate].
  - split; [tauto|]. intros E; split; [|done].
    destruct (decide (ProactiveCall.reservationId kc.2 = rid)); tauto.
Qed.

Lemma adds_tables ty ids s s' :
  adds ty ids s s' →
  guests s' = guests s ∧ reservations s' = reservations s
  ∧ wakeUpRequests s' = wakeUpRequests s.
Proof.
  revert s; induction ids as [|id ids IH]; intros s; simpl.
  - by intros ->.
  - intros [t Ht]. by apply IH in Ht.
Qed.

Lemma adds_callCount ty ids s s' rid ty' :
  adds ty ids s s' →
  callCount s' rid ty'
  = (callCount s rid ty'
     + if bool_decide (ty = ty') then length (filter (λ x, x = rid) ids) else 0)%nat.
Proof.
  revert s; induction ids as [|id ids IH]; intros s; simpl.
  - intros ->. case_bool_decide; lia.
  - intros [t Ht]. rewrite (IH _ Ht), callCount_add, filter_cons.
    destruct (decide (ty = ty')) as [Et|Et], (decide (id = rid)) as [Ei|Ei].
    + rewrite !bool_decide_eq_true_2 by done. simpl. lia.
    + rewrite bool_decide_eq_false_2 by tauto.
      rewrite bool_decide_eq_true_2 by done. lia.
    + rewrite !bool_decide_eq_false_2 by tauto. lia.
    + rewrite !bool_decide_eq_false_2 by tauto. lia.
Qed.

Lemma for_of_creates ty body :
  creates_one ty body →
  ∀ rs n w, ∃ w',
    for_of rs body n w = (Ok (n + length rs)%nat, w')
    ∧ adds ty rs.*1 (db w) (db w').
Proof.
  intros Hbody rs; induction rs as [|r rs IH]; intros n w.
  - exists w. rewrite for_of_nil, Nat.add_0_r. done.
  - destruct (Hbody n r w) as (t & rd & E).
    destruct (IH (S n) (mkWorld (add_call (db w) r.1 ty t) rd)) as (w' & E' & Ha).
    exists w'. rewrite for_of_cons, E, E'. split.
    + do 2 f_equal. simpl. lia.
    + simpl. by exists t.
Qed.

Lemma where_of_none op today s id r :
  where_of op today s id r = true →
  prisma.proactiveCall.none s id (callType_of op) = true.
Proof.
  destruct op; simpl;
    unfold where_preArrival, where_midStay, where_preCheckout, where_postStay;
    rewrite !andb_true_iff; tauto.
Qed.

Lemma create_eval rid ty t w :
  prisma.proactiveCall.create rid ty t SCHEDULED w
  = (Ok (prisma.new_id (proactiveCalls (db w))),
     mkWorld (add_call (db w) rid ty t) (reads w)).
Proof. reflexivity. Qed.

(** Every operation reads the clock, runs its query, and creates one call
    per selected reservation; it returns how many it created. *)
Lemma schedule_eval op h w :
  ∃ w', schedule op h w
        = (Ok (length (selected op (clk h (reads w)) (db w))), w')
        ∧ adds (callType_of op) (selected op (clk h (reads w)) (db w)).*1
               (db w) (db w').
Proof.
  assert (Hloop : ∀ body, creates_one (callType_of op) body →
    ∃ w', for_of (selected op (clk h (reads w)) (db w)) body 0%nat
                 (mkWorld (db w) (S (reads w)))
          = (Ok (length (selected op (clk h (reads w)) (db w))), w')
          ∧ adds (callType_of op) (selected op (clk h (reads w)) (db w)).*1
                 (db w) (db w')).
  { intros body Hb.
    destruct (for_of_creates _ body Hb (selected op (clk h (reads w)) (db w))
                0%nat (mkWorld (db w) (S (reads w)))) as (w' & E & Ha).
    by exists w'. }
  destruct op; simpl;
    unfold schedulePreArrivalCalls, scheduleMidStayCalls,
      schedulePreCheckoutCalls, schedulePostStayCalls;
    (erewrite bind_Ok by reflexivity); (erewrite bind_Ok by reflexivity);
    apply Hloop; intros n r w0; unfold creates_one;
    (erewrite bind_Ok by reflexivity).
  - erewrite bind_Ok by reflexivity.
    destruct (isAfter _ _); simpl; eauto.
  - erewrite bind_Ok by reflexivity.
    destruct (isAfter _ _); simpl; eauto.
  - erewrite bind_Ok by reflexivity.
    destruct (isAfter _ _); simpl; eauto.
  - simpl; eauto.
Qed.

End SchedulingFacts.

Lemma elem_of_fst_filter {A} (f : ID * A → bool) (l : list (ID * A)) k :
  k ∈ (List.filter f l).*1 → ∃ a, (k, a) ∈ l ∧ f (k, a) = true.
Proof.
  intros ([k' a] & -> & Hin)%list_elem_of_fmap.
  apply list_elem_of_In, filter_In in Hin as [Hin Hf].
  exists a. by rewrite list_elem_of_In.
Qed.

Lemma NoDup_fst_filter {A} (f : ID * A → bool) (l : list (ID * A)) :
  NoDup l.*1 → NoDup (List.filter f l).*1.
Proof.
  induction l as [|[k a] l IH]; simpl; [done|].
  intros [Hk Hl]%NoDup_cons. destruct (f (k, a)); simpl; [|by apply IH].
  apply NoDup_cons; split; [|by apply IH].
  intros (b & Hin & _)%elem_of_fst_filter.
  apply Hk, list_elem_of_fmap. by exists (k, b).
Qed.

Section AtMostOne.
Context {cal : Calendar} {sch : Schema}.

Lemma selected_NoDup op today s : NoDup (selected op today s).*1.
Proof. apply NoDup_fst_filter, NoDup_fst_map_to_list. Qed.

Lemma selected_none op today s rid :
  rid ∈ (selected op today s).*1 → callCount s rid (callType_of op) = 0%nat.
Proof.
  intros (r & _ & Hw)%elem_of_fst_filter. simpl in Hw.
  apply where_of_none in Hw. by apply none_callCount.
Qed.

(** One invocation: the count of a pair grows by one exactly when the
    operation is the pair's and its query selected the reservation. *)
Lemma schedule_callCount op h s rid ty :
  callCount (store_after (schedule op h) s) rid ty
  = (callCount s rid ty
     + if bool_decide (callType_of op = ty ∧ rid ∈ (selected op (clk h 0) s).*1)
       then 1 else 0)%nat.
Proof.
  unfold store_after, run.
  destruct (schedule_eval op h (mkWorld s 0)) as (w' & E & Ha). rewrite E.
  simpl in *. rewrite (adds_callCount _ _ _ _ rid ty Ha).
  rewrite length_filter_eq_NoDup by apply selected_NoDup.
  destruct (decide (callType_of op = ty)) as [Et|Et],
           (decide (rid ∈ (selected op (clk h 0) s).*1)) as [Ei|Ei].
  - by rewrite !bool_decide_eq_true_2.
  - rewrite bool_decide_eq_true_2 by done.
    by rewrite !bool_decide_eq_false_2 by tauto.
  - by rewrite !bool_decide_eq_false_2 by tauto.
  - by rewrite !bool_decide_eq_false_2 by tauto.
Qed.

Lemma schedule_preserves_at_most_one op h s rid ty :
  (callCount s rid ty ≤ 1)%nat →
  (callCount (store_after (schedule op h) s) rid ty ≤ 1)%nat.
Proof.
  intros Hle. rewrite schedule_callCount. case_bool_decide as Hd; [|lia].
  destruct Hd as [<- Hin]. rewrite (selected_none _ _ _ _ Hin). lia.
Qed.

(** C1.  For every reservation and call type, a store that holds at most
    one scheduled-call row for the pair still holds at most one after any
    finite sequence of invocations of the four scheduling operations run one
    after the other.  [create] checks nothing: what keeps the count is the
    non-existence filter of each query ([selected_none]). *)
Theorem at_most_one_call_per_reservation_and_type
    (invocations : list (SchedulingOp * Host)) (s : Store)
    (reservationId : ID) (callType : CallType) :
  (callCount s reservationId callType ≤ 1)%nat →
  (callCount (after_invocations invocations s) reservationId callType ≤ 1)%nat.
Proof.
  revert s. induction invocations as [|[op h] rest IH]; intros s Hs; [done|].
  apply IH. by apply schedule_preserves_at_most_one.
Qed.

(** [create] itself would insert a second row for the same pair. *)
Remark create_is_unconstrained s rid ty t t' :
  callCount (add_call (add_call s rid ty t) rid ty t') rid ty
  = (callCount s rid ty + 2)%nat.
Proof.
  rewrite !callCount_add, bool_decide_eq_true_2 by done. lia.
Qed.

End AtMostOne.

Lemma at_most_one_call_witness :
  (callCount
     (@after_invocations utc (schema3 true)
        [ (PreArrival, Sample.host (Sample.day0 + Sample.hours 10) Sample.busy);
          (MidStay, Sample.host (Sample.day0 + Sample.hours 11) Sample.busy);
          (PreArrival, Sample.host (Sample.day0 + Sample.hours 17) Sample.busy) ]
        (Sample.store CONFIRMED))
     0%nat PRE_ARRIVAL ≤ 1)%nat.
Proof.
  apply (@at_most_one_call_per_reservation_and_type utc (schema3 true)).
  vm_compute. lia.
Defined.

Example at_most_one_call_sample :
  callCount
    (@after_invocations utc (schema3 true)
       [ (PreArrival, Sample.host (Sample.day0 + Sample.hours 10) Sample.busy);
         (MidStay, Sample.host (Sample.day0 + Sample.hours 11) Sample.busy);
         (PreArrival, Sample.host (Sample.day0 + Sample.hours 17) Sample.busy) ]
       (Sample.store CONFIRMED))
    0%nat PRE_ARRIVAL = 1%nat.
Proof. vm_compute. reflexivity. Qed.

(** ** Idempotent scheduling *)

Lemma filter_none {A} (f : A → bool) (l : list A) :
  (∀ x, x ∈ l → f x = false) → List.filter f l = [].
Proof.
  induction l as [|x l IH]; intros Hf; simpl; [done|].
  rewrite (Hf x) by left. apply IH. intros y Hy. apply Hf. by right.
Qed.

Section Idempotence.
Context {cal : Calendar} {sch : Schema}.

Lemma store_after_schedule op h s :
  result_of (schedule op h) s = Ok (length (selected op (clk h 0) s))
  ∧ adds (callType_of op) (selected op (clk h 0) s).*1 s
         (store_after (schedule op h) s).
Proof.
  unfold result_of, store_after, run.
  destruct (schedule_eval op h (mkWorld s 0)) as (w' & E & Ha).
  by rewrite E.
Qed.

(** C3.  Two invocations of [schedulePreArrivalCalls] in succession, on the
    same local day and with nothing else touching the store in between: the
    first returns the number of eligible reservations and leaves exactly one
    PRE_ARRIVAL row for each of them; the second returns 0 and leaves the
    store as the first left it.  (The query selects the check-ins of the day
    after the invocation's own day, so the two invocations are taken on
    one day, as the specification has it.) *)
Theorem pre_arrival_scheduling_idempotent (h1 h2 : Host) (s : Store) :
  startOfDay (clk h1 0) = startOfDay (clk h2 0) →
  let eligible := selected PreArrival (clk h1 0) s in
  let s1 := store_after (schedulePreArrivalCalls h1) s in
  result_of (schedulePreArrivalCalls h1) s = Ok (length eligible)
  ∧ (∀ rid, rid ∈ eligible.*1 → callCount s rid PRE_ARRIVAL = 0%nat
                                ∧ callCount s1 rid PRE_ARRIVAL = 1%nat)
  ∧ result_of (schedulePreArrivalCalls h2) s1 = Ok 0%nat
  ∧ store_after (schedulePreArrivalCalls h2) s1 = s1.
Proof.
  intros Hday eligible s1.
  destruct (store_after_schedule PreArrival h1 s) as [R1 A1].
  change (schedule PreArrival h1) with (schedulePreArrivalCalls h1) in R1, A1.
  change (callType_of PreArrival) with PRE_ARRIVAL in A1.
  fold eligible in R1, A1. fold s1 in A1.
  assert (Hcount : ∀ rid, callCount s1 rid PRE_ARRIVAL
            = (callCount s rid PRE_ARRIVAL
               + if bool_decide (rid ∈ eligible.*1) then 1 else 0)%nat).
  { intros rid. rewrite (adds_callCount _ _ _ _ rid PRE_ARRIVAL A1).
    rewrite bool_decide_eq_true_2 by done.
    by rewrite length_filter_eq_NoDup by apply selected_NoDup. }
  assert (Hnone : selected PreArrival (clk h2 0) s1 = []).
  { apply filter_none. intros [k r] Hin. simpl.
    destruct (adds_tables _ _ _ _ A1) as (_ & Er & _). rewrite Er in Hin.
    destruct (where_preArrival (clk h2 0) s1 k r) eqn:Ew; [|done]. exfalso.
    pose proof Ew as Hn. apply (where_of_none PreArrival) in Hn.
    apply none_callCount in Hn. simpl in Hn.
    specialize (Hcount k). rewrite Hn in Hcount.
    assert (Hk : k ∈ eligible.*1).
    { apply list_elem_of_fmap. exists (k, r). split; [done|].
      apply list_elem_of_In, filter_In. split; [by apply list_elem_of_In|].
      simpl. unfold where_preArrival in *. rewrite Hday.
      rewrite !andb_true_iff in Ew. destruct Ew as [Ew _].
      rewrite !andb_true_iff. split; [exact Ew|].
      apply none_callCount. lia. }
    rewrite bool_decide_eq_true_2 in Hcount by done. lia. }
  split; [exact R1|]. split.
  - intros rid Hin. pose proof (selected_none PreArrival _ _ _ Hin) as H0.
    simpl in H0. split; [done|].
    rewrite Hcount, H0, bool_decide_eq_true_2 by done. done.
  - destruct (store_after_schedule PreArrival h2 s1) as [R2 A2].
    simpl in R2, A2. rewrite Hnone in R2, A2. simpl in R2, A2. done.
Qed.

End Idempotence.

Lemma pre_arrival_scheduling_idempotent_witness :
  let h1 := Sample.host (Sample.day0 + Sample.hours 10) Sample.busy in
  let h2 := Sample.host (Sample.day0 + Sample.hours 17) Sample.busy in
  let s1 := store_after (@schedulePreArrivalCalls utc (schema3 true) h1)
              (Sample.store CONFIRMED) in
  result_of (@schedulePreArrivalCalls utc (schema3 true) h1) (Sample.store CONFIRMED)
  = Ok 1%nat
  ∧ result_of (@schedulePreArrivalCalls utc (schema3 true) h2) s1 = Ok 0%nat
  ∧ store_after (@schedulePreArrivalCalls utc (schema3 true) h2) s1 = s1.
Proof.
  intros h1 h2 s1.
  destruct (@pre_arrival_scheduling_idempotent utc (schema3 true) h1 h2
              (Sample.store CONFIRMED)) as (R1 & _ & R2 & S2).
  - vm_compute. reflexivity.
  - split; [exact R1|]. split; [exact R2 | exact S2].
Defined.

(** The job of the scenario: scheduled for 16:00 of the day before check-in. *)
Example pre_arrival_sample :
  proactiveCalls
    (store_after (@schedulePreArrivalCalls utc (schema3 true)
                    (Sample.host (Sample.day0 + Sample.hours 10) Sample.busy))
       (Sample.store CONFIRMED)) !! 0%nat
  = Some (ProactiveCall.mk 0%nat PRE_ARRIVAL (Sample.day0 + Sample.hours 16) None
            SCHEDULED 0 3 None None).
Proof. vm_compute. reflexivity. Qed.

(** ** The dispatch loop *)

Lemma all_ok_Forall2 {A B} (f : A → Res B) l ys :
  all_ok f l = Ok ys → Forall2 (λ x y, f x = Ok y) l ys.
Proof.
  revert ys; induction l as [|x l IH]; intros ys; simpl.
  - intros [= <-]. constructor.
  - destruct (f x) as [y|] eqn:E; [|done].
    destruct (all_ok f l) as [ys'|]; [|done].
    intros [= <-]. constructor; [done | by apply IH].
Qed.

Lemma include_Ok s kc d :
  include_reservation_guest s kc = Ok d → due_id d = kc.1 ∧ due_call d = kc.2.
Proof.
  unfold include_reservation_guest.
  destruct (reservations s !! _); [|done]. destruct (guests s !! _); [|done].
  by intros [= <-].
Qed.

Lemma insert_by_time_Permutation x l : insert_by_time x l ≡ₚ x :: l.
Proof.
  induction l as [|y l IH]; simpl; [done|].
  destruct (_ <=? _); [done|]. rewrite IH. apply Permutation_swap.
Qed.

Lemma orderBy_Permutation l : orderBy_scheduledTime l ≡ₚ l.
Proof.
  induction l as [|x l IH]; simpl; [done|].
  rewrite insert_by_time_Permutation. by rewrite IH.
Qed.

Lemma dueRows_elem now ty s kc :
  kc ∈ dueRows now ty s →
  proactiveCalls s !! kc.1 = Some kc.2 ∧ isDue now ty kc.2 = true.
Proof.
  unfold dueRows. intros Hin.
  apply (subseteq_take 10) in Hin. rewrite orderBy_Permutation in Hin.
  apply list_elem_of_In, filter_In in Hin as [Hin Hd]. split; [|done].
  apply elem_of_map_to_list. destruct kc. by apply list_elem_of_In.
Qed.

Lemma dueRows_NoDup now ty s : NoDup (dueRows now ty s).*1.
Proof.
  unfold dueRows. rewrite fmap_take.
  eapply sublist_NoDup; [|apply sublist_take].
  rewrite orderBy_Permutation. apply NoDup_fst_filter, NoDup_fst_map_to_list.
Qed.

Lemma dueBatch_ids now ty s batch :
  dueBatch now ty s = Ok batch →
  due_id <$> batch = (dueRows now ty s).*1
  ∧ NoDup (due_id <$> batch)
  ∧ ∀ d, d ∈ batch →
      proactiveCalls s !! due_id d = Some (due_call d)
      ∧ isDue now ty (due_call d) = true.
Proof.
  intros Hb%all_ok_Forall2.
  assert (E : due_id <$> batch = (dueRows now ty s).*1).
  { induction Hb as [|kc d l ys Hd _ IH]; [done|].
    rewrite !fmap_cons. apply include_Ok in Hd as [-> _]. by f_equal. }
  split; [done|]. split; [rewrite E; apply dueRows_NoDup|].
  intros d Hd.
  assert (∃ kc, kc ∈ dueRows now ty s ∧ include_reservation_guest s kc = Ok d)
    as (kc & Hkc & Hi).
  { clear E. induction Hb as [|kc d' l ys Hd' _ IH]; [by apply elem_of_nil in Hd|].
    apply elem_of_cons in Hd as [->|Hd].
    - exists kc. split; [by left | done].
    - destruct (IH Hd) as (kc' & ? & ?). exists kc'. split; [by right | done]. }
  apply include_Ok in Hi as [-> ->]. by apply dueRows_elem.
Qed.

Lemma with_calls_id s : with_calls s (proactiveCalls s) = s.
Proof. by destruct s. Qed.

Lemma update_eval id data w row :
  proactiveCalls (db w) !! id = Some row →
  prisma.proactiveCall.update id data w
  = (Ok tt, mkWorld (with_calls (db w) (<[id := data row]> (proactiveCalls (db w))))
              (reads w)).
Proof.
  intros E. unfold prisma.proactiveCall.update.
  erewrite bind_Ok by reflexivity. by rewrite E.
Qed.

Lemma processOne_eval h now n d w :
  proactiveCalls (db w) !! due_id d = Some (due_call d) →
  processOne h now n d w
  = (Ok (n + if success (placeCall h d) then 1 else 0)%nat,
     mkWorld (with_calls (db w) (<[due_id d := settle h now d]> (proactiveCalls (db w))))
       (reads w)).
Proof.
  intros E. unfold processOne, settle.
  erewrite bind_Ok by (by apply update_eval).
  destruct (success (placeCall h d));
    (erewrite bind_Ok by (apply update_eval; simpl; apply lookup_insert_eq));
    simpl; unfold with_calls; simpl; rewrite insert_insert_eq;
    unfold mret, M_ret; do 2 f_equal; lia.
Qed.

Lemma dispatch_loop h now batch :
  NoDup (due_id <$> batch) →
  ∀ n w,
    (∀ d, d ∈ batch → proactiveCalls (db w) !! due_id d = Some (due_call d)) →
    ∃ calls',
      for_of batch (processOne h now) n w
      = (Ok (n + length (acceptedCalls h batch))%nat,
         mkWorld (with_calls (db w) calls') (reads w))
      ∧ (∀ d, d ∈ batch → calls' !! due_id d = Some (settle h now d))
      ∧ (∀ k, k ∉ due_id <$> batch → calls' !! k = proactiveCalls (db w) !! k).
Proof.
  induction batch as [|d batch IH]; intros Hnd n w Hrows.
  - exists (proactiveCalls (db w)). rewrite for_of_nil, with_calls_id.
    simpl. rewrite Nat.add_0_r. destruct w. split; [done|]. split; [|done].
    intros d Hd. by apply elem_of_nil in Hd.
  - rewrite fmap_cons in Hnd. apply NoDup_cons in Hnd as [Hd Hnd].
    rewrite for_of_cons, processOne_eval by (apply Hrows; left).
    destruct (IH Hnd (n + if success (placeCall h d) then 1 else 0)%nat
                (mkWorld (with_calls (db w)
                            (<[due_id d := settle h now d]> (proactiveCalls (db w))))
                   (reads w))) as (calls' & E & Hin & Hout).
    { intros d' Hd'. simpl. rewrite lookup_insert_ne.
      - apply Hrows. by right.
      - intros Eid. apply Hd. rewrite Eid. by apply list_elem_of_fmap_2. }
    exists calls'. rewrite E. simpl. split; [|split].
    + f_equal. f_equal. unfold acceptedCalls. simpl.
      destruct (success (placeCall h d)); simpl; lia.
    + intros d' [->|Hd']%elem_of_cons; [|by apply Hin].
      rewrite Hout by done. simpl. apply lookup_insert_eq.
    + intros k Hk. apply not_elem_of_cons in Hk as [Hk1 Hk2].
      rewrite Hout by done. simpl. by apply lookup_insert_ne.
Qed.

(** One dispatch pass, evaluated. *)
Lemma pass_eval h ty s :
  match dueBatch (clk h 0) ty s with
  | Throw e => run (processScheduledCalls h ty) s = (Throw e, s)
  | Ok batch =>
      ∃ calls',
        run (processScheduledCalls h ty) s
        = (Ok (length (acceptedCalls h batch)), with_calls s calls')
        ∧ (∀ d, d ∈ batch → calls' !! due_id d = Some (settle h (clk h 0) d))
        ∧ (∀ k, k ∉ due_id <$> batch → calls' !! k = proactiveCalls s !! k)
  end.
Proof.
  unfold run, processScheduledCalls.
  erewrite bind_Ok by reflexivity. erewrite bind_Ok by reflexivity. simpl.
  destruct (dueBatch (clk h 0) ty s) as [batch|e] eqn:Eb.
  - erewrite bind_Ok by reflexivity.
    destruct (dueBatch_ids _ _ _ _ Eb) as (_ & Hnd & Hrows).
    destruct (dispatch_loop h (clk h 0) batch Hnd 0%nat (mkWorld s 1))
      as (calls' & E & Hin & Hout).
    { intros d Hd. by apply Hrows. }
    exists calls'. by rewrite E.
  - by erewrite bind_Throw by reflexivity.
Qed.

(** ** What a dispatch pass returns and leaves behind *)

(** C5.  The number [processScheduledCalls] returns is the number of jobs of
    its batch the gateway accepted: jobs whose gateway invocation failed add
    nothing to it, however many were examined.  (When the due-job query itself
    is rejected, the rejection is what the caller gets.) *)
Theorem processed_count_is_accepted_count
    (h : Host) (callType : option CallType) (s : Store) :
  match dueBatch (clk h 0) callType s with
  | Ok batch =>
      result_of (processScheduledCalls h callType) s
      = Ok (length (acceptedCalls h batch))
      ∧ (length (acceptedCalls h batch)
         + length (List.filter (λ d, negb (success (placeCall h d))) batch)
         = length batch)%nat
  | Throw e => result_of (processScheduledCalls h callType) s = Throw e
  end.
Proof.
  unfold result_of. pose proof (pass_eval h callType s) as P.
  destruct (dueBatch (clk h 0) callType s) as [batch|e].
  - destruct P as (calls' & -> & _). split; [done|].
    unfold acceptedCalls. clear. induction batch as [|d batch IH]; simpl; [done|].
    destruct (success (placeCall h d)); simpl; lia.
  - by rewrite P.
Qed.

Lemma makeOutboundCall_failure h phone cfg meta :
  success (makeOutboundCall h phone cfg meta) = false →
  ∃ message, error (makeOutboundCall h phone cfg meta) = Some message.
Proof.
  unfold makeOutboundCall. destruct (_ || _); [by eexists|].
  destruct (vapi_post _ _ _) as [id|[message|]]; simpl; [done | by eexists..].
Qed.

Lemma pass_row h ty s batch d :
  dueBatch (clk h 0) ty s = Ok batch → d ∈ batch →
  proactiveCalls (store_after (processScheduledCalls h ty) s) !! due_id d
  = Some (settle h (clk h 0) d).
Proof.
  intros Eb Hd. unfold store_after. pose proof (pass_eval h ty s) as P.
  rewrite Eb in P. destruct P as (calls' & -> & Hin & _). simpl. by apply Hin.
Qed.

(** C4.  A due job of the batch whose gateway invocation fails, and whose
    attempt count after this attempt is below its [maxAttempts], is left with
    status SCHEDULED, scheduled time [now] plus exactly one hour, and the
    gateway's error message as its notes; the attempt has been counted. *)
Theorem gateway_failure_reschedules
    (h : Host) (callType : option CallType) (s : Store)
    (batch : list DueCall) (d : DueCall) :
  dueBatch (clk h 0) callType s = Ok batch →
  d ∈ batch →
  success (placeCall h d) = false →
  ProactiveCall.attempts (due_call d) + 1 < ProactiveCall.maxAttempts (due_call d) →
  ∃ row message,
    proactiveCalls (store_after (processScheduledCalls h callType) s) !! due_id d
    = Some row
    ∧ error (placeCall h d) = Some message
    ∧ ProactiveCall.status row = SCHEDULED
    ∧ ProactiveCall.scheduledTime row = clk h 0 + 3600000
    ∧ ProactiveCall.notes row = Some message
    ∧ ProactiveCall.attempts row = ProactiveCall.attempts (due_call d) + 1.
Proof.
  intros Eb Hd Hfail Hlt.
  destruct (makeOutboundCall_failure _ _ _ _ Hfail) as [message Em].
  exists (settle h (clk h 0) d), message.
  split; [by apply (pass_row h callType s batch)|]. split; [done|].
  unfold settle. rewrite Hfail. fold (placeCall h d) in Em. rewrite Em. simpl.
  rewrite (proj2 (Z.leb_gt _ _)) by lia.
  unfold addHours, millisecondsInHour. repeat split; lia.
Qed.

Lemma gateway_failure_reschedules_witness :
  let h := Sample.host (Sample.day0 + Sample.hours 16 + 300000) Sample.busy in
  ∃ row message,
    proactiveCalls (store_after (processScheduledCalls h None) Sample.store_with_job)
      !! 0%nat = Some row
    ∧ error (placeCall h (mkDue 0%nat Sample.job 0%nat (Sample.stay CONFIRMED) Sample.john))
      = Some message
    ∧ ProactiveCall.status row = SCHEDULED
    ∧ ProactiveCall.scheduledTime row = clk h 0 + 3600000
    ∧ ProactiveCall.notes row = Some message
    ∧ ProactiveCall.attempts row = 0 + 1.
Proof.
  intros h.
  apply (gateway_failure_reschedules h None Sample.store_with_job
           [mkDue 0%nat Sample.job 0%nat (Sample.stay CONFIRMED) Sample.john]
           (mkDue 0%nat Sample.job 0%nat (Sample.stay CONFIRMED) Sample.john)).
  - vm_compute. reflexivity.
  - left.
  - vm_compute. reflexivity.
  - simpl. lia.
Defined.

(** The scenario of the specification: "line busy" at the first attempt. *)
Example line_busy_sample :
  let h := Sample.host (Sample.day0 + Sample.hours 16 + 300000) Sample.busy in
  run (processScheduledCalls h None) Sample.store_with_job
  = (Ok 0%nat,
     with_calls Sample.store_with_job
       {[ 0%nat := ProactiveCall.mk 0%nat PRE_ARRIVAL
                     (Sample.day0 + Sample.hours 17 + 300000)
                     (Some (Sample.day0 + Sample.hours 16 + 300000))
                     SCHEDULED 1 3 None (Some "line busy") ]}).
Proof. vm_compute. reflexivity. Qed.

(** The scenario of the specification: the gateway accepts the call. *)
Example accepted_sample :
  let h := Sample.host (Sample.day0 + Sample.hours 16 + 300000) Sample.accepted in
  run (processScheduledCalls h None) Sample.store_with_job
  = (Ok 1%nat,
     with_calls Sample.store_with_job
       {[ 0%nat := ProactiveCall.mk 0%nat PRE_ARRIVAL
                     (Sample.day0 + Sample.hours 16)
                     (Some (Sample.day0 + Sample.hours 16 + 300000))
                     IN_PROGRESS 1 3 (Some "call-1") None ]}).
Proof. vm_compute. reflexivity. Qed.

(** ** The retry ceiling *)

Lemma dispatched_Some h ty s id result :
  dispatched h ty s id = Some result →
  ∃ batch d, dueBatch (clk h 0) ty s = Ok batch ∧ d ∈ batch ∧ due_id d = id
             ∧ result = placeCall h d.
Proof.
  unfold dispatched. destruct (dueBatch _ _ _) as [batch|] eqn:Eb; [|done].
  destruct (List.find _ batch) as [d|] eqn:Ef; [|done].
  intros [= <-]. apply find_some in Ef as [Hin Hid].
  apply bool_decide_eq_true_1 in Hid.
  exists batch, d. by rewrite list_elem_of_In.
Qed.

(** A pass in which the gateway fails for a job it selected. *)
Lemma failed_pass h ty s id job :
  proactiveCalls s !! id = Some job →
  gateway_failed (dispatched h ty s id) = true →
  ∃ notes,
    proactiveCalls (store_after (processScheduledCalls h ty) s) !! id
    = Some (data_retry
              (if ProactiveCall.maxAttempts job <=? ProactiveCall.attempts job + 1
               then FAILED else SCHEDULED)
              notes (addHours (clk h 0) 1) (data_in_progress (clk h 0) job)).
Proof.
  intros Hjob Hf.
  destruct (dispatched h ty s id) as [result|] eqn:Ed; [|done].
  apply dispatched_Some in Ed as (batch & d & Eb & Hd & <- & ->).
  simpl in Hf. apply negb_true_iff in Hf.
  destruct (dueBatch_ids _ _ _ _ Eb) as (_ & _ & Hrows).
  destruct (Hrows d Hd) as [Hrow _]. rewrite Hjob in Hrow. injection Hrow as ->.
  exists (error (placeCall h d)).
  rewrite (pass_row h ty s batch d Eb Hd). unfold settle. by rewrite Hf.
Qed.

(** A job the due-job predicate rejects is neither selected nor touched. *)
Lemma not_due_pass h ty s id job :
  proactiveCalls s !! id = Some job →
  isDue (clk h 0) ty job = false →
  dispatched h ty s id = None
  ∧ proactiveCalls (store_after (processScheduledCalls h ty) s) !! id = Some job.
Proof.
  intros Hjob Hnd.
  assert (Hout : ∀ batch, dueBatch (clk h 0) ty s = Ok batch →
                          ∀ d, d ∈ batch → due_id d ≠ id).
  { intros batch Eb d Hd <-.
    destruct (dueBatch_ids _ _ _ _ Eb) as (_ & _ & Hrows).
    destruct (Hrows d Hd) as [Hrow Hdue]. rewrite Hjob in Hrow.
    injection Hrow as ->. congruence. }
  split.
  - destruct (dispatched h ty s id) as [result|] eqn:Ed; [|done].
    apply dispatched_Some in Ed as (batch & d & Eb & Hd & Hid & _).
    by destruct (Hout batch Eb d Hd).
  - unfold store_after. pose proof (pass_eval h ty s) as P.
    destruct (dueBatch (clk h 0) ty s) as [batch|e] eqn:Eb.
    + destruct P as (calls' & -> & _ & Hsame). simpl. rewrite Hsame; [done|].
      intros (d & Hid & Hd)%list_elem_of_fmap. by destruct (Hout batch eq_refl d Hd).
    + by rewrite P.
Qed.

(** C2.  A job with [maxAttempts] 3 and no attempt yet, selected by three
    dispatch passes in each of which the gateway fails for it, ends with
    status FAILED and 3 attempts.  From then on the due-job predicate rejects
    it at every time and under every filter, and no later sequence of passes
    selects it or changes it. *)
Theorem retry_ceiling_respected
    (h1 h2 h3 : Host) (t1 t2 t3 : option CallType)
    (s0 : Store) (id : ID) (job : ProactiveCall.t) :
  proactiveCalls s0 !! id = Some job →
  ProactiveCall.attempts job = 0 →
  ProactiveCall.maxAttempts job = 3 →
  let s1 := store_after (processScheduledCalls h1 t1) s0 in
  let s2 := store_after (processScheduledCalls h2 t2) s1 in
  let s3 := store_after (processScheduledCalls h3 t3) s2 in
  gateway_failed (dispatched h1 t1 s0 id) = true →
  gateway_failed (dispatched h2 t2 s1 id) = true →
  gateway_failed (dispatched h3 t3 s2 id) = true →
  ∃ job3,
    proactiveCalls s3 !! id = Some job3
    ∧ ProactiveCall.status job3 = FAILED
    ∧ ProactiveCall.attempts job3 = 3
    ∧ (∀ now callType, isDue now callType job3 = false)
    ∧ ∀ passes,
        proactiveCalls (after_passes passes s3) !! id = Some job3
        ∧ ∀ h callType, dispatched h callType (after_passes passes s3) id = None.
Proof.
  intros Hjob Ha Hm s1 s2 s3 F1 F2 F3.
  destruct (failed_pass h1 t1 s0 id job Hjob F1) as [n1 E1]. fold s1 in E1.
  destruct (failed_pass h2 t2 s1 id _ E1 F2) as [n2 E2]. fold s2 in E2.
  destruct (failed_pass h3 t3 s2 id _ E2 F3) as [n3 E3]. fold s3 in E3.
  simpl in E3. rewrite Ha, Hm in E3. simpl in E3.
  eexists. split; [exact E3|]. split; [done|]. split; [simpl; lia|].
  assert (Hnever : ∀ now callType, isDue now callType
    (data_retry FAILED n3 (addHours (clk h3 0) 1)
       (data_in_progress (clk h3 0)
          (data_retry SCHEDULED n2 (addHours (clk h2 0) 1)
             (data_in_progress (clk h2 0)
                (data_retry SCHEDULED n1 (addHours (clk h1 0) 1)
                   (data_in_progress (clk h1 0) job)))))) = false) by done.
  split; [exact Hnever|].
  intros passes. revert E3. generalize s3.
  induction passes as [|[h ty] passes IH]; intros s E.
  - split; [done|]. intros h ty.
    by apply (not_due_pass h ty s id _ E).
  - simpl. apply IH. by apply (not_due_pass h ty s id _ E).
Qed.

Lemma retry_ceiling_respected_witness :
  let t := Sample.day0 + Sample.hours 16 + 300000 in
  let h1 := Sample.host t Sample.busy in
  let h2 := Sample.host (t + Sample.hours 1) Sample.busy in
  let h3 := Sample.host (t + Sample.hours 2) Sample.busy in
  let s1 := store_after (processScheduledCalls h1 None) Sample.store_with_job in
  let s2 := store_after (processScheduledCalls h2 (Some PRE_ARRIVAL)) s1 in
  let s3 := store_after (processScheduledCalls h3 None) s2 in
  ∃ job3,
    proactiveCalls s3 !! 0%nat = Some job3
    ∧ ProactiveCall.status job3 = FAILED
    ∧ ProactiveCall.attempts job3 = 3
    ∧ (∀ now callType, isDue now callType job3 = false)
    ∧ ∀ passes,
        proactiveCalls (after_passes passes s3) !! 0%nat = Some job3
        ∧ ∀ h callType, dispatched h callType (after_passes passes s3) 0%nat = None.
Proof.
  intros t h1 h2 h3.
  apply (retry_ceiling_respected h1 h2 h3 None (Some PRE_ARRIVAL) None
           Sample.store_with_job 0%nat Sample.job);
    vm_compute; reflexivity.
Defined.

(** ** Wake-up dispatch *)

Section WakeUpFacts.
Context {cal : Calendar}.

Lemma wu_update_other id data w k :
  k ≠ id →
  wakeUpRequests (db (prisma.wakeUpRequest.update id data w).2) !! k
  = wakeUpRequests (db w) !! k.
Proof.
  intros Hk. unfold prisma.wakeUpRequest.update, mbind, M_bind, get_db, set_db, throw.
  simpl. destruct (wakeUpRequests (db w) !! id); simpl; [|done].
  by rewrite lookup_insert_ne.
Qed.

(** A turn of the wake-up loop writes to the row of its request only. *)
Lemma wakeUpOne_other h now n request w k :
  k ≠ request.1 →
  wakeUpRequests (db (wakeUpOne h now n request w).2) !! k
  = wakeUpRequests (db w) !! k.
Proof.
  intros Hk.
  unfold wakeUpOne, prisma.reservation.findFirst_with_guest,
    prisma.wakeUpRequest.update, mbind, M_bind, mret, M_ret, get_db, set_db, throw.
  simpl.
  repeat (case_match; simpl in *; simplify_eq; try done);
    cbn [snd db wakeUpRequests]; rewrite ?lookup_insert_ne by done; done.
Qed.

(** The failure branch: the count compared with 2 is the one the query
    read, before the increment this turn has written. *)
Lemma wakeUpOne_gateway_failure h now n request w k r g row :
  List.find (λ kr : ID * Reservation.t,
      bool_decide (Reservation.roomNumber kr.2
                   = Some (WakeUpRequest.roomNumber request.2))
      && bool_decide (Reservation.status kr.2 = CHECKED_IN))
    (map_to_list (reservations (db w))) = Some (k, r) →
  guests (db w) !! Reservation.guestId r = Some g →
  wakeUpRequests (db w) !! request.1 = Some row →
  success (placeWakeUp h now request g) = false →
  wakeUpOne h now n request w
  = (Ok n,
     mkWorld
       (mkStore (guests (db w)) (reservations (db w)) (proactiveCalls (db w))
          (<[request.1 :=
               if 2 <=? WakeUpRequest.attempts request.2
               then data_wu_status WU_FAILED (data_wu_attempt row)
               else data_wu_attempt row]> (wakeUpRequests (db w))))
       (reads w)).
Proof.
  intros Ef Eg Er Es.
  unfold wakeUpOne, prisma.reservation.findFirst_with_guest,
    prisma.wakeUpRequest.update, mbind, M_bind, mret, M_ret, get_db, set_db, throw.
  simpl. rewrite Ef. simpl. rewrite Eg. simpl. rewrite Er. simpl. rewrite Es.
  destruct (2 <=? WakeUpRequest.attempts request.2); simpl; [|done].
  rewrite lookup_insert_eq. simpl. by rewrite insert_insert_eq.
Qed.

Lemma wakeUp_loop_other h now batch n w k :
  k ∉ batch.*1 →
  wakeUpRequests (db (for_of batch (wakeUpOne h now) n w).2) !! k
  = wakeUpRequests (db w) !! k.
Proof.
  revert n w; induction batch as [|request batch IH]; intros n w Hk; [done|].
  rewrite fmap_cons in Hk. apply not_elem_of_cons in Hk as [Hk1 Hk2].
  rewrite for_of_cons.
  pose proof (wakeUpOne_other h now n request w k Hk1) as E1.
  destruct (wakeUpOne h now n request w) as [[n'|e] w1]; simpl in *.
  - by rewrite IH.
  - done.
Qed.

Lemma wakeUpBatch_elem now s kr :
  kr ∈ wakeUpBatch now s →
  wakeUpRequests s !! kr.1 = Some kr.2 ∧ isDueWakeUp now kr.2 = true.
Proof.
  unfold wakeUpBatch. intros Hin. apply (subseteq_take 10) in Hin.
  apply list_elem_of_In, filter_In in Hin as [Hin Hd]. split; [|done].
  apply elem_of_map_to_list. destruct kr. by apply list_elem_of_In.
Qed.

(** C8, as the code has it.  The selection window has a lower bound: every
    request a sweep selects is pending and was requested between
    [fiveMinutesAgo] and now; a request whose requested time lies before
    that bound is not selected, and the sweep leaves it as it was. *)
Theorem wake_up_window_has_lower_bound
    (h : Host) (s : Store) (id : ID) (request : WakeUpRequest.t) :
  wakeUpRequests s !! id = Some request →
  WakeUpRequest.requestedTime request < fiveMinutesAgo (clk h 0) →
  (∀ kr, kr ∈ wakeUpBatch (clk h 0) s →
     WakeUpRequest.status kr.2 = PENDING
     ∧ (fiveMinutesAgo (clk h 0) ≤ WakeUpRequest.requestedTime kr.2 ≤ clk h 0))
  ∧ (id ∉ (wakeUpBatch (clk h 0) s).*1)
  ∧ wakeUpRequests (store_after (processWakeUpCalls h) s) !! id = Some request.
Proof.
  intros Hreq Hold.
  assert (Hwin : ∀ kr, kr ∈ wakeUpBatch (clk h 0) s →
     WakeUpRequest.status kr.2 = PENDING
     ∧ (fiveMinutesAgo (clk h 0) ≤ WakeUpRequest.requestedTime kr.2 ≤ clk h 0)).
  { intros kr [_ Hd]%wakeUpBatch_elem. unfold isDueWakeUp in Hd.
    rewrite !andb_true_iff, bool_decide_eq_true, !Z.leb_le in Hd. tauto. }
  assert (Hout : id ∉ (wakeUpBatch (clk h 0) s).*1).
  { intros ([k r] & -> & Hin)%list_elem_of_fmap.
    destruct (Hwin _ Hin) as [_ Hb]. apply wakeUpBatch_elem in Hin as [Hrow _].
    simpl in *. rewrite Hreq in Hrow. injection Hrow as <-. lia. }
  split; [exact Hwin|]. split; [exact Hout|].
  unfold store_after, run, processWakeUpCalls.
  erewrite bind_Ok by reflexivity. erewrite bind_Ok by reflexivity. simpl.
  pose proof (wakeUp_loop_other h (clk h 0) _ 0%nat (mkWorld s 1) id Hout) as E.
  destruct (for_of _ _ _ _) as [r w']. simpl in *. by rewrite E.
Qed.

End WakeUpFacts.

Lemma wake_up_window_has_lower_bound_witness :
  let now := Sample.day0 + Sample.days 3 + Sample.hours 7 in
  let requested := Sample.day0 + Sample.days 1 + Sample.hours 7 in
  let h := Sample.host now Sample.accepted in
  let s := Sample.store_with_wake requested in
  (∀ kr, kr ∈ @wakeUpBatch utc (clk h 0) s →
     WakeUpRequest.status kr.2 = PENDING
     ∧ (@fiveMinutesAgo utc (clk h 0) ≤ WakeUpRequest.requestedTime kr.2 ≤ clk h 0))
  ∧ (0%nat ∉ (@wakeUpBatch utc (clk h 0) s).*1)
  ∧ wakeUpRequests (store_after (@processWakeUpCalls utc h) s) !! 0%nat
    = Some (Sample.wake requested PENDING 0 None).
Proof.
  intros now requested h s.
  apply (@wake_up_window_has_lower_bound utc h s 0%nat
           (Sample.wake requested PENDING 0 None)).
  - vm_compute. reflexivity.
  - vm_compute. reflexivity.
Defined.

(** C8, as stated, fails: a pending request two days past its time, for a
    room whose guest has checked in and with a gateway that would accept the
    call, is not selected; the sweep returns 0 and changes nothing. *)
Lemma stale_wake_up_request_is_not_eligible :
  let now := Sample.day0 + Sample.days 3 + Sample.hours 7 in
  let requested := Sample.day0 + Sample.days 1 + Sample.hours 7 in
  let s := Sample.store_with_wake requested in
  @wakeUpBatch utc now s = []
  ∧ run (@processWakeUpCalls utc (Sample.host now Sample.accepted)) s = (Ok 0%nat, s).
Proof. vm_compute. split; reflexivity. Qed.

(** A request inside the window is selected and served. *)
Example wake_up_sample :
  let now := Sample.day0 + Sample.hours 7 in
  run (@processWakeUpCalls utc (Sample.host now Sample.accepted))
      (Sample.store_with_wake now)
  = (Ok 1%nat,
     Sample.with_wake (Sample.store_with_wake now)
       (Sample.wake now COMPLETED 1 (Some now))).
Proof. vm_compute. reflexivity. Qed.

(** C7 on the code.  With a gateway that fails, a request is still pending
    after two failed attempts; the third sweep selects it and calls the
    gateway again (an accepting gateway completes it there), and only a third
    failure marks it failed, with three attempts counted. *)
Theorem wake_up_attempted_a_third_time :
  let t := Sample.day0 + Sample.hours 7 in
  let s0 := Sample.store_with_wake t in
  let sweep now reply s :=
    store_after (@processWakeUpCalls utc (Sample.host now reply)) s in
  let s1 := sweep t Sample.busy s0 in
  let s2 := sweep (t + 60000) Sample.busy s1 in
  s1 = Sample.with_wake s0 (Sample.wake t PENDING 1 None)
  ∧ s2 = Sample.with_wake s0 (Sample.wake t PENDING 2 None)
  ∧ @wakeUpBatch utc (t + 120000) s2 = [(0%nat, Sample.wake t PENDING 2 None)]
  ∧ run (@processWakeUpCalls utc (Sample.host (t + 120000) Sample.accepted)) s2
    = (Ok 1%nat,
       Sample.with_wake s0 (Sample.wake t COMPLETED 3 (Some (t + 120000))))
  ∧ sweep (t + 120000) Sample.busy s2
    = Sample.with_wake s0 (Sample.wake t WU_FAILED 3 None).
Proof. vm_compute. repeat split; reflexivity. Qed.

(** ** PMS reconciliation *)

Section SyncFacts.
Context {cal : Calendar} {sch : Schema}.

(** A turn of the loop never throws: it counts a success or an error. *)
Lemma syncOne_cases h url key counts pmsRes w :
  ∃ w', syncOne h url key counts pmsRes w = (Ok (S counts.1, counts.2), w')
        ∨ syncOne h url key counts pmsRes w = (Ok (counts.1, S counts.2), w').
Proof.
  unfold syncOne, try_catch.
  destruct ((syncReservation h url key pmsRes;; mret (S counts.1, counts.2)) w)
    as [[c|e] w'] eqn:E.
  - exists w'. left. f_equal.
    unfold mbind, M_bind in E.
    destruct (syncReservation h url key pmsRes w) as [[[]|] w1]; [|done].
    by injection E as <- <-.
  - exists w'. by right.
Qed.

(** The counters only add up: a turn from [(a, b)] is the turn from
    [(0, 0)], shifted. *)
Lemma syncOne_shift h url key a b pmsRes w :
  syncOne h url key (a, b) pmsRes w
  = match syncOne h url key (0%nat, 0%nat) pmsRes w with
    | (Ok (x, y), w') => (Ok ((a + x)%nat, (b + y)%nat), w')
    | (Throw e, w') => (Throw e, w')
    end.
Proof.
  unfold syncOne, try_catch, mbind, M_bind, mret, M_ret. simpl.
  destruct (syncReservation h url key pmsRes w) as [[[]|e] w']; simpl;
    by rewrite ?Nat.add_0_r, ?Nat.add_1_r.
Qed.

Lemma sync_loop_shift h url key rs a b w :
  for_of rs (syncOne h url key) (a, b) w
  = match for_of rs (syncOne h url key) (0%nat, 0%nat) w with
    | (Ok (x, y), w') => (Ok ((a + x)%nat, (b + y)%nat), w')
    | (Throw e, w') => (Throw e, w')
    end.
Proof.
  revert a b w; induction rs as [|r rs IH]; intros a b w.
  - rewrite !for_of_nil. by rewrite !Nat.add_0_r.
  - rewrite !for_of_cons. rewrite (syncOne_shift h url key a b).
    destruct (syncOne h url key (0%nat, 0%nat) r w) as [[[x y]|e] w1]; [|done].
    rewrite (IH (a + x)%nat (b + y)%nat), (IH x y).
    destruct (for_of rs _ _ w1) as [[[x' y']|e] w2]; [|done].
    by rewrite !Nat.add_assoc.
Qed.

(** The loop never throws, and counts every upstream reservation once. *)
Lemma sync_loop_total h url key rs a b w :
  ∃ x y w', for_of rs (syncOne h url key) (a, b) w = (Ok (x, y), w')
            ∧ (x + y = a + b + length rs)%nat.
Proof.
  revert a b w; induction rs as [|r rs IH]; intros a b w.
  - exists a, b, w. rewrite for_of_nil. simpl. split; [done | lia].
  - rewrite for_of_cons.
    destruct (syncOne_cases h url key (a, b) r w) as [w1 [E|E]]; rewrite E.
    + destruct (IH (S a) b w1) as (x & y & w' & E' & Hs).
      exists x, y, w'. split; [done|]. simpl in *. lia.
    + destruct (IH a (S b) w1) as (x & y & w' & E' & Hs).
      exists x, y, w'. split; [done|]. simpl in *. lia.
Qed.

(** A guest request that fails costs one error and writes nothing. *)
Lemma syncOne_guest_failure h url key counts pmsRes e w :
  get_guest h url key pmsRes = Throw e →
  syncOne h url key counts pmsRes w = (Ok (counts.1, S counts.2), w).
Proof.
  intros E. unfold syncOne, try_catch, syncReservation, lift, mbind, M_bind.
  by rewrite E.
Qed.

Lemma for_of_app {A S} (body : S → A → M S) xs ys acc w :
  for_of (xs ++ ys) body acc w
  = match for_of xs body acc w with
    | (Ok acc', w') => for_of ys body acc' w'
    | (Throw e, w') => (Throw e, w')
    end.
Proof.
  revert acc w; induction xs as [|x xs IH]; intros acc w; [done|].
  simpl. unfold mbind, M_bind. destruct (body acc x w) as [[acc'|e] w']; [|done].
  apply IH.
Qed.

Lemma sync_loop_isolation h url key pre bad post e w :
  get_guest h url key bad = Throw e →
  for_of (pre ++ bad :: post) (syncOne h url key) (0%nat, 0%nat) w
  = match for_of (pre ++ post) (syncOne h url key) (0%nat, 0%nat) w with
    | (Ok (x, y), w') => (Ok (x, S y), w')
    | (Throw e, w') => (Throw e, w')
    end.
Proof.
  intros E. rewrite !for_of_app.
  destruct (for_of pre _ _ w) as [[[x y]|e'] w1]; [|done].
  rewrite for_of_cons, (syncOne_guest_failure _ _ _ _ _ e) by done. simpl.
  rewrite (sync_loop_shift _ _ _ post x (S y)), (sync_loop_shift _ _ _ post x y).
  destruct (for_of post _ _ w1) as [[[x' y']|e'] w2]; [|done].
  by rewrite Nat.add_succ_l.
Qed.

(** [syncFromPMS] on a configured host, step by step. *)
Lemma syncFromPMS_eval h w :
  pms_configured h = true →
  syncFromPMS h w
  = match get_reservations h (pms_url h) (pms_key h) (env h !! "PMS_HOTEL_ID")
            (subDays (clk h (reads w)) 1) (addDays (clk h (S (reads w))) 30) with
    | Throw e => (Ok (mkSync 0 1), mkWorld (db w) (S (S (reads w))))
    | Ok rs =>
        match for_of rs (syncOne h (pms_url h) (pms_key h)) (0%nat, 0%nat)
                (mkWorld (db w) (S (S (reads w)))) with
        | (Ok counts, w') => (Ok (mkSync counts.1 counts.2), w')
        | (Throw e, w') => (Ok (mkSync 0 1), w')
        end
    end.
Proof.
  unfold pms_configured, syncFromPMS. intros Hc%negb_true_iff. rewrite Hc.
  unfold try_catch, new_Date, lift, mbind, M_bind. simpl.
  fold (pms_url h) (pms_key h).
  destruct (get_reservations _ _ _ _ _ _) as [rs|e]; [|done].
  by destruct (for_of rs _ _ _) as [[counts|e] w'].
Qed.

(** C6.  [syncFromPMS] always returns a result, never an exception.  When
    the PMS cannot be reached the result is 0 synced and 1 error, and the
    store is untouched.  When it answers, every upstream reservation is
    counted once, as synced or as an error, so a failing one does not stop
    the loop; and a reservation whose guest cannot be fetched costs exactly
    one error: result and store are those of the batch without it, with one
    more error. *)
Theorem syncFromPMS_isolates_failures (h : Host) (s : Store) :
  (∃ r s', run (syncFromPMS h) s = (Ok r, s'))
  ∧ (pms_configured h = true → ∀ e,
       upstream h = Throw e →
       run (syncFromPMS h) s = (Ok (mkSync 0 1), s))
  ∧ (pms_configured h = true → ∀ rs,
       upstream h = Ok rs →
       ∃ r s', run (syncFromPMS h) s = (Ok r, s')
               ∧ (synced r + errors r = length rs)%nat)
  ∧ (pms_configured h = true → ∀ pre bad post e,
       upstream h = Ok (pre ++ bad :: post) →
       upstream_guest h bad = Throw e →
       run (syncFromPMS h) s
       = (one_more_error
            (result_of (syncFromPMS (with_upstream h (Ok (pre ++ post)))) s),
          store_after (syncFromPMS (with_upstream h (Ok (pre ++ post)))) s)).
Proof.
  assert (Htotal : pms_configured h = true → ∀ rs,
       upstream h = Ok rs →
       ∃ r s', run (syncFromPMS h) s = (Ok r, s')
               ∧ (synced r + errors r = length rs)%nat).
  { intros Hc rs Hup. unfold run. rewrite syncFromPMS_eval by done.
    unfold upstream in Hup. simpl. rewrite Hup.
    destruct (sync_loop_total h (pms_url h) (pms_key h) rs 0 0 (mkWorld s 2))
      as (x & y & w' & -> & Hs).
    exists (mkSync x y), (db w'). split; [done|]. simpl in *. lia. }
  assert (Hdown : pms_configured h = true → ∀ e,
       upstream h = Throw e →
       run (syncFromPMS h) s = (Ok (mkSync 0 1), s)).
  { intros Hc e Hup. unfold run. rewrite syncFromPMS_eval by done.
    unfold upstream in Hup. simpl. by rewrite Hup. }
  split; [|split; [exact Hdown|split; [exact Htotal|]]].
  - destruct (pms_configured h) eqn:Hc.
    + destruct (upstream h) as [rs|e] eqn:Hup.
      * destruct (Htotal eq_refl rs eq_refl) as (r & s' & E & _). eauto.
      * rewrite (Hdown eq_refl e eq_refl). eauto.
    + unfold pms_configured in Hc. apply negb_false_iff in Hc.
      unfold run, syncFromPMS. rewrite Hc. simpl. eauto.
  - intros Hc pre bad post e Hup Hbad.
    unfold result_of, store_after, run.
    rewrite !syncFromPMS_eval by done.
    unfold upstream in Hup. simpl. rewrite Hup.
    change (pms_url (with_upstream h (Ok (pre ++ post)))) with (pms_url h).
    change (pms_key (with_upstream h (Ok (pre ++ post)))) with (pms_key h).
    change (syncOne (with_upstream h (Ok (pre ++ post))))
      with (syncOne h).
    rewrite (sync_loop_isolation h (pms_url h) (pms_key h) pre bad post e)
      by exact Hbad.
    destruct (sync_loop_total h (pms_url h) (pms_key h) (pre ++ post) 0 0
                (mkWorld s 2)) as (x & y & w' & -> & _).
    done.
Qed.

(** C9, as the code has it.  The guest of an upstream reservation is resolved
    by external identifier alone: the local guest that carries the upstream
    identifier if there is one, and otherwise a newly created guest with the
    upstream contact fields, whatever the phones and emails of the local
    guests.  The guest table changes in no other way, and a reservation
    created by the upsert is linked to the resolved guest. *)
Theorem guest_resolved_by_external_id_only
    (h : Host) (url key : string) (pmsRes : PMSReservation.t)
    (pmsGuest : PMSGuest.t) (w w' : World) :
  get_guest h url key pmsRes = Ok pmsGuest →
  syncReservation h url key pmsRes w = (Ok tt, w') →
  guests (db w') = (resolved_guest (db w) pmsGuest).2
  ∧ (reservation_by_externalId (db w) (PMSReservation.id pmsRes) = None →
     ∃ checkIn checkOut status,
       reservations (db w')
       = <[prisma.new_id (reservations (db w)) :=
             reservation_create pmsRes (resolved_guest (db w) pmsGuest).1
               checkIn checkOut status]> (reservations (db w))).
Proof.
  intros Eg. unfold syncReservation, resolved_guest, guest_by_externalId,
    reservation_by_externalId, lift, prisma_sync.guest_findUnique,
    prisma_sync.guest_create, prisma_sync.reservation_upsert,
    mbind, M_bind, mret, M_ret, get_db, set_db, throw.
  rewrite Eg. simpl.
  destruct (find _ (map_to_list (guests (db w)))) as [[k g]|] eqn:Ef; simpl.
  - destruct (parseISO _) as [ci|]; [|done].
    destruct (parseISO _) as [co|]; [|done].
    destruct (normalize_status _) as [st|]; [|done]. simpl.
    destruct (find _ (map_to_list (reservations (db w)))) as [[rid row]|]; simpl.
    + intros [= <-]. simpl. split; [done|]. done.
    + intros [= <-]. simpl. split; [done|]. intros _. by exists ci, co, st.
  - destruct (guest_phone_unique && _); simpl; [done|].
    destruct (parseISO _) as [ci|]; [|done].
    destruct (parseISO _) as [co|]; [|done].
    destruct (normalize_status _) as [st|]; [|done]. simpl.
    destruct (find _ (map_to_list (reservations (db w)))) as [[rid row]|]; simpl.
    + intros [= <-]. simpl. split; [done|]. done.
    + intros [= <-]. simpl. split; [done|]. intros _. by exists ci, co, st.
Qed.

End SyncFacts.

(** The scenario: five upstream reservations, the guest of the third cannot be
    fetched.  Four are synced, one error is counted, and reservations 1, 2, 4
    and 5 are in the store afterwards. *)
Lemma syncFromPMS_isolates_failures_witness :
  let s' := store_after (@syncFromPMS utc (schema3 true) Sample.five) emptyStore in
  result_of (@syncFromPMS utc (schema3 true) Sample.five) emptyStore
  = Ok (mkSync 4 1)
  ∧ (fst <$> reservation_by_externalId s' "r1") = Some 0%nat
  ∧ (fst <$> reservation_by_externalId s' "r2") = Some 1%nat
  ∧ reservation_by_externalId s' "r3" = None
  ∧ (fst <$> reservation_by_externalId s' "r4") = Some 2%nat
  ∧ (fst <$> reservation_by_externalId s' "r5") = Some 3%nat
  ∧ size (reservations s') = 4%nat.
Proof.
  intros s'. subst s'. unfold result_of, store_after.
  destruct (@syncFromPMS_isolates_failures utc (schema3 true) Sample.five emptyStore)
    as (_ & _ & _ & Hiso).
  rewrite (Hiso eq_refl (map Sample.pms_reservation ["1"; "2"])
             (Sample.pms_reservation "3")
             (map Sample.pms_reservation ["4"; "5"])
             (Error "Request failed with status code 500") eq_refl eq_refl).
  vm_compute. repeat split; reflexivity.
Defined.

Example sync_unreachable_sample :
  run (@syncFromPMS utc (schema3 true)
         (Sample.host Sample.day0 Sample.busy)) (Sample.store CONFIRMED)
  = (Ok (mkSync 0 1), Sample.store CONFIRMED).
Proof. vm_compute. reflexivity. Qed.

Lemma guest_resolved_by_external_id_only_witness :
  let w := mkWorld Sample.only_john 2 in
  let w' := (@syncReservation utc (schema3 false) Sample.john_upstream
               "https://pms.example" "pms-key" (Sample.pms_reservation "1") w).2 in
  guests (db w') = {[ 0%nat := Sample.john;
                      1%nat := @guest_of_pms Sample.pms_john ]}
  ∧ ∃ checkIn checkOut status,
      reservations (db w')
      = {[ 0%nat := @reservation_create (Sample.pms_reservation "1") 1%nat
                      checkIn checkOut status ]}.
Proof.
  intros w w'.
  destruct (@guest_resolved_by_external_id_only utc (schema3 false)
              Sample.john_upstream "https://pms.example" "pms-key"
              (Sample.pms_reservation "1") Sample.pms_john w w') as [Hg Hr].
  - vm_compute. reflexivity.
  - vm_compute. reflexivity.
  - split.
    + rewrite Hg. vm_compute. reflexivity.
    + destruct Hr as (ci & co & st & Hr); [vm_compute; reflexivity|].
      exists ci, co, st. rewrite Hr. reflexivity.
Defined.

(** C9, as stated, fails: the local guest John has no external identifier and
    the phone and email of the upstream guest.  Where the phone column is not
    unique, the sync creates a second guest with that phone and links the new
    reservation to it; where it is unique, the creation is refused, the item
    counts as an error and nothing is stored.  In neither case is the local
    guest reused. *)
Lemma local_guest_is_not_reused :
  let run_with unique :=
    run (@syncFromPMS utc (schema3 unique) Sample.john_upstream) Sample.only_john in
  Guest.phone Sample.john = PMSGuest.phone Sample.pms_john
  ∧ Guest.email Sample.john = PMSGuest.email Sample.pms_john
  ∧ (run_with false).1 = Ok (mkSync 1 0)
  ∧ guests (run_with false).2
    = {[ 0%nat := Sample.john; 1%nat := @guest_of_pms Sample.pms_john ]}
  ∧ (Reservation.guestId ∘ snd <$> reservation_by_externalId (run_with false).2 "r1")
    = Some 1%nat
  ∧ run_with true = (Ok (mkSync 0 1), Sample.only_john).
Proof. vm_compute. repeat split; reflexivity. Qed.

(** ** The cron secret *)

(** C10.  With no expected secret passed and no [CRON_SECRET] configured
    (unset or empty), [verifyCronSecret] accepts a non-empty secret exactly
    when [NODE_ENV] is "development": there every token is authorized,
    elsewhere every token is rejected. *)
Theorem verifyCronSecret_without_configured_secret
    (env : gmap string string) (secret : string) (expectedSecret : option string) :
  secret ≠ "" →
  Js.falsy expectedSecret = true →
  Js.falsy (env !! "CRON_SECRET") = true →
  verifyCronSecret env (Some secret) expectedSecret = true
  ↔ env !! "NODE_ENV" = Some "development".
Proof.
  intros Hs He Hc. unfold verifyCronSecret, Js.or_else. simpl.
  rewrite bool_decide_eq_false_2 by done. rewrite He, Hc.
  case_bool_decide; split; done.
Qed.

Lemma verifyCronSecret_without_configured_secret_witness :
  verifyCronSecret {[ "NODE_ENV" := "development" ]} (Some "any-token") None = true
  ∧ verifyCronSecret {[ "NODE_ENV" := "production" ]} (Some "any-token") None ≠ true.
Proof.
  split.
  - apply (verifyCronSecret_without_configured_secret
             {[ "NODE_ENV" := "development" ]} "any-token" None);
      [discriminate | reflexivity | reflexivity | reflexivity].
  - intros E.
    apply (verifyCronSecret_without_configured_secret
             {[ "NODE_ENV" := "production" ]} "any-token" None) in E;
      [discriminate | discriminate | reflexivity | reflexivity].
Defined.

(** With a configured secret the comparison decides, in every environment. *)
Example verifyCronSecret_configured_sample :
  verifyCronSecret {[ "CRON_SECRET" := "s3cret"; "NODE_ENV" := "development" ]}
    (Some "any-token") None = false
  ∧ verifyCronSecret {[ "CRON_SECRET" := "s3cret" ]} (Some "s3cret") None = true.
Proof. vm_compute. split; reflexivity. Qed.

(** * Further properties *)

(** ** The verifiers of [security.ts] *)

Lemma Buffer_from_inj a b : Js.Buffer_from a = Js.Buffer_from b → a = b.
Proof.
  unfold Js.Buffer_from. intros E.
  rewrite <- (string_of_list_ascii_of_string a), <- (string_of_list_ascii_of_string b).
  by rewrite E.
Qed.

Lemma safe_equal_eq a b : safe_equal a b = true ↔ a = b.
Proof.
  unfold safe_equal, Js.timingSafeEqual. split.
  - case_bool_decide; [done|]. intros E%bool_decide_eq_true_1.
    by apply Buffer_from_inj.
  - intros ->. rewrite bool_decide_eq_false_2 by (intros E; by apply E).
    by apply bool_decide_eq_true_2.
Qed.

Lemma falsy_Some_false s : Js.falsy (Some s) = false ↔ s ≠ "".
Proof. simpl. by rewrite bool_decide_eq_false. Qed.

(** X1.  With a secret to compare with (the argument, or [CRON_SECRET] when
    the argument is absent or empty), [verifyCronSecret] accepts exactly that
    secret, whatever [NODE_ENV] is; an absent or empty token is rejected. *)
Theorem verifyCronSecret_accepts_exactly_the_secret
    (env : gmap string string) (secret expectedSecret : option string)
    (expected : string) :
  Js.or_else expectedSecret (env !! "CRON_SECRET") = Some expected →
  expected ≠ "" →
  verifyCronSecret env secret expectedSecret = true ↔ secret = Some expected.
Proof.
  intros Ee Hne. unfold verifyCronSecret. rewrite Ee.
  rewrite (proj2 (falsy_Some_false expected) Hne). simpl.
  destruct secret as [s|]; simpl; [|done].
  case_bool_decide as Hs; simpl.
  - subst s. split; [done|]. intros [= <-]. done.
  - fold (safe_equal s expected). rewrite safe_equal_eq.
    split; [by intros -> | by intros [= ->]].
Qed.

Lemma verifyCronSecret_accepts_exactly_the_secret_witness :
  verifyCronSecret {[ "CRON_SECRET" := "s3cret"; "NODE_ENV" := "development" ]}
    (Some "s3cret") None = true.
Proof.
  apply (verifyCronSecret_accepts_exactly_the_secret _ _ None "s3cret");
    [reflexivity | discriminate | reflexivity].
Defined.

Lemma startsWith_app p t : JsString.startsWith p (p +:+ t) = true.
Proof.
  induction p as [|c p IH]; simpl; [by destruct t|].
  by rewrite bool_decide_eq_true_2, IH.
Qed.

Lemma slice_app p t : JsString.slice (String.length p) (p +:+ t) = t.
Proof. induction p as [|c p IH]; simpl; [by destruct t | done]. Qed.

(** The pattern in front is the first occurrence. *)
Lemma replace_prefix p r t : JsString.replace p r (p +:+ t) = r +:+ t.
Proof.
  destruct p as [|a p].
  - simpl. by destruct t.
  - change (JsString.replace (String a p) r (String a p +:+ t))
      with (if JsString.startsWith (String a p) (String a p +:+ t)
            then r +:+ JsString.slice (String.length (String a p)) (String a p +:+ t)
            else String a (JsString.replace (String a p) r (p +:+ t))).
    by rewrite startsWith_app, slice_app.
Qed.

(** X2.  With a token to compare with (the argument, or
    [VAPI_WEBHOOK_SECRET]), [verifyBearerToken] accepts a header exactly when
    the header without its first "Bearer " is that token; so "Bearer " followed
    by a token is accepted exactly for the expected token. *)
Theorem verifyBearerToken_accepts_exactly_the_token
    (env : gmap string string) (expectedToken : option string)
    (expected : string) :
  Js.or_else expectedToken (env !! "VAPI_WEBHOOK_SECRET") = Some expected →
  expected ≠ "" →
  (∀ header, header ≠ "" →
     verifyBearerToken env (Some header) expectedToken = true
     ↔ JsString.replace "Bearer " "" header = expected)
  ∧ (∀ token,
       verifyBearerToken env (Some ("Bearer " +:+ token)) expectedToken = true
       ↔ token = expected).
Proof.
  intros Ee Hne.
  assert (G : ∀ header, header ≠ "" →
     verifyBearerToken env (Some header) expectedToken = true
     ↔ JsString.replace "Bearer " "" header = expected).
  { intros header Hh. unfold verifyBearerToken. rewrite Ee.
    rewrite (proj2 (falsy_Some_false header) Hh).
    rewrite (proj2 (falsy_Some_false expected) Hne). simpl default.
    apply safe_equal_eq. }
  split; [exact G|]. intros token.
  rewrite G by done. by rewrite replace_prefix.
Qed.

Lemma verifyBearerToken_accepts_exactly_the_token_witness :
  verifyBearerToken {[ "VAPI_WEBHOOK_SECRET" := "whsec" ]}
    (Some "Bearer whsec") None = true
  ∧ verifyBearerToken {[ "VAPI_WEBHOOK_SECRET" := "whsec" ]}
      (Some "Bearer other") None ≠ true.
Proof.
  destruct (verifyBearerToken_accepts_exactly_the_token
              {[ "VAPI_WEBHOOK_SECRET" := "whsec" ]} None "whsec") as [_ H];
    [reflexivity | discriminate |].
  split.
  - by apply (H "whsec").
  - intros E. by apply (H "other") in E.
Defined.

(** X3.  With a secret to sign with, [verifyWebhookSignature] accepts a
    signature exactly when it is the HMAC-SHA256 digest of the body under
    that secret, whatever [NODE_ENV] is; an absent or empty signature is
    rejected. *)
Theorem verifyWebhookSignature_accepts_exactly_the_digest
    (hmac : string → string → string) (env : gmap string string)
    (body : string) (signature secret : option string) (key : string) :
  Js.or_else secret (env !! "VAPI_WEBHOOK_SECRET") = Some key →
  key ≠ "" →
  verifyWebhookSignature hmac env body signature secret = true
  ↔ ∃ s, signature = Some s ∧ s ≠ "" ∧ s = hmac key body.
Proof.
  intros Ek Hne. unfold verifyWebhookSignature. rewrite Ek.
  rewrite (proj2 (falsy_Some_false key) Hne). simpl default.
  destruct signature as [s|]; simpl.
  - case_bool_decide as Hs; simpl.
    + subst s. split; [done|]. by intros (s & [= <-] & Hs & _).
    + rewrite safe_equal_eq. split.
      * intros ->. by exists (hmac key body).
      * by intros (s' & [= <-] & _ & ->).
  - split; [done|]. by intros (s & Hs & _).
Qed.

Lemma verifyWebhookSignature_accepts_exactly_the_digest_witness :
  verifyWebhookSignature (λ key body, "mac:" +:+ key +:+ ":" +:+ body)
    {[ "VAPI_WEBHOOK_SECRET" := "whsec" ]} "{}" (Some "mac:whsec:{}") None = true.
Proof.
  apply (verifyWebhookSignature_accepts_exactly_the_digest _ _ _ _ None "whsec");
    [reflexivity | discriminate |].
  exists "mac:whsec:{}". split; [reflexivity|]. split; [discriminate | reflexivity].
Defined.

(** ** Phone numbers *)

Lemma remove_all_all_chars keep s :
  JsString.all_chars keep (JsString.remove_all (λ c, negb (keep c)) s) = true.
Proof.
  induction s as [|c s IH]; simpl; [done|].
  destruct (keep c) eqn:E; simpl; [by rewrite E|done].
Qed.

Lemma remove_all_id matches s :
  JsString.all_chars (λ c, negb (matches c)) s = true →
  JsString.remove_all matches s = s.
Proof.
  induction s as [|c s IH]; simpl; [done|].
  intros [Hc Hs]%andb_true_iff. apply negb_true_iff in Hc. rewrite Hc.
  by rewrite IH.
Qed.

Lemma all_chars_impl (p q : ascii → bool) s :
  (∀ c, p c = true → q c = true) →
  JsString.all_chars p s = true → JsString.all_chars q s = true.
Proof.
  intros Hpq. induction s as [|c s IH]; simpl; [done|].
  intros [Hc Hs]%andb_true_iff. by rewrite (Hpq c Hc), IH.
Qed.

Lemma remove_plus_digits s :
  JsString.all_chars phone_char s = true →
  JsString.all_chars JsString.digit
    (JsString.remove_all (λ c, bool_decide (c = "+"%char)) s) = true.
Proof.
  induction s as [|c s IH]; simpl; [done|].
  intros [Hc Hs]%andb_true_iff. case_bool_decide as Hp; simpl; [by apply IH|].
  unfold phone_char in Hc. rewrite (bool_decide_eq_false_2 _ Hp), orb_false_r in Hc.
  by rewrite Hc, IH.
Qed.

Lemma digit_not_plus c : JsString.digit c = true → c ≠ "+"%char.
Proof. intros Hd ->. discriminate Hd. Qed.

Lemma digits_include_no_plus s :
  JsString.all_chars JsString.digit s = true → JsString.includes "+" s = false.
Proof.
  induction s as [|c s IH]; simpl; [done|].
  intros [Hc Hs]%andb_true_iff. rewrite IH by done.
  rewrite bool_decide_eq_false_2; [done|].
  intros E. by apply (digit_not_plus c).
Qed.

Lemma sanitize_cases phone :
  let r := sanitizePhoneNumber phone in
  (JsString.all_chars JsString.digit r = true)
  ∨ (JsString.all_chars phone_char r = true ∧ JsString.startsWith "+" r = true).
Proof.
  unfold sanitizePhoneNumber.
  pose proof (remove_all_all_chars phone_char phone) as Hk.
  fold phone_char. change (λ c, negb (JsString.digit c || bool_decide (c = "+"%char)))
    with (λ c, negb (phone_char c)).
  set (s := JsString.remove_all (λ c, negb (phone_char c)) phone) in *.
  destruct (JsString.includes "+" s) eqn:Ei; cbn [andb negb].
  - destruct (JsString.startsWith "+" s) eqn:Es; cbn [andb negb].
    + by right.
    + left. by apply remove_plus_digits.
  - left. clear -Hk Ei. induction s as [|c s IH]; simpl in *; [done|].
    apply andb_true_iff in Hk as [Hc Hs]. apply orb_false_iff in Ei as [Ec Ei].
    unfold phone_char in Hc.
    assert (Ec' : bool_decide (c = "+"%char) = false).
    { apply bool_decide_eq_false. apply bool_decide_eq_false in Ec. congruence. }
    rewrite Ec', orb_false_r in Hc. by rewrite Hc, IH.
Qed.

(** X4.  What [sanitizePhoneNumber] returns holds digits and plus signs only;
    if it holds a plus sign at all, it starts with one; and sanitizing it
    again changes nothing. *)
Theorem sanitizePhoneNumber_shape (phone : string) :
  let r := sanitizePhoneNumber phone in
  JsString.all_chars phone_char r = true
  ∧ (JsString.includes "+" r = true → JsString.startsWith "+" r = true)
  ∧ sanitizePhoneNumber r = r.
Proof.
  intros r.
  assert (Hk : JsString.all_chars phone_char r = true).
  { destruct (sanitize_cases phone) as [Hd|[Hk _]]; [|done].
    apply (all_chars_impl JsString.digit); [|done].
    intros c Hc. unfold phone_char. by rewrite Hc. }
  assert (Hp : JsString.includes "+" r = true → JsString.startsWith "+" r = true).
  { destruct (sanitize_cases phone) as [Hd|[_ Hs]]; [|done].
    intros Hi. fold r in Hd. by rewrite (digits_include_no_plus r Hd) in Hi. }
  split; [done|]. split; [done|].
  unfold sanitizePhoneNumber.
  change (λ c, negb (JsString.digit c || bool_decide (c = "+"%char)))
    with (λ c, negb (phone_char c)).
  rewrite (remove_all_id (λ c, negb (phone_char c)) r).
  - destruct (JsString.includes "+" r) eqn:Ei; cbn [andb negb]; [|done].
    by rewrite (Hp eq_refl).
  - apply (all_chars_impl phone_char); [|done].
    intros c Hc. by rewrite Hc.
Qed.

(** X5.  A number [isValidE164] accepts has between 3 and 16 characters and
    is left as it is by [sanitizePhoneNumber]. *)
Theorem valid_E164_is_sanitized (phone : string) :
  isValidE164 phone = true →
  sanitizePhoneNumber phone = phone
  ∧ (3 ≤ String.length phone ≤ 16)%nat.
Proof.
  unfold isValidE164. intros H.
  destruct phone as [|a phone]; [done|].
  destruct a as [[] [] [] [] [] [] [] []]; try done.
  destruct phone as [|d rest]; [done|].
  rewrite !andb_true_iff, !Nat.leb_le in H. destruct H as [[[Hd Hr] H1] H14].
  split; [|simpl; lia].
  assert (Hk : JsString.all_chars phone_char (String "+" (String d rest)) = true).
  { simpl. rewrite andb_true_iff. split.
    - unfold phone_char. apply orb_true_iff. left.
      unfold JsString.digit_1_9, JsString.digit in *.
      apply andb_true_iff in Hd as [H49 H57]. apply andb_true_iff. split; [|done].
      apply Nat.leb_le. apply Nat.leb_le in H49. lia.
    - apply (all_chars_impl JsString.digit); [|done].
      intros c Hc. unfold phone_char. by rewrite Hc. }
  unfold sanitizePhoneNumber.
  change (λ c, negb (JsString.digit c || bool_decide (c = "+"%char)))
    with (λ c, negb (phone_char c)).
  rewrite (remove_all_id (λ c, negb (phone_char c))).
  - simpl. done.
  - apply (all_chars_impl phone_char); [|done]. intros c Hc. by rewrite Hc.
Qed.

Lemma valid_E164_is_sanitized_witness :
  sanitizePhoneNumber "+15551234567" = "+15551234567"
  ∧ (3 ≤ String.length "+15551234567" ≤ 16)%nat.
Proof. apply valid_E164_is_sanitized. reflexivity. Defined.

Example sanitizePhoneNumber_sample :
  sanitizePhoneNumber "+1 (555) 123-4567" = "+15551234567"
  ∧ sanitizePhoneNumber "1+555 GRAND" = "1555"
  ∧ sanitizePhoneNumber "+1+555" = "+1+555"
  ∧ isValidE164 "+1+555" = false
  ∧ isValidE164 "+05551234567" = false.
Proof. vm_compute. repeat split; reflexivity. Qed.

(** ** The rate limiter *)

Module RateLimiterFacts.
Import RateLimiter.

Lemma recent_recent a b l : a ≤ b → recent b (recent a l) = recent b l.
Proof.
  intros Hab. unfold recent. induction l as [|x l IH]; simpl; [done|].
  destruct (a <? x) eqn:Ea; simpl.
  - destruct (b <? x); by rewrite IH.
  - rewrite IH. destruct (b <? x) eqn:Eb; [|done].
    apply Z.ltb_lt in Eb. apply Z.ltb_ge in Ea. lia.
Qed.

Lemma recent_app a l k : recent a (l ++ k) = recent a l ++ recent a k.
Proof. apply List.filter_app. Qed.

Lemma recent_now w now : 0 < w → recent (now - w) [now] = [now].
Proof. intros Hw. unfold recent. simpl. by rewrite (proj2 (Z.ltb_lt _ _)) by lia. Qed.

Lemma times_of_app id h k : times_of id (h ++ k) = times_of id h ++ times_of id k.
Proof. unfold times_of. by rewrite filter_app, fmap_app. Qed.

Lemma times_of_one id id' now :
  times_of id [(id', now)] = if bool_decide (id' = id) then [now] else [].
Proof.
  unfold times_of. rewrite filter_cons. simpl.
  by destruct (decide (id' = id)); [rewrite bool_decide_eq_true_2
                                  |rewrite bool_decide_eq_false_2].
Qed.

Lemma window_count_le this id t now hist :
  (∀ e, e ∈ hist → e.2 ≤ now) → now ≤ t →
  (length (filter (λ x, (t - windowMs this < x ∧ x ≤ t)%Z) (times_of id hist))
   ≤ length (recent (now - windowMs this)%Z (times_of id hist)))%nat.
Proof.
  intros Hle Ht.
  assert (Hx : ∀ x, x ∈ times_of id hist → x ≤ now).
  { intros x ((id', x') & -> & [_ Hin]%list_elem_of_filter)%list_elem_of_fmap.
    by apply (Hle (id', x')). }
  induction (times_of id hist) as [|x l IH]; [done|].
  rewrite filter_cons. unfold recent. simpl.
  assert (IH' := IH (λ y Hy, Hx y (list_elem_of_further _ _ _ Hy))).
  destruct (decide _) as [[H1 H2]|Hn]; simpl.
  - rewrite (proj2 (Z.ltb_lt _ _)) by lia. simpl. unfold recent in IH'. lia.
  - destruct (_ <? x); simpl; unfold recent in IH'; lia.
Qed.

Lemma serve_bound calls :
  ∀ this now hist,
    0 < windowMs this →
    consistent this now hist →
    Sorted Z.le (now :: calls.*2) →
    ∀ id t,
      Z.of_nat (admitted_in_window this id t (hist ++ (serve calls this).1))
      ≤ maxRequests this.
Proof.
  induction calls as [|[cid cnow] calls IH]; intros this now hist Hw Hc Hs id t.
  - simpl. rewrite app_nil_r. by destruct Hc as (_ & _ & Hb).
  - simpl in Hs. apply Sorted_inv in Hs as [Hs Hhd].
    apply HdRel_inv in Hhd.
    destruct Hc as (H1 & H2 & H3).
    assert (H1' : ∀ id', recent (cnow - windowMs this)
                            (default [] (requests this !! id'))
                         = recent (cnow - windowMs this) (times_of id' hist)).
    { intros id'.
      rewrite <- (recent_recent (now - windowMs this) (cnow - windowMs this)) by lia.
      rewrite H1. apply recent_recent. lia. }
    assert (H2' : ∀ e, e ∈ hist → e.2 ≤ cnow).
    { intros e He. specialize (H2 e He). lia. }
    simpl. unfold isAllowed.
    destruct (maxRequests this <=? _) eqn:Emax.
    + (* denied *)
      specialize (IH this cnow hist Hw (conj H1' (conj H2' H3)) Hs id t).
      by destruct (serve calls this) as [admitted final].
    + (* admitted *)
      apply Z.leb_gt in Emax.
      set (F := recent (cnow - windowMs this) (default [] (requests this !! cid))) in *.
      set (this' := mk (<[cid := F ++ [cnow]]> (requests this))
                       (windowMs this) (maxRequests this)).
      assert (Hc' : consistent this' cnow (hist ++ [(cid, cnow)])).
      { split; [|split].
        - intros id'. simpl. rewrite times_of_app, times_of_one, recent_app.
          destruct (decide (cid = id')) as [->|Hne].
          + rewrite lookup_insert_eq, bool_decide_eq_true_2 by done. simpl.
            rewrite recent_app. f_equal.
            unfold F. rewrite recent_recent by lia. apply H1'.
          + rewrite lookup_insert_ne, bool_decide_eq_false_2 by done.
            rewrite app_nil_r. apply H1'.
        - intros e [He|He%list_elem_of_singleton]%elem_of_app; [by apply H2'|].
          subst e. simpl. lia.
        - intros id' t'. simpl. unfold admitted_in_window. simpl.
          rewrite times_of_app, times_of_one, filter_app, length_app.
          specialize (H3 id' t'). unfold admitted_in_window in H3.
          destruct (decide (cid = id')) as [->|Hne].
          + rewrite bool_decide_eq_true_2 by done. rewrite filter_cons. simpl.
            destruct (decide _) as [[Ha Hb]|Hn]; simpl; [|lia].
            pose proof (window_count_le this id' t' cnow hist H2' Hb) as Hcount.
            rewrite <- H1' in Hcount. fold F in Hcount. lia.
          + rewrite bool_decide_eq_false_2 by done. simpl. lia. }
      specialize (IH this' cnow (hist ++ [(cid, cnow)]) Hw Hc' Hs id t).
      destruct (serve calls this') as [admitted final]. simpl in *.
      by rewrite <- app_assoc in IH.
Qed.

End RateLimiterFacts.

(** X6.  A limiter that starts empty, with a positive window and a
    non-negative limit, and is asked at times that never go back, admits for
    each identifier at most [maxRequests] requests in any window of length
    [windowMs]. *)
Theorem rate_limit_holds
    (this : RateLimiter.t) (calls : list (string * Z)) (identifier : string) (t : Z) :
  RateLimiter.requests this = ∅ →
  0 < RateLimiter.windowMs this →
  0 ≤ RateLimiter.maxRequests this →
  Sorted Z.le calls.*2 →
  Z.of_nat (RateLimiter.admitted_in_window this identifier t
              (RateLimiter.serve calls this).1)
  ≤ RateLimiter.maxRequests this.
Proof.
  intros He Hw Hm Hs.
  destruct calls as [|[cid cnow] calls].
  - simpl. unfold RateLimiter.admitted_in_window. simpl. lia.
  - apply (RateLimiterFacts.serve_bound ((cid, cnow) :: calls) this cnow []); [done| |].
    + split; [|split].
      * intros id. by rewrite He, lookup_empty.
      * intros e He'. by apply elem_of_nil in He'.
      * intros id t'. unfold RateLimiter.admitted_in_window. simpl. lia.
    + simpl. constructor; [done|]. constructor. lia.
Qed.

Lemma rate_limit_holds_witness :
  let this := RateLimiter.new (Some 1000) (Some 2) in
  let calls := [("a", 0); ("a", 10); ("b", 20); ("a", 30); ("a", 1005); ("a", 1011)] in
  Z.of_nat (RateLimiter.admitted_in_window this "a" 1011 (RateLimiter.serve calls this).1)
  ≤ 2.
Proof.
  intros this calls.
  apply (rate_limit_holds this calls "a" 1011).
  - reflexivity.
  - reflexivity.
  - discriminate.
  - repeat constructor; discriminate.
Defined.

Example rate_limit_sample :
  (RateLimiter.serve
     [("a", 0); ("a", 10); ("b", 20); ("a", 30); ("a", 1005); ("a", 1011)]
     (RateLimiter.new (Some 1000) (Some 2))).1
  = [("a", 0); ("a", 10); ("b", 20); ("a", 1005); ("a", 1011)].
Proof. vm_compute. reflexivity. Qed.

Lemma recent_omap_default windowStart (m : gmap string (list Z)) id :
  default [] (omap (λ times,
      let filtered := RateLimiter.recent windowStart times in
      if bool_decide (filtered = []) then None else Some filtered) m !! id)
  = RateLimiter.recent windowStart (default [] (m !! id)).
Proof.
  rewrite lookup_omap. destruct (m !! id) as [times|]; simpl; [|done].
  by case_bool_decide as E; simpl; [rewrite E|].
Qed.

Lemma serve_agree calls :
  ∀ a b now,
    RateLimiter.windowMs a = RateLimiter.windowMs b →
    RateLimiter.maxRequests a = RateLimiter.maxRequests b →
    (∀ id, RateLimiter.recent (now - RateLimiter.windowMs b)
             (default [] (RateLimiter.requests a !! id))
           = RateLimiter.recent (now - RateLimiter.windowMs b)
               (default [] (RateLimiter.requests b !! id))) →
    (∀ c, c ∈ calls → now ≤ c.2) →
    (RateLimiter.serve calls a).1 = (RateLimiter.serve calls b).1.
Proof.
  induction calls as [|[cid cnow] calls IH]; intros a b now Hw Hm Hr Hge; [done|].
  assert (Hnow : now ≤ cnow) by (apply (Hge (cid, cnow)); left).
  assert (Hr' : ∀ id, RateLimiter.recent (cnow - RateLimiter.windowMs b)
             (default [] (RateLimiter.requests a !! id))
           = RateLimiter.recent (cnow - RateLimiter.windowMs b)
               (default [] (RateLimiter.requests b !! id))).
  { intros id.
    rewrite <- (RateLimiterFacts.recent_recent (now - RateLimiter.windowMs b)
                  (cnow - RateLimiter.windowMs b)) by lia.
    rewrite Hr. apply RateLimiterFacts.recent_recent. lia. }
  simpl. unfold RateLimiter.isAllowed. rewrite Hw, Hm, (Hr' cid).
  destruct (RateLimiter.maxRequests b <=? _) eqn:Emax.
  - specialize (IH a b now Hw Hm Hr (λ c Hc, Hge c (list_elem_of_further _ _ _ Hc))).
    destruct (RateLimiter.serve calls a), (RateLimiter.serve calls b). by simpl in *.
  - match goal with
    | |- (let (_, _) := RateLimiter.serve calls ?x in _).1
         = (let (_, _) := RateLimiter.serve calls ?y in _).1 =>
        assert (E : (RateLimiter.serve calls x).1 = (RateLimiter.serve calls y).1);
        [|destruct (RateLimiter.serve calls x), (RateLimiter.serve calls y);
          simpl in *; by rewrite E]
    end.
    apply (IH _ _ now); simpl; [done | done | |].
    + intros id. destruct (decide (cid = id)) as [->|Hne].
      * by rewrite !lookup_insert_eq.
      * rewrite !lookup_insert_ne by done. apply Hr.
    + intros c Hc. apply Hge. by right.
Qed.

(** X7.  [cleanup] changes no later answer: for requests made at or after
    the time of the cleanup, the limiter admits exactly the requests it
    would have admitted without it. *)
Theorem cleanup_changes_no_answer
    (this : RateLimiter.t) (now : Z) (calls : list (string * Z)) :
  (∀ c, c ∈ calls → now ≤ c.2) →
  (RateLimiter.serve calls (RateLimiter.cleanup now this)).1
  = (RateLimiter.serve calls this).1.
Proof.
  intros Hge. apply (serve_agree calls _ _ now); simpl; [done | done | | done].
  intros id. rewrite recent_omap_default.
  apply RateLimiterFacts.recent_recent. lia.
Qed.

Lemma cleanup_changes_no_answer_witness :
  let this := (RateLimiter.serve [("a", 0); ("a", 10); ("b", 600)]
                 (RateLimiter.new (Some 1000) (Some 2))).2 in
  (RateLimiter.serve [("a", 1005); ("b", 1200); ("a", 1500)]
     (RateLimiter.cleanup 1005 this)).1
  = (RateLimiter.serve [("a", 1005); ("b", 1200); ("a", 1500)] this).1.
Proof.
  intros this. apply cleanup_changes_no_answer.
  intros c Hc. repeat (apply elem_of_cons in Hc as [->|Hc]; [simpl; lia|]).
  by apply elem_of_nil in Hc.
Defined.

(** [cleanup] does forget: the entry of an identifier with nothing in the
    window is gone. *)
Example cleanup_sample :
  let this := (RateLimiter.serve [("a", 0); ("a", 10); ("b", 600)]
                 (RateLimiter.new (Some 1000) (Some 2))).2 in
  RateLimiter.requests this = {[ "a" := [0; 10]; "b" := [600] ]}
  ∧ RateLimiter.requests (RateLimiter.cleanup 1200 this) = {[ "b" := [600] ]}.
Proof. vm_compute. split; reflexivity. Qed.

Lemma recent_none windowStart times :
  (∀ x, x ∈ times → x ≤ windowStart) → RateLimiter.recent windowStart times = [].
Proof.
  intros H. unfold RateLimiter.recent. apply filter_none.
  intros x Hx. apply Z.ltb_ge. by apply H.
Qed.

(** X8.  With a limit of at least one, a request is admitted as soon as the
    identifier has nothing left in the window: after [reset], and once every
    remembered request is a full window old. *)
Theorem admitted_when_window_is_clear
    (this : RateLimiter.t) (now : Z) (identifier : string) :
  0 < RateLimiter.maxRequests this →
  (RateLimiter.isAllowed now identifier (RateLimiter.reset identifier this)).1 = true
  ∧ ((∀ x, x ∈ default [] (RateLimiter.requests this !! identifier) →
           x ≤ now - RateLimiter.windowMs this) →
     (RateLimiter.isAllowed now identifier this).1 = true).
Proof.
  intros Hm. split.
  - unfold RateLimiter.isAllowed, RateLimiter.reset. simpl.
    rewrite lookup_delete_eq. simpl. by rewrite (proj2 (Z.leb_gt _ _)) by lia.
  - intros Hold. unfold RateLimiter.isAllowed.
    rewrite (recent_none _ _ Hold). simpl.
    by rewrite (proj2 (Z.leb_gt _ _)) by lia.
Qed.

Lemma admitted_when_window_is_clear_witness :
  let this := (RateLimiter.serve [("a", 0); ("a", 10)]
                 (RateLimiter.new (Some 1000) (Some 2))).2 in
  (RateLimiter.isAllowed 20 "a" this).1 = false
  ∧ (RateLimiter.isAllowed 20 "a" (RateLimiter.reset "a" this)).1 = true.
Proof.
  intros this. split; [reflexivity|].
  by apply (admitted_when_window_is_clear this 20 "a").
Defined.

(** ** The scheduling operations, beyond the count *)

Section SchedulingRows.
Context {cal : Calendar} {sch : Schema}.

Lemma adds_rows ty ids :
  ∀ s s', adds ty ids s s' →
    proactiveCalls s ⊆ proactiveCalls s'
    ∧ size (proactiveCalls s') = (size (proactiveCalls s) + length ids)%nat
    ∧ ∀ k row, proactiveCalls s' !! k = Some row → proactiveCalls s !! k = None →
        ProactiveCall.callType row = ty
        ∧ ProactiveCall.status row = SCHEDULED
        ∧ ProactiveCall.attempts row = 0
        ∧ ProactiveCall.maxAttempts row = default_maxAttempts
        ∧ ProactiveCall.actualTime row = None
        ∧ ProactiveCall.vapiCallId row = None
        ∧ ProactiveCall.reservationId row ∈ ids.
Proof.
  induction ids as [|id ids IH]; intros s s'; simpl.
  - intros ->. split; [done|]. split; [lia|]. intros k row E1 E2. congruence.
  - intros [t Ha]. destruct (IH _ _ Ha) as (Hsub & Hsize & Hnew).
    simpl in Hsub, Hsize, Hnew.
    pose proof (new_id_fresh (proactiveCalls s)) as Hfresh.
    split; [|split].
    + etrans; [|exact Hsub]. by apply insert_subseteq.
    + rewrite Hsize, map_size_insert_None by done. lia.
    + intros k row E1 E2.
      destruct (decide (k = prisma.new_id (proactiveCalls s))) as [->|Hk].
      * assert (E : proactiveCalls s' !! prisma.new_id (proactiveCalls s)
                    = Some (ProactiveCall.mk id ty t None SCHEDULED 0
                              default_maxAttempts None None)).
        { eapply lookup_weaken; [|exact Hsub]. apply lookup_insert_eq. }
        rewrite E in E1. injection E1 as <-. simpl.
        repeat split; try done. left.
      * destruct (Hnew k row E1) as (? & ? & ? & ? & ? & ? & ?).
        { by rewrite lookup_insert_ne. }
        repeat split; try done. by right.
Qed.

(** X9.  A scheduling operation only adds rows: guests, reservations and
    wake-up requests are as before, every scheduled call that was there is
    unchanged, and each new row is a SCHEDULED call of the operation's type,
    with no attempt counted, for a reservation its query selected.  The number
    returned is the number of rows added. *)
Theorem scheduling_only_adds_scheduled_calls
    (op : SchedulingOp) (h : Host) (s : Store) :
  let s' := store_after (schedule op h) s in
  guests s' = guests s
  ∧ reservations s' = reservations s
  ∧ wakeUpRequests s' = wakeUpRequests s
  ∧ proactiveCalls s ⊆ proactiveCalls s'
  ∧ result_of (schedule op h) s
    = Ok (size (proactiveCalls s') - size (proactiveCalls s))%nat
  ∧ ∀ k row,
      proactiveCalls s' !! k = Some row → proactiveCalls s !! k = None →
      ProactiveCall.callType row = callType_of op
      ∧ ProactiveCall.status row = SCHEDULED
      ∧ ProactiveCall.attempts row = 0
      ∧ ProactiveCall.actualTime row = None
      ∧ ProactiveCall.vapiCallId row = None
      ∧ ∃ r, reservations s !! ProactiveCall.reservationId row = Some r
             ∧ where_of op (clk h 0) s (ProactiveCall.reservationId row) r = true.
Proof.
  intros s'. destruct (store_after_schedule op h s) as [R A]. fold s' in A.
  destruct (adds_tables _ _ _ _ A) as (Eg & Er & Ew).
  destruct (adds_rows _ _ _ _ A) as (Hsub & Hsize & Hnew).
  split; [done|]. split; [done|]. split; [done|]. split; [done|]. split.
  - rewrite R, Hsize, length_fmap. f_equal. lia.
  - intros k row E1 E2.
    destruct (Hnew k row E1 E2) as (? & ? & ? & _ & ? & ? & Hin).
    repeat split; try done.
    apply elem_of_fst_filter in Hin as (r & Hin & Hw).
    exists r. split; [by apply elem_of_map_to_list | done].
Qed.

Lemma where_of_status op today s k r :
  where_of op today s k r = true → Reservation.status r ≠ CANCELLED.
Proof.
  destruct op; simpl;
    unfold where_preArrival, where_midStay, where_preCheckout, where_postStay;
    rewrite !andb_true_iff, bool_decide_eq_true; intros [[[-> _] _] _]; done.
Qed.

(** X10.  A cancelled reservation is never scheduled: whatever sequence of
    scheduling operations runs, the calls of a reservation that is cancelled
    (or absent) are those it had. *)
Theorem cancelled_reservation_is_never_scheduled
    (invocations : list (SchedulingOp * Host)) (s : Store)
    (reservationId : ID) (callType : CallType) :
  (∀ r, reservations s !! reservationId = Some r →
        Reservation.status r = CANCELLED) →
  callCount (after_invocations invocations s) reservationId callType
  = callCount s reservationId callType.
Proof.
  revert s. induction invocations as [|[op h] rest IH]; intros s Hs; [done|].
  simpl. destruct (store_after_schedule op h s) as [_ A].
  destruct (adds_tables _ _ _ _ A) as (_ & Er & _).
  rewrite IH by (by rewrite Er). rewrite schedule_callCount.
  rewrite bool_decide_eq_false_2; [lia|].
  intros [_ (r & Hin & Hw)%elem_of_fst_filter].
  apply elem_of_map_to_list in Hin. simpl in Hw.
  by apply where_of_status in Hw; apply Hw, Hs.
Qed.

Lemma where_of_day op t1 t2 s k r :
  startOfDay t1 = startOfDay t2 → where_of op t1 s k r = where_of op t2 s k r.
Proof.
  intros E. destruct op; simpl;
    unfold where_preArrival, where_midStay, where_preCheckout, where_postStay;
    by rewrite E.
Qed.

Lemma where_of_store op t s1 s k r :
  where_of op t s1 k r = true →
  prisma.proactiveCall.none s k (callType_of op) = true →
  where_of op t s k r = true.
Proof.
  destruct op; simpl;
    unfold where_preArrival, where_midStay, where_preCheckout, where_postStay;
    rewrite !andb_true_iff; tauto.
Qed.

(** X11.  Each of the four scheduling operations is idempotent within a
    local day: run again on the day of a first run, with nothing else writing
    in between, it schedules nothing and leaves the store as it is. *)
Theorem scheduling_is_idempotent_within_a_day
    (op : SchedulingOp) (h1 h2 : Host) (s : Store) :
  startOfDay (clk h1 0) = startOfDay (clk h2 0) →
  let s1 := store_after (schedule op h1) s in
  result_of (schedule op h2) s1 = Ok 0%nat
  ∧ store_after (schedule op h2) s1 = s1.
Proof.
  intros Hday s1.
  destruct (store_after_schedule op h1 s) as [_ A1]. fold s1 in A1.
  destruct (adds_tables _ _ _ _ A1) as (_ & Er & _).
  assert (Hnone : selected op (clk h2 0) s1 = []).
  { apply filter_none. intros [k r] Hin. simpl. rewrite Er in Hin.
    destruct (where_of op (clk h2 0) s1 k r) eqn:Ew; [|done]. exfalso.
    pose proof (where_of_none _ _ _ _ _ Ew) as Hn. apply none_callCount in Hn.
    rewrite (adds_callCount _ _ _ _ k (callType_of op) A1) in Hn.
    rewrite bool_decide_eq_true_2 in Hn by done.
    rewrite length_filter_eq_NoDup in Hn by apply selected_NoDup.
    assert (Hk : k ∈ (selected op (clk h1 0) s).*1).
    { apply list_elem_of_fmap. exists (k, r). split; [done|].
      apply list_elem_of_In, filter_In. split; [by apply list_elem_of_In|].
      simpl. rewrite (where_of_day op _ (clk h2 0)) by done.
      apply (where_of_store op _ s1); [done|]. apply none_callCount. lia. }
    rewrite bool_decide_eq_true_2 in Hn by done. lia. }
  destruct (store_after_schedule op h2 s1) as [R2 A2].
  rewrite Hnone in R2, A2. simpl in R2, A2. done.
Qed.

End SchedulingRows.

Lemma cancelled_reservation_is_never_scheduled_witness :
  callCount
    (@after_invocations utc (schema3 true)
       [ (PreArrival, Sample.host (Sample.day0 + Sample.hours 10) Sample.busy);
         (PreCheckout, Sample.host (Sample.day0 + Sample.days 3) Sample.busy);
         (PostStay, Sample.host (Sample.day0 + Sample.days 5) Sample.busy) ]
       (Sample.store CANCELLED))
    0%nat PRE_ARRIVAL
  = callCount (Sample.store CANCELLED) 0%nat PRE_ARRIVAL.
Proof.
  apply (@cancelled_reservation_is_never_scheduled utc (schema3 true)).
  intros r. vm_compute. by intros [= <-].
Defined.

Lemma scheduling_is_idempotent_within_a_day_witness :
  let h1 := Sample.host (Sample.day0 + Sample.days 3 + Sample.hours 6) Sample.busy in
  let h2 := Sample.host (Sample.day0 + Sample.days 3 + Sample.hours 20) Sample.busy in
  let s1 := store_after (@schedule utc (schema3 true) MidStay h1)
              (Sample.store CHECKED_IN) in
  result_of (@schedule utc (schema3 true) MidStay h2) s1 = Ok 0%nat
  ∧ store_after (@schedule utc (schema3 true) MidStay h2) s1 = s1.
Proof.
  intros h1 h2.
  apply (@scheduling_is_idempotent_within_a_day utc (schema3 true) MidStay h1 h2).
  vm_compute. reflexivity.
Defined.

(** The mid-stay run of that witness does schedule a call: on the 18th, for
    the stay that began on the 16th. *)
Example mid_stay_sample :
  let h1 := Sample.host (Sample.day0 + Sample.days 3 + Sample.hours 6) Sample.busy in
  run (@scheduleMidStayCalls utc (schema3 true) h1) (Sample.store CHECKED_IN)
  = (Ok 1%nat,
     with_calls (Sample.store CHECKED_IN)
       {[ 0%nat := ProactiveCall.mk 0%nat MID_STAY
                     (Sample.day0 + Sample.days 3 + Sample.hours 14)
                     None SCHEDULED 0 3 None None ]}).
Proof. vm_compute. reflexivity. Qed.

(** ** The due-job query: oldest first *)

Lemma insert_by_time_sorted x l :
  StronglySorted by_scheduledTime l →
  StronglySorted by_scheduledTime (insert_by_time x l).
Proof.
  induction 1 as [|y l Hl IH Hy]; simpl.
  - by repeat constructor.
  - destruct (_ <=? _) eqn:E.
    + apply Z.leb_le in E. constructor; [by constructor|].
      constructor; [done|]. eapply Forall_impl; [exact Hy|].
      unfold by_scheduledTime. simpl. intros z Hz. lia.
    + apply Z.leb_gt in E. constructor; [done|].
      rewrite insert_by_time_Permutation. constructor; [|done].
      unfold by_scheduledTime. lia.
Qed.

Lemma orderBy_sorted l : StronglySorted by_scheduledTime (orderBy_scheduledTime l).
Proof.
  induction l as [|x l IH]; simpl; [constructor | by apply insert_by_time_sorted].
Qed.

Lemma dueBatch_rows now ty s batch :
  dueBatch now ty s = Ok batch →
  length batch = length (dueRows now ty s)
  ∧ ∀ d, d ∈ batch → (due_id d, due_call d) ∈ dueRows now ty s.
Proof.
  intros Hb%all_ok_Forall2. split; [symmetry; by eapply Forall2_length|].
  intros d Hd. induction Hb as [|kc d' l ys Hd' _ IH]; [by apply elem_of_nil in Hd|].
  apply elem_of_cons in Hd as [->|Hd].
  - apply include_Ok in Hd' as [-> ->]. destruct kc. left.
  - right. by apply IH.
Qed.

(** X12.  Dispatch serves the oldest jobs first: a due job that a pass leaves
    out of its batch is left out because the batch is full (ten jobs), and no
    job of the batch is scheduled later than it. *)
Theorem dispatch_serves_oldest_first
    (now : Z) (callType : option CallType) (s : Store) (batch : list DueCall)
    (id : ID) (job : ProactiveCall.t) :
  dueBatch now callType s = Ok batch →
  proactiveCalls s !! id = Some job →
  isDue now callType job = true →
  id ∉ due_id <$> batch →
  length batch = 10%nat
  ∧ ∀ d, d ∈ batch →
      ProactiveCall.scheduledTime (due_call d) ≤ ProactiveCall.scheduledTime job.
Proof.
  intros Eb Hjob Hdue Hout.
  destruct (dueBatch_ids _ _ _ _ Eb) as (Eids & _ & _).
  destruct (dueBatch_rows _ _ _ _ Eb) as (Elen & Hrows).
  rewrite Eids in Hout. unfold dueRows in *.
  set (all := orderBy_scheduledTime
                (List.filter (λ kc, isDue now callType kc.2)
                   (map_to_list (proactiveCalls s)))) in *.
  assert (Hall : (id, job) ∈ all).
  { unfold all. rewrite orderBy_Permutation.
    apply list_elem_of_In, filter_In. split; [|done].
    by apply list_elem_of_In, elem_of_map_to_list. }
  assert (Hdrop : (id, job) ∈ drop 10 all).
  { rewrite <- (take_drop 10 all) in Hall.
    apply elem_of_app in Hall as [Hin|Hin]; [|done].
    destruct Hout. apply list_elem_of_fmap. by exists (id, job). }
  split.
  - rewrite Elen, length_take. apply Nat.min_l.
    destruct (decide (10 ≤ length all)%nat) as [|Hlt]; [done|].
    rewrite drop_ge in Hdrop by lia. by apply elem_of_nil in Hdrop.
  - intros d Hd. apply Hrows in Hd.
    pose proof (orderBy_sorted
                  (List.filter (λ kc, isDue now callType kc.2)
                     (map_to_list (proactiveCalls s)))) as Hs.
    fold all in Hs. rewrite <- (take_drop 10 all) in Hs.
    apply (StronglySorted_app_1_elem_of _ _ _ _ _ Hs Hd Hdrop).
Qed.

Lemma dispatch_serves_oldest_first_witness :
  let now := Sample.day0 + Sample.hours 17 in
  ∃ batch,
    dueBatch now None (backlog 11) = Ok batch
    ∧ length batch = 10%nat
    ∧ ∀ d, d ∈ batch →
        ProactiveCall.scheduledTime (due_call d) ≤ Sample.day0 + Sample.hours 16.
Proof.
  intros now.
  destruct (dueBatch now None (backlog 11)) as [batch|e] eqn:Eb;
    [|by vm_compute in Eb].
  exists batch. split; [done|].
  apply (dispatch_serves_oldest_first now None (backlog 11) batch 0%nat
           (ProactiveCall.mk 0%nat PRE_ARRIVAL (Sample.day0 + Sample.hours 16)
              None SCHEDULED 0 3 None None)).
  - exact Eb.
  - vm_compute. reflexivity.
  - vm_compute. reflexivity.
  - vm_compute in Eb. injection Eb as <-. vm_compute.
    intros Hin. repeat (apply elem_of_cons in Hin as [Hin|Hin]; [discriminate|]).
    by apply elem_of_nil in Hin.
Defined.

(** ** What a dispatch pass writes *)

Lemma pass_eval_w h ty w :
  match dueBatch (clk h (reads w)) ty (db w) with
  | Throw e =>
      processScheduledCalls h ty w = (Throw e, mkWorld (db w) (S (reads w)))
  | Ok batch =>
      ∃ calls',
        processScheduledCalls h ty w
        = (Ok (length (acceptedCalls h batch)),
           mkWorld (with_calls (db w) calls') (S (reads w)))
        ∧ (∀ d, d ∈ batch →
             proactiveCalls (db w) !! due_id d = Some (due_call d)
             ∧ calls' !! due_id d = Some (settle h (clk h (reads w)) d))
        ∧ (∀ k, k ∉ due_id <$> batch → calls' !! k = proactiveCalls (db w) !! k)
  end.
Proof.
  unfold processScheduledCalls.
  erewrite bind_Ok by reflexivity. erewrite bind_Ok by reflexivity. simpl.
  destruct (dueBatch (clk h (reads w)) ty (db w)) as [batch|e] eqn:Eb.
  - erewrite bind_Ok by reflexivity.
    destruct (dueBatch_ids _ _ _ _ Eb) as (_ & Hnd & Hrows).
    destruct (dispatch_loop h (clk h (reads w)) batch Hnd 0%nat
                (mkWorld (db w) (S (reads w)))) as (calls' & E & Hin & Hout).
    { intros d Hd. by apply Hrows. }
    exists calls'. rewrite E. split; [done|]. split; [|done].
    intros d Hd. split; [by apply Hrows | by apply Hin].
  - by erewrite bind_Throw by reflexivity.
Qed.

Lemma settle_key h now d : call_key (settle h now d) = call_key (due_call d).
Proof. unfold settle. by destruct (success _). Qed.

(** A pass writes to the rows of its batch only, and never to the columns
    that say what a call is for. *)
Lemma pass_frame h ty w :
  let w' := (processScheduledCalls h ty w).2 in
  guests (db w') = guests (db w)
  ∧ reservations (db w') = reservations (db w)
  ∧ wakeUpRequests (db w') = wakeUpRequests (db w)
  ∧ (∀ k, k ∉ (dueRows (clk h (reads w)) ty (db w)).*1 →
          proactiveCalls (db w') !! k = proactiveCalls (db w) !! k)
  ∧ ∀ k, call_key <$> proactiveCalls (db w') !! k
         = call_key <$> proactiveCalls (db w) !! k.
Proof.
  pose proof (pass_eval_w h ty w) as P.
  destruct (dueBatch (clk h (reads w)) ty (db w)) as [batch|e] eqn:Eb.
  - destruct P as (calls' & -> & Hin & Hout). simpl.
    destruct (dueBatch_ids _ _ _ _ Eb) as (Eids & _ & _). rewrite <- Eids.
    repeat split; try done.
    intros k. destruct (decide (k ∈ due_id <$> batch)) as [Hk|Hk].
    + apply list_elem_of_fmap in Hk as (d & -> & Hd).
      destruct (Hin d Hd) as [-> ->]. simpl. by rewrite settle_key.
    + by rewrite Hout.
  - rewrite P. simpl. done.
Qed.

Lemma length_filter_fmap {A B} (f : A → B) (P : B → Prop) `{∀ b, Decision (P b)}
    (l : list A) :
  length (filter P (f <$> l)) = length (filter (λ a, P (f a)) l).
Proof.
  induction l as [|a l IH]; [done|].
  rewrite fmap_cons, !filter_cons. destruct (decide (P (f a))); simpl; by rewrite IH.
Qed.

Lemma callCount_ext s s' rid ty :
  (∀ k, call_key <$> proactiveCalls s' !! k = call_key <$> proactiveCalls s !! k) →
  callCount s' rid ty = callCount s rid ty.
Proof.
  intros Hk.
  assert (E : call_key <$> proactiveCalls s' = call_key <$> proactiveCalls s).
  { apply map_eq. intros k. by rewrite !lookup_fmap. }
  assert (Hc : ∀ m : gmap ID ProactiveCall.t,
    length (filter (λ kc : ID * ProactiveCall.t,
                      ProactiveCall.reservationId kc.2 = rid
                      ∧ ProactiveCall.callType kc.2 = ty) (map_to_list m))
    = length (filter (λ kp : ID * (ID * CallType), kp.2.1 = rid ∧ kp.2.2 = ty)
                (map_to_list (call_key <$> m)))).
  { intros m. rewrite map_to_list_fmap.
    by rewrite (length_filter_fmap (prod_map id call_key)
                  (λ kp : ID * (ID * CallType), kp.2.1 = rid ∧ kp.2.2 = ty)). }
  unfold callCount. by rewrite !Hc, E.
Qed.

(** X13.  A dispatch pass selects at most ten jobs and writes to nothing
    else: guests, reservations and wake-up requests are as before, no
    scheduled call is created or deleted, and every row outside the batch is
    unchanged. *)
Theorem dispatch_touches_only_its_batch
    (h : Host) (callType : option CallType) (s : Store) :
  let s' := store_after (processScheduledCalls h callType) s in
  (length (dueRows (clk h 0) callType s) ≤ 10)%nat
  ∧ guests s' = guests s
  ∧ reservations s' = reservations s
  ∧ wakeUpRequests s' = wakeUpRequests s
  ∧ dom (proactiveCalls s') = dom (proactiveCalls s)
  ∧ ∀ k, k ∉ (dueRows (clk h 0) callType s).*1 →
         proactiveCalls s' !! k = proactiveCalls s !! k.
Proof.
  intros s'. split; [unfold dueRows; rewrite length_take; lia|].
  destruct (pass_frame h callType (mkWorld s 0)) as (Eg & Er & Ew & Hout & Hkey).
  unfold s', store_after, run.
  destruct (processScheduledCalls h callType (mkWorld s 0)) as [r w'].
  simpl in *. repeat split; try done.
  apply set_eq. intros k. rewrite !elem_of_dom. specialize (Hkey k).
  destruct (proactiveCalls (db w') !! k), (proactiveCalls s !! k);
    simpl in Hkey; try done; split; intros [? ?]; done.
Qed.

(** X14.  Dispatch never changes what a scheduled call is a call for, so the
    number of calls of every reservation and call type is the same after a
    pass as before. *)
Theorem dispatch_preserves_call_counts
    (h : Host) (callType : option CallType) (s : Store)
    (reservationId : ID) (ty : CallType) :
  callCount (store_after (processScheduledCalls h callType) s) reservationId ty
  = callCount s reservationId ty.
Proof.
  apply callCount_ext.
  destruct (pass_frame h callType (mkWorld s 0)) as (_ & _ & _ & _ & Hkey).
  unfold store_after, run.
  destruct (processScheduledCalls h callType (mkWorld s 0)) as [r w'].
  exact Hkey.
Qed.

(** A row the due-job predicate rejects at every time and under every filter
    is never selected nor changed again. *)
Lemma never_due_is_final id row :
  (∀ now ty, isDue now ty row = false) →
  ∀ passes s,
    proactiveCalls s !! id = Some row →
    proactiveCalls (after_passes passes s) !! id = Some row
    ∧ ∀ h ty, dispatched h ty (after_passes passes s) id = None.
Proof.
  intros Hnever passes. induction passes as [|[h ty] passes IH]; intros s E.
  - split; [done|]. intros h ty. by apply (not_due_pass h ty s id row E).
  - simpl. apply IH. by apply (not_due_pass h ty s id row E).
Qed.

(** X15.  A job the gateway accepts is left IN_PROGRESS, with the attempt
    counted, the time of the attempt and the gateway's call id recorded and
    its scheduled time unchanged; dispatch never selects it or changes it
    again. *)
Theorem accepted_call_stays_in_progress
    (h : Host) (callType : option CallType) (s : Store)
    (batch : list DueCall) (d : DueCall) :
  dueBatch (clk h 0) callType s = Ok batch →
  d ∈ batch →
  success (placeCall h d) = true →
  let s1 := store_after (processScheduledCalls h callType) s in
  ∃ row,
    proactiveCalls s1 !! due_id d = Some row
    ∧ ProactiveCall.status row = IN_PROGRESS
    ∧ ProactiveCall.attempts row = ProactiveCall.attempts (due_call d) + 1
    ∧ ProactiveCall.actualTime row = Some (clk h 0)
    ∧ ProactiveCall.scheduledTime row = ProactiveCall.scheduledTime (due_call d)
    ∧ ProactiveCall.vapiCallId row
      = set_if_defined (callId (placeCall h d)) (ProactiveCall.vapiCallId (due_call d))
    ∧ ∀ passes,
        proactiveCalls (after_passes passes s1) !! due_id d = Some row
        ∧ ∀ h' ty, dispatched h' ty (after_passes passes s1) (due_id d) = None.
Proof.
  intros Eb Hd Hok s1. exists (settle h (clk h 0) d).
  pose proof (pass_row h callType s batch d Eb Hd) as Hrow. fold s1 in Hrow.
  split; [done|].
  do 5 (split; [by unfold settle; rewrite Hok|]).
  intros passes.
  apply (never_due_is_final (due_id d) (settle h (clk h 0) d)); [|done].
  intros now ty. unfold settle. by rewrite Hok.
Qed.

Lemma accepted_call_stays_in_progress_witness :
  let h := Sample.host (Sample.day0 + Sample.hours 16 + 300000) Sample.accepted in
  let s1 := store_after (processScheduledCalls h None) Sample.store_with_job in
  ∃ row,
    proactiveCalls s1 !! 0%nat = Some row
    ∧ ProactiveCall.status row = IN_PROGRESS
    ∧ ProactiveCall.attempts row = 0 + 1
    ∧ ProactiveCall.actualTime row = Some (clk h 0)
    ∧ ProactiveCall.scheduledTime row = Sample.day0 + Sample.hours 16
    ∧ ProactiveCall.vapiCallId row = Some "call-1"
    ∧ ∀ passes,
        proactiveCalls (after_passes passes s1) !! 0%nat = Some row
        ∧ ∀ h' ty, dispatched h' ty (after_passes passes s1) 0%nat = None.
Proof.
  intros h.
  apply (accepted_call_stays_in_progress h None Sample.store_with_job
           [mkDue 0%nat Sample.job 0%nat (Sample.stay CONFIRMED) Sample.john]
           (mkDue 0%nat Sample.job 0%nat (Sample.stay CONFIRMED) Sample.john)).
  - vm_compute. reflexivity.
  - left.
  - vm_compute. reflexivity.
Defined.

(** X16.  A job whose gateway invocation fails with its attempts used up
    (the count after this attempt has reached [maxAttempts]) is marked FAILED
    with the gateway's error as its notes, and dispatch never selects it or
    changes it again. *)
Theorem exhausted_attempts_mark_failed
    (h : Host) (callType : option CallType) (s : Store)
    (batch : list DueCall) (d : DueCall) :
  dueBatch (clk h 0) callType s = Ok batch →
  d ∈ batch →
  success (placeCall h d) = false →
  ProactiveCall.maxAttempts (due_call d) ≤ ProactiveCall.attempts (due_call d) + 1 →
  let s1 := store_after (processScheduledCalls h callType) s in
  ∃ row message,
    proactiveCalls s1 !! due_id d = Some row
    ∧ error (placeCall h d) = Some message
    ∧ ProactiveCall.status row = FAILED
    ∧ ProactiveCall.notes row = Some message
    ∧ ProactiveCall.attempts row = ProactiveCall.attempts (due_call d) + 1
    ∧ ∀ passes,
        proactiveCalls (after_passes passes s1) !! due_id d = Some row
        ∧ ∀ h' ty, dispatched h' ty (after_passes passes s1) (due_id d) = None.
Proof.
  intros Eb Hd Hfail Hmax s1.
  destruct (makeOutboundCall_failure _ _ _ _ Hfail) as [message Em].
  fold (placeCall h d) in Em.
  exists (settle h (clk h 0) d), message.
  pose proof (pass_row h callType s batch d Eb Hd) as Hrow. fold s1 in Hrow.
  assert (Est : ProactiveCall.status (settle h (clk h 0) d) = FAILED).
  { unfold settle. rewrite Hfail. simpl. by rewrite (proj2 (Z.leb_le _ _)) by lia. }
  split; [done|]. split; [done|]. split; [done|].
  split; [unfold settle; rewrite Hfail, Em; done|].
  split; [unfold settle; rewrite Hfail; done|].
  intros passes.
  apply (never_due_is_final (due_id d) (settle h (clk h 0) d)); [|done].
  intros now ty. unfold isDue. by rewrite Est.
Qed.

Lemma exhausted_attempts_mark_failed_witness :
  let h := Sample.host (Sample.day0 + Sample.hours 16 + 300000) Sample.busy in
  let last := ProactiveCall.mk 0%nat PRE_ARRIVAL (Sample.day0 + Sample.hours 16)
                None SCHEDULED 2 3 None None in
  let s := with_calls Sample.store_with_job {[ 0%nat := last ]} in
  let s1 := store_after (processScheduledCalls h None) s in
  ∃ row message,
    proactiveCalls s1 !! 0%nat = Some row
    ∧ error (placeCall h (mkDue 0%nat last 0%nat (Sample.stay CONFIRMED) Sample.john))
      = Some message
    ∧ ProactiveCall.status row = FAILED
    ∧ ProactiveCall.notes row = Some message
    ∧ ProactiveCall.attempts row = 2 + 1
    ∧ ∀ passes,
        proactiveCalls (after_passes passes s1) !! 0%nat = Some row
        ∧ ∀ h' ty, dispatched h' ty (after_passes passes s1) 0%nat = None.
Proof.
  intros h last s.
  apply (exhausted_attempts_mark_failed h None s
           [mkDue 0%nat last 0%nat (Sample.stay CONFIRMED) Sample.john]
           (mkDue 0%nat last 0%nat (Sample.stay CONFIRMED) Sample.john)).
  - vm_compute. reflexivity.
  - left.
  - vm_compute. reflexivity.
  - simpl. lia.
Defined.

(** X17.  The due-job query stops at three attempts whatever the row's
    [maxAttempts]: a job with a larger budget, after three passes in which
    the gateway fails for it, is still SCHEDULED with three attempts counted,
    is rejected by the due-job predicate at every time and under every
    filter, and no later pass selects it, changes it or marks it FAILED. *)
Theorem three_attempts_strand_a_larger_budget
    (h1 h2 h3 : Host) (t1 t2 t3 : option CallType)
    (s0 : Store) (id : ID) (job : ProactiveCall.t) :
  proactiveCalls s0 !! id = Some job →
  ProactiveCall.attempts job = 0 →
  3 < ProactiveCall.maxAttempts job →
  let s1 := store_after (processScheduledCalls h1 t1) s0 in
  let s2 := store_after (processScheduledCalls h2 t2) s1 in
  let s3 := store_after (processScheduledCalls h3 t3) s2 in
  gateway_failed (dispatched h1 t1 s0 id) = true →
  gateway_failed (dispatched h2 t2 s1 id) = true →
  gateway_failed (dispatched h3 t3 s2 id) = true →
  ∃ job3,
    proactiveCalls s3 !! id = Some job3
    ∧ ProactiveCall.status job3 = SCHEDULED
    ∧ ProactiveCall.attempts job3 = 3
    ∧ (∀ now callType, isDue now callType job3 = false)
    ∧ ∀ passes,
        proactiveCalls (after_passes passes s3) !! id = Some job3
        ∧ ∀ h callType, dispatched h callType (after_passes passes s3) id = None.
Proof.
  intros Hjob Ha Hm s1 s2 s3 F1 F2 F3.
  destruct (failed_pass h1 t1 s0 id job Hjob F1) as [n1 E1]. fold s1 in E1.
  destruct (failed_pass h2 t2 s1 id _ E1 F2) as [n2 E2]. fold s2 in E2.
  destruct (failed_pass h3 t3 s2 id _ E2 F3) as [n3 E3]. fold s3 in E3.
  simpl in E1, E2, E3. rewrite Ha in E1, E2, E3. simpl in E1, E2, E3.
  rewrite !(proj2 (Z.leb_gt _ _)) in E3 by lia.
  eexists. split; [exact E3|]. split; [done|]. split; [simpl; lia|].
  assert (Hnever : ∀ now callType, isDue now callType
    (data_retry SCHEDULED n3 (addHours (clk h3 0) 1)
       (data_in_progress (clk h3 0)
          (data_retry SCHEDULED n2 (addHours (clk h2 0) 1)
             (data_in_progress (clk h2 0)
                (data_retry SCHEDULED n1 (addHours (clk h1 0) 1)
                   (data_in_progress (clk h1 0) job)))))) = false).
  { intros now ty. unfold isDue. simpl. rewrite Ha. simpl.
    by rewrite andb_false_r. }
  split; [exact Hnever|].
  intros passes. by apply never_due_is_final.
Qed.

Lemma three_attempts_strand_a_larger_budget_witness :
  let t := Sample.day0 + Sample.hours 16 + 300000 in
  let h1 := Sample.host t Sample.busy in
  let h2 := Sample.host (t + Sample.hours 1) Sample.busy in
  let h3 := Sample.host (t + Sample.hours 2) Sample.busy in
  let patient := ProactiveCall.mk 0%nat PRE_ARRIVAL (Sample.day0 + Sample.hours 16)
                   None SCHEDULED 0 5 None None in
  let s0 := with_calls Sample.store_with_job {[ 0%nat := patient ]} in
  let s1 := store_after (processScheduledCalls h1 None) s0 in
  let s2 := store_after (processScheduledCalls h2 None) s1 in
  let s3 := store_after (processScheduledCalls h3 None) s2 in
  ∃ job3,
    proactiveCalls s3 !! 0%nat = Some job3
    ∧ ProactiveCall.status job3 = SCHEDULED
    ∧ ProactiveCall.attempts job3 = 3
    ∧ (∀ now callType, isDue now callType job3 = false)
    ∧ ∀ passes,
        proactiveCalls (after_passes passes s3) !! 0%nat = Some job3
        ∧ ∀ h callType, dispatched h callType (after_passes passes s3) 0%nat = None.
Proof.
  intros t h1 h2 h3 patient s0.
  apply (three_attempts_strand_a_larger_budget h1 h2 h3 None None None
           s0 0%nat patient);
    vm_compute; reflexivity.
Defined.

(** X18.  Without the gateway's credentials a pass still takes its batch:
    it returns 0, and every job of the batch has an attempt counted, the note
    "VAPI not configured", and is rescheduled one hour later, or marked FAILED
    when its attempts are used up. *)
Theorem unconfigured_gateway_costs_an_attempt
    (h : Host) (callType : option CallType) (s : Store) (batch : list DueCall) :
  vapi_unconfigured h = true →
  dueBatch (clk h 0) callType s = Ok batch →
  result_of (processScheduledCalls h callType) s = Ok 0%nat
  ∧ ∀ d, d ∈ batch →
      ∃ row,
        proactiveCalls (store_after (processScheduledCalls h callType) s) !! due_id d
        = Some row
        ∧ ProactiveCall.attempts row = ProactiveCall.attempts (due_call d) + 1
        ∧ ProactiveCall.notes row = Some "VAPI not configured"
        ∧ ProactiveCall.scheduledTime row = clk h 0 + 3600000
        ∧ ProactiveCall.status row
          = if ProactiveCall.maxAttempts (due_call d)
               <=? ProactiveCall.attempts (due_call d) + 1
            then FAILED else SCHEDULED.
Proof.
  intros Hun Eb.
  assert (Hcall : ∀ d, placeCall h d
                       = mkResult false None (Some "VAPI not configured")).
  { intros d. unfold placeCall, makeOutboundCall.
    unfold vapi_unconfigured in Hun. by rewrite Hun. }
  split.
  - unfold result_of. pose proof (pass_eval h callType s) as P. rewrite Eb in P.
    destruct P as (calls' & -> & _). simpl. f_equal.
    unfold acceptedCalls. rewrite filter_none; [done|].
    intros d _. by rewrite Hcall.
  - intros d Hd. exists (settle h (clk h 0) d).
    split; [by apply (pass_row h callType s batch)|].
    unfold settle. rewrite Hcall. simpl.
    unfold addHours, millisecondsInHour. repeat split; lia.
Qed.

Lemma unconfigured_gateway_costs_an_attempt_witness :
  let h := mkHost ∅ (λ _, Sample.day0 + Sample.hours 17) (λ _ _, Sample.accepted)
             (λ _ _ _ _, Ok []) (λ _ _, Throw Thrown) in
  result_of (processScheduledCalls h None) Sample.store_with_job = Ok 0%nat
  ∧ ∀ d, d ∈ [mkDue 0%nat Sample.job 0%nat (Sample.stay CONFIRMED) Sample.john] →
      ∃ row,
        proactiveCalls (store_after (processScheduledCalls h None) Sample.store_with_job)
          !! due_id d = Some row
        ∧ ProactiveCall.attempts row = ProactiveCall.attempts (due_call d) + 1
        ∧ ProactiveCall.notes row = Some "VAPI not configured"
        ∧ ProactiveCall.scheduledTime row = clk h 0 + 3600000
        ∧ ProactiveCall.status row
          = if ProactiveCall.maxAttempts (due_call d)
               <=? ProactiveCall.attempts (due_call d) + 1
            then FAILED else SCHEDULED.
Proof.
  intros h.
  apply (unconfigured_gateway_costs_an_attempt h None Sample.store_with_job).
  - vm_compute. reflexivity.
  - vm_compute. reflexivity.
Defined.

(** ** Frames: what a computation keeps *)

Lemma store_after_db {A} (m : M A) s : store_after m s = db (m (mkWorld s 0)).2.
Proof. unfold store_after, run. by destruct (m (mkWorld s 0)). Qed.

Section Keeps.
Context (R : relation Store) `{!PreOrder R}.

Lemma keeps_ret {A} (a : A) : keeps R (mret a).
Proof. intros w. reflexivity. Qed.

Lemma keeps_throw {A} e : keeps R (@throw A e).
Proof. intros w. reflexivity. Qed.

Lemma keeps_lift {A} (r : Res A) : keeps R (lift r).
Proof. intros w. reflexivity. Qed.

Lemma keeps_get_db : keeps R get_db.
Proof. intros w. reflexivity. Qed.

Lemma keeps_new_Date h : keeps R (new_Date h).
Proof. intros w. reflexivity. Qed.

Lemma keeps_bind {A B} (m : M A) (f : A → M B) :
  keeps R m → (∀ a, keeps R (f a)) → keeps R (m ≫= f).
Proof.
  intros Hm Hf w. unfold mbind, M_bind. specialize (Hm w).
  destruct (m w) as [[a|e] w1]; simpl in *; [|done].
  etrans; [exact Hm | apply Hf].
Qed.

Lemma keeps_try_catch {A} (m : M A) (handler : Exn → M A) :
  keeps R m → (∀ e, keeps R (handler e)) → keeps R (try_catch m handler).
Proof.
  intros Hm Hh w. unfold try_catch. specialize (Hm w).
  destruct (m w) as [[a|e] w1]; simpl in *; [done|].
  etrans; [exact Hm | apply Hh].
Qed.

Lemma keeps_for_of {A S} (xs : list A) (body : S → A → M S) :
  (∀ acc x, keeps R (body acc x)) → ∀ acc, keeps R (for_of xs body acc).
Proof.
  intros Hb. induction xs as [|x xs IH]; intros acc; simpl.
  - apply keeps_ret.
  - apply keeps_bind; [apply Hb | apply IH].
Qed.

End Keeps.

(** ** Wake-up sweeps, row by row *)

Section WakeUpRows.
Context {cal : Calendar}.

Lemma wakeUpBatch_NoDup now s : NoDup (wakeUpBatch now s).*1.
Proof.
  unfold wakeUpBatch. rewrite fmap_take.
  eapply sublist_NoDup; [|apply sublist_take].
  apply NoDup_fst_filter, NoDup_fst_map_to_list.
Qed.

Lemma sweep_other h s k :
  k ∉ (wakeUpBatch (clk h 0) s).*1 →
  wakeUpRequests (store_after (processWakeUpCalls h) s) !! k = wakeUpRequests s !! k.
Proof.
  intros Hout. unfold store_after, run, processWakeUpCalls.
  erewrite bind_Ok by reflexivity. erewrite bind_Ok by reflexivity. simpl.
  pose proof (wakeUp_loop_other h (clk h 0) _ 0%nat (mkWorld s 1) k Hout) as E.
  destruct (for_of _ _ _ _) as [r w']. simpl in *. by rewrite E.
Qed.

Lemma settled_is_not_selected h s id request :
  wakeUpRequests s !! id = Some request →
  WakeUpRequest.status request ≠ PENDING →
  id ∉ (wakeUpBatch (clk h 0) s).*1.
Proof.
  intros Hreq Hst ([k r] & -> & Hin)%list_elem_of_fmap.
  apply wakeUpBatch_elem in Hin as [Hrow Hdue]. simpl in *.
  rewrite Hreq in Hrow. injection Hrow as <-.
  unfold isDueWakeUp in Hdue.
  rewrite !andb_true_iff, bool_decide_eq_true in Hdue. tauto.
Qed.

Lemma settled_after_sweeps hosts :
  ∀ s id request,
    wakeUpRequests s !! id = Some request →
    WakeUpRequest.status request ≠ PENDING →
    wakeUpRequests (after_sweeps hosts s) !! id = Some request.
Proof.
  induction hosts as [|h hosts IH]; intros s id request Hreq Hst; [done|].
  simpl. apply IH; [|done].
  rewrite sweep_other; [done|]. by apply (settled_is_not_selected h s id request).
Qed.

(** X19.  A request that is no longer pending (completed or failed) is
    final: no sequence of wake-up sweeps selects it or changes it. *)
Theorem settled_wake_up_is_final
    (hosts : list Host) (s : Store) (id : ID) (request : WakeUpRequest.t) :
  wakeUpRequests s !! id = Some request →
  WakeUpRequest.status request ≠ PENDING →
  wakeUpRequests (after_sweeps hosts s) !! id = Some request
  ∧ ∀ h, id ∉ (wakeUpBatch (clk h 0) (after_sweeps hosts s)).*1.
Proof.
  intros Hreq Hst.
  pose proof (settled_after_sweeps hosts s id request Hreq Hst) as E.
  split; [done|]. intros h.
  by apply (settled_is_not_selected h _ id request).
Qed.

Lemma keeps_wu_update id data :
  (∀ row, WakeUpRequest.roomNumber (data row) = WakeUpRequest.roomNumber row
          ∧ WakeUpRequest.requestedTime (data row) = WakeUpRequest.requestedTime row
          ∧ WakeUpRequest.attempts row ≤ WakeUpRequest.attempts (data row)) →
  keeps wakeUp_frame (prisma.wakeUpRequest.update id data).
Proof.
  intros Hdata w.
  unfold prisma.wakeUpRequest.update, mbind, M_bind, get_db, set_db, throw. simpl.
  destruct (wakeUpRequests (db w) !! id) as [row|] eqn:E; simpl; [|reflexivity].
  repeat split; try done. simpl. intros k.
  destruct (decide (k = id)) as [->|Hk].
  - rewrite lookup_insert_eq, E. simpl. apply Hdata.
  - rewrite lookup_insert_ne by done.
    by destruct (reflexivity (R := wakeUp_frame) (db w)) as (_ & _ & _ & Hr).
Qed.

Lemma keeps_wakeUpOne h now n request :
  keeps wakeUp_frame (wakeUpOne h now n request).
Proof.
  unfold wakeUpOne. apply keeps_bind; [apply _| |].
  - unfold prisma.reservation.findFirst_with_guest.
    apply keeps_bind; [apply _ | apply keeps_get_db; apply _ |]. intros s.
    destruct (find _ _) as [[k r]|]; [|apply keeps_ret; apply _].
    destruct (guests s !! _); [apply keeps_ret | apply keeps_throw]; apply _.
  - intros [[[k r] g]|].
    + apply keeps_bind; [apply _ | |].
      * apply keeps_wu_update. intros row. simpl. repeat split; [done..|lia].
      * intros _. destruct (success _).
        -- apply keeps_bind; [apply _ | | intros _; apply keeps_ret; apply _].
           apply keeps_wu_update. intros row. simpl. repeat split; [done..|lia].
        -- destruct (2 <=? _); [|apply keeps_ret; apply _].
           apply keeps_bind; [apply _ | | intros _; apply keeps_ret; apply _].
           apply keeps_wu_update. intros row. simpl. repeat split; [done..|lia].
    + apply keeps_bind; [apply _ | | intros _; apply keeps_ret; apply _].
      apply keeps_wu_update. intros row. simpl. repeat split; [done..|lia].
Qed.

Lemma keeps_processWakeUpCalls h : keeps wakeUp_frame (processWakeUpCalls h).
Proof.
  unfold processWakeUpCalls.
  apply keeps_bind; [apply _ | apply keeps_new_Date; apply _ |]. intros now.
  apply keeps_bind; [apply _ | apply keeps_get_db; apply _ |]. intros s.
  apply keeps_for_of; [apply _|]. intros n request. apply keeps_wakeUpOne.
Qed.

(** X20.  Wake-up sweeps write to wake-up requests only, whether they
    return or throw: guests, reservations and scheduled calls are as before;
    no request is created or deleted; no request changes its room or its
    requested time; and the attempts of a request never go down. *)
Theorem wake_up_sweeps_write_requests_only (hosts : list Host) (s : Store) :
  let s' := after_sweeps hosts s in
  guests s' = guests s
  ∧ reservations s' = reservations s
  ∧ proactiveCalls s' = proactiveCalls s
  ∧ dom (wakeUpRequests s') = dom (wakeUpRequests s)
  ∧ ∀ k r r',
      wakeUpRequests s !! k = Some r → wakeUpRequests s' !! k = Some r' →
      WakeUpRequest.roomNumber r' = WakeUpRequest.roomNumber r
      ∧ WakeUpRequest.requestedTime r' = WakeUpRequest.requestedTime r
      ∧ WakeUpRequest.attempts r ≤ WakeUpRequest.attempts r'.
Proof.
  intros s'.
  assert (F : wakeUp_frame s s').
  { unfold s'. clear s'. revert s. induction hosts as [|h hosts IH]; intros s.
    - reflexivity.
    - simpl. etrans; [|apply IH].
      rewrite store_after_db. apply (keeps_processWakeUpCalls h (mkWorld s 0)). }
  destruct F as (Eg & Er & Ep & Hrows).
  split; [done|]. split; [done|]. split; [done|]. split.
  - apply set_eq. intros k. rewrite !elem_of_dom. specialize (Hrows k).
    unfold wakeUp_evolves in Hrows.
    destruct (wakeUpRequests s !! k), (wakeUpRequests s' !! k); try done;
      split; intros [? ?]; done.
  - intros k r r' E E'. specialize (Hrows k). by rewrite E, E' in Hrows.
Qed.

(** One turn of the loop on a store whose reservations have their guests. *)
Lemma wakeUpOne_eval h now n request w s :
  guests (db w) = guests s →
  reservations (db w) = reservations s →
  guests_resolve s = true →
  wakeUpRequests (db w) !! request.1 = Some request.2 →
  wakeUpOne h now n request w
  = (Ok (n + if wake_served h now s request then 1 else 0)%nat,
     mkWorld
       (mkStore (guests (db w)) (reservations (db w)) (proactiveCalls (db w))
          (<[request.1 := wake_settle h now s request]> (wakeUpRequests (db w))))
       (reads w)).
Proof.
  intros Eg Er Hres Hrow.
  unfold wakeUpOne, wake_served, wake_settle, occupant,
    prisma.reservation.findFirst_with_guest,
    prisma.wakeUpRequest.update, mbind, M_bind, mret, M_ret, get_db, set_db, throw.
  simpl. rewrite Er.
  destruct (find _ (map_to_list (reservations s))) as [[k r]|] eqn:Ef; simpl.
  - assert (Hg : is_Some (guests s !! Reservation.guestId r)).
    { apply find_some in Ef as [Hin _].
      unfold guests_resolve in Hres. rewrite forallb_forall in Hres.
      apply Hres in Hin. by apply bool_decide_eq_true_1 in Hin. }
    destruct Hg as [g Hg]. rewrite Eg, Hg. simpl. rewrite Hrow. simpl.
    destruct (success _); simpl.
    + rewrite lookup_insert_eq. simpl. rewrite insert_insert_eq.
      by rewrite ?Eg, ?Er, Nat.add_1_r.
    + destruct (2 <=? _); simpl.
      * rewrite lookup_insert_eq. simpl. rewrite insert_insert_eq.
        by rewrite ?Eg, ?Er, Nat.add_0_r.
      * by rewrite ?Eg, ?Er, Nat.add_0_r.
  - rewrite Hrow. simpl. by rewrite ?Eg, ?Er, Nat.add_0_r.
Qed.

Lemma wakeUp_loop_eval h now s batch :
  guests_resolve s = true →
  NoDup batch.*1 →
  ∀ n w,
    guests (db w) = guests s →
    reservations (db w) = reservations s →
    (∀ kr, kr ∈ batch → wakeUpRequests (db w) !! kr.1 = Some kr.2) →
    ∃ requests',
      for_of batch (wakeUpOne h now) n w
      = (Ok (n + length (List.filter (wake_served h now s) batch))%nat,
         mkWorld (mkStore (guests (db w)) (reservations (db w))
                    (proactiveCalls (db w)) requests') (reads w))
      ∧ (∀ kr, kr ∈ batch → requests' !! kr.1 = Some (wake_settle h now s kr))
      ∧ (∀ k, k ∉ batch.*1 → requests' !! k = wakeUpRequests (db w) !! k).
Proof.
  intros Hres. induction batch as [|request batch IH]; intros Hnd n w Eg Er Hrows.
  - exists (wakeUpRequests (db w)). rewrite for_of_nil. simpl.
    rewrite Nat.add_0_r. destruct w as [[] ?]. split; [done|]. split; [|done].
    intros kr Hkr. by apply elem_of_nil in Hkr.
  - rewrite fmap_cons in Hnd. apply NoDup_cons in Hnd as [Hk Hnd].
    rewrite for_of_cons, (wakeUpOne_eval h now n request w s)
      by (try done; apply Hrows; left).
    edestruct (IH Hnd) as (requests' & E & Hin & Hout); [..|rewrite E].
    + exact Eg.
    + exact Er.
    + intros kr Hkr. simpl. rewrite lookup_insert_ne.
      * apply Hrows. by right.
      * intros Eid. apply Hk. rewrite Eid. by apply list_elem_of_fmap_2.
    + exists requests'. simpl. split; [|split].
      * f_equal. f_equal. destruct (wake_served h now s request); simpl; lia.
      * intros kr [->|Hkr]%elem_of_cons; [|by apply Hin].
        rewrite Hout by done. simpl. apply lookup_insert_eq.
      * intros k Hk'. apply not_elem_of_cons in Hk' as [Hk1 Hk2].
        rewrite Hout by done. simpl. by apply lookup_insert_ne.
Qed.

(** One sweep, evaluated. *)
Lemma sweep_eval h s :
  guests_resolve s = true →
  ∃ requests',
    run (processWakeUpCalls h) s
    = (Ok (length (List.filter (wake_served h (clk h 0) s) (wakeUpBatch (clk h 0) s))),
       mkStore (guests s) (reservations s) (proactiveCalls s) requests')
    ∧ (∀ kr, kr ∈ wakeUpBatch (clk h 0) s →
             requests' !! kr.1 = Some (wake_settle h (clk h 0) s kr))
    ∧ (∀ k, k ∉ (wakeUpBatch (clk h 0) s).*1 → requests' !! k = wakeUpRequests s !! k).
Proof.
  intros Hres. unfold run, processWakeUpCalls.
  erewrite bind_Ok by reflexivity. erewrite bind_Ok by reflexivity. simpl.
  destruct (wakeUp_loop_eval h (clk h 0) s (wakeUpBatch (clk h 0) s) Hres
              (wakeUpBatch_NoDup _ _) 0%nat (mkWorld s 1))
    as (requests' & E & Hin & Hout); [done | done | |].
  - intros kr Hkr. by apply wakeUpBatch_elem in Hkr as [? _].
  - exists requests'. rewrite E. done.
Qed.

(** X21.  A selected request whose room has no checked-in reservation is
    marked FAILED at once: no attempt is counted and the gateway is not
    asked; being settled, it is never tried again. *)
Theorem wake_up_without_checked_in_guest_fails
    (h : Host) (s : Store) (id : ID) (request : WakeUpRequest.t) :
  guests_resolve s = true →
  (id, request) ∈ wakeUpBatch (clk h 0) s →
  occupant s (WakeUpRequest.roomNumber request) = None →
  let s' := store_after (processWakeUpCalls h) s in
  wakeUpRequests s' !! id = Some (data_wu_status WU_FAILED request)
  ∧ ∀ hosts, wakeUpRequests (after_sweeps hosts s') !! id
             = Some (data_wu_status WU_FAILED request).
Proof.
  intros Hres Hin Hocc s'.
  destruct (sweep_eval h s Hres) as (requests' & E & Hrows & _).
  assert (Hrow : wakeUpRequests s' !! id = Some (data_wu_status WU_FAILED request)).
  { unfold s', store_after. rewrite E. simpl.
    pose proof (Hrows _ Hin) as Hr. simpl in Hr. rewrite Hr.
    unfold wake_settle. simpl. by rewrite Hocc. }
  split; [done|]. intros hosts. by apply settled_after_sweeps.
Qed.

(** X22.  A selected request whose guest is found and whose call the gateway
    accepts is COMPLETED: the attempt is counted, [completedAt] is the time of
    the sweep, and no later sweep changes it. *)
Theorem accepted_wake_up_is_completed
    (h : Host) (s : Store) (id : ID) (request : WakeUpRequest.t)
    (k : ID) (r : Reservation.t) (guest : Guest.t) :
  guests_resolve s = true →
  (id, request) ∈ wakeUpBatch (clk h 0) s →
  occupant s (WakeUpRequest.roomNumber request) = Some (k, r) →
  guests s !! Reservation.guestId r = Some guest →
  success (placeWakeUp h (clk h 0) (id, request) guest) = true →
  let s' := store_after (processWakeUpCalls h) s in
  ∃ row,
    wakeUpRequests s' !! id = Some row
    ∧ WakeUpRequest.status row = COMPLETED
    ∧ WakeUpRequest.completedAt row = Some (clk h 0)
    ∧ WakeUpRequest.attempts row = WakeUpRequest.attempts request + 1
    ∧ ∀ hosts, wakeUpRequests (after_sweeps hosts s') !! id = Some row.
Proof.
  intros Hres Hin Hocc Hg Hok s'.
  destruct (sweep_eval h s Hres) as (requests' & E & Hrows & _).
  exists (data_wu_completed (clk h 0) (data_wu_attempt request)).
  assert (Hrow : wakeUpRequests s' !! id
                 = Some (data_wu_completed (clk h 0) (data_wu_attempt request))).
  { unfold s', store_after. rewrite E. simpl.
    pose proof (Hrows _ Hin) as Hr. simpl in Hr. rewrite Hr.
    unfold wake_settle. simpl. by rewrite Hocc, Hg, Hok. }
  split; [done|]. repeat split.
  intros hosts. by apply settled_after_sweeps.
Qed.

(** X23.  On a store whose reservations have their guests a sweep returns,
    and the number it returns is the number of requests of its batch that are
    COMPLETED afterwards. *)
Theorem wake_up_count_is_completed_count (h : Host) (s : Store) :
  guests_resolve s = true →
  let s' := store_after (processWakeUpCalls h) s in
  result_of (processWakeUpCalls h) s
  = Ok (length (List.filter
                  (λ kr : ID * WakeUpRequest.t,
                     bool_decide (WakeUpRequest.status <$> wakeUpRequests s' !! kr.1
                                  = Some COMPLETED))
                  (wakeUpBatch (clk h 0) s))).
Proof.
  intros Hres s'.
  destruct (sweep_eval h s Hres) as (requests' & E & Hrows & _).
  unfold s', result_of, store_after. rewrite E. simpl. do 2 f_equal.
  apply List.filter_ext_in. intros kr Hkr%list_elem_of_In.
  rewrite (Hrows _ Hkr). simpl.
  apply wakeUpBatch_elem in Hkr as [_ Hdue]. unfold isDueWakeUp in Hdue.
  rewrite !andb_true_iff, bool_decide_eq_true in Hdue.
  destruct Hdue as [[Hp _] _].
  unfold wake_served, wake_settle.
  destruct (occupant _ _) as [[k r]|]; simpl; [|done].
  destruct (guests s !! _); simpl.
  - destruct (success _); simpl; [done|].
    destruct (2 <=? _); simpl; [done|]. rewrite Hp. done.
  - rewrite Hp. done.
Qed.

End WakeUpRows.

Lemma settled_wake_up_is_final_witness :
  let t := Sample.day0 + Sample.hours 7 in
  let done := Sample.wake t COMPLETED 1 (Some t) in
  let s := Sample.with_wake (Sample.store_with_wake t) done in
  let hosts := [Sample.host t Sample.accepted; Sample.host (t + 60000) Sample.busy] in
  wakeUpRequests (@after_sweeps utc hosts s) !! 0%nat = Some done
  ∧ ∀ h, 0%nat ∉ (@wakeUpBatch utc (clk h 0) (@after_sweeps utc hosts s)).*1.
Proof.
  intros t done s hosts.
  apply (@settled_wake_up_is_final utc hosts s 0%nat done).
  - vm_compute. reflexivity.
  - discriminate.
Defined.

Lemma wake_up_without_checked_in_guest_fails_witness :
  let t := Sample.day0 + Sample.hours 7 in
  let h := Sample.host t Sample.accepted in
  let s := mkStore {[ 0%nat := Sample.john ]} {[ 0%nat := Sample.stay CONFIRMED ]} ∅
             {[ 0%nat := Sample.wake t PENDING 0 None ]} in
  let s' := store_after (@processWakeUpCalls utc h) s in
  wakeUpRequests s' !! 0%nat = Some (Sample.wake t WU_FAILED 0 None)
  ∧ ∀ hosts, wakeUpRequests (@after_sweeps utc hosts s') !! 0%nat
             = Some (Sample.wake t WU_FAILED 0 None).
Proof.
  intros t h s.
  apply (@wake_up_without_checked_in_guest_fails utc h s 0%nat
           (Sample.wake t PENDING 0 None)).
  - vm_compute. reflexivity.
  - vm_compute. left.
  - vm_compute. reflexivity.
Defined.

Lemma accepted_wake_up_is_completed_witness :
  let t := Sample.day0 + Sample.hours 7 in
  let h := Sample.host (t + 60000) Sample.accepted in
  let s := Sample.store_with_wake t in
  let s' := store_after (@processWakeUpCalls utc h) s in
  ∃ row,
    wakeUpRequests s' !! 0%nat = Some row
    ∧ WakeUpRequest.status row = COMPLETED
    ∧ WakeUpRequest.completedAt row = Some (t + 60000)
    ∧ WakeUpRequest.attempts row = 0 + 1
    ∧ ∀ hosts, wakeUpRequests (@after_sweeps utc hosts s') !! 0%nat = Some row.
Proof.
  intros t h s.
  apply (@accepted_wake_up_is_completed utc h s 0%nat (Sample.wake t PENDING 0 None)
           0%nat (Sample.stay CHECKED_IN) Sample.john).
  - vm_compute. reflexivity.
  - vm_compute. left.
  - vm_compute. reflexivity.
  - vm_compute. reflexivity.
  - vm_compute. reflexivity.
Defined.

Lemma wake_up_count_is_completed_count_witness :
  let t := Sample.day0 + Sample.hours 7 in
  let h := Sample.host t Sample.accepted in
  let s := Sample.store_with_wake t in
  result_of (@processWakeUpCalls utc h) s
  = Ok (length (List.filter
                  (λ kr : ID * WakeUpRequest.t,
                     bool_decide
                       (WakeUpRequest.status
                          <$> wakeUpRequests (store_after (@processWakeUpCalls utc h) s)
                                !! kr.1
                        = Some COMPLETED))
                  (@wakeUpBatch utc (clk h 0) s))).
Proof.
  intros t h s. apply (@wake_up_count_is_completed_count utc h s).
  vm_compute. reflexivity.
Defined.

(** ** Reconciliation: what it writes *)

Lemma find_map_to_list_Some {V} (P : ID * V → bool) (m : gmap ID V) k v :
  List.find P (map_to_list m) = Some (k, v) → m !! k = Some v ∧ P (k, v) = true.
Proof.
  intros [Hin HP]%find_some. split; [|done].
  by apply elem_of_map_to_list, list_elem_of_In.
Qed.

Lemma find_map_to_list_None {V} (P : ID * V → bool) (m : gmap ID V) k v :
  List.find P (map_to_list m) = None → m !! k = Some v → P (k, v) = false.
Proof.
  intros Hnone Hk. apply (find_none _ _ Hnone (k, v)).
  by apply list_elem_of_In, elem_of_map_to_list.
Qed.

Lemma find_map_to_list_unique {V} (P : ID * V → bool) (m : gmap ID V) k v :
  m !! k = Some v → P (k, v) = true →
  (∀ k' v', m !! k' = Some v' → P (k', v') = true → k' = k) →
  List.find P (map_to_list m) = Some (k, v).
Proof.
  intros Hk HP Huniq. destruct (find P (map_to_list m)) as [[k' v']|] eqn:Ef.
  - apply find_map_to_list_Some in Ef as [Hk' HP'].
    assert (k' = k) as -> by by apply (Huniq k' v'). congruence.
  - by rewrite (find_map_to_list_None P m k v Ef Hk) in HP.
Qed.

Section SyncRows.
Context {cal : Calendar} {sch : Schema}.

Lemma upsert_eval externalId update create w :
  prisma_sync.reservation_upsert externalId update create w
  = (Ok tt,
     mkWorld
       (mkStore (guests (db w))
          (<[(upsert_target (db w) externalId update create).1 :=
               (upsert_target (db w) externalId update create).2]>
             (reservations (db w)))
          (proactiveCalls (db w)) (wakeUpRequests (db w)))
       (reads w)).
Proof.
  unfold prisma_sync.reservation_upsert, upsert_target, reservation_by_externalId,
    mbind, M_bind, get_db, set_db.
  simpl. by destruct (find _ _) as [[id row]|].
Qed.

(** The row the upsert writes carries the external identifier, and is the
    only row that can be new. *)
Lemma upsert_target_spec s externalId update create :
  (∀ row, Reservation.externalId (update row) = Reservation.externalId row) →
  Reservation.externalId create = Some externalId →
  let k := (upsert_target s externalId update create).1 in
  let R := (upsert_target s externalId update create).2 in
  Reservation.externalId R = Some externalId
  ∧ (∀ r, reservations s !! k = Some r →
          Reservation.externalId r = Some externalId ∧ R = update r)
  ∧ (reservations s !! k = None →
     R = create ∧ ∀ k' r', reservations s !! k' = Some r' →
                           Reservation.externalId r' ≠ Some externalId).
Proof.
  intros Hu Hc. unfold upsert_target, reservation_by_externalId.
  destruct (find _ _) as [[id row]|] eqn:Ef; simpl.
  - apply find_map_to_list_Some in Ef as [Hrow HP].
    apply bool_decide_eq_true_1 in HP. simpl in HP.
    split; [by rewrite Hu|]. split.
    + intros r Er. rewrite Hrow in Er. by injection Er as <-.
    + intros E. congruence.
  - split; [done|]. split.
    + intros r Er. by rewrite new_id_fresh in Er.
    + intros _. split; [done|]. intros k' r' Er' He.
      pose proof (find_map_to_list_None _ _ k' r' Ef Er') as HP. simpl in HP.
      by apply bool_decide_eq_false_1 in HP.
Qed.

Lemma upsert_unique s externalId update create e :
  (∀ row, Reservation.externalId (update row) = Reservation.externalId row) →
  Reservation.externalId create = Some externalId →
  externalId_unique s e →
  externalId_unique
    (mkStore (guests s)
       (<[(upsert_target s externalId update create).1 :=
            (upsert_target s externalId update create).2]> (reservations s))
       (proactiveCalls s) (wakeUpRequests s)) e.
Proof.
  intros Hu Hc Huniq.
  destruct (upsert_target_spec s externalId update create Hu Hc)
    as (HR & Hold & Hnew).
  set (k := (upsert_target s externalId update create).1) in *.
  set (R := (upsert_target s externalId update create).2) in *.
  (* every row of the new table with the identifier [e] stands for a row of
     the old table with it, under the same key, or is the one new row *)
  assert (Hback : ∀ k1 r1,
    <[k := R]> (reservations s) !! k1 = Some r1 →
    Reservation.externalId r1 = Some e →
    (∃ r, reservations s !! k1 = Some r ∧ Reservation.externalId r = Some e)
    ∨ (k1 = k ∧ reservations s !! k = None ∧ e = externalId)).
  { intros k1 r1 E1 He1. apply lookup_insert_Some in E1 as [[<- <-]|[Hne E1]].
    - destruct (reservations s !! k) as [r|] eqn:Ek.
      + left. exists r. split; [done|]. destruct (Hold r eq_refl) as [Hr _]. congruence.
      + right. repeat split. congruence.
    - left. by exists r1. }
  intros k1 r1 k2 r2 E1 E2 He1 He2. simpl in E1, E2.
  destruct (Hback k1 r1 E1 He1) as [(r1' & E1' & He1')|(-> & Hk & ->)],
           (Hback k2 r2 E2 He2) as [(r2' & E2' & He2')|(-> & Hk' & He)].
  - by apply (Huniq k1 r1' k2 r2').
  - subst e. destruct (Hnew Hk') as [_ Hno]. by destruct (Hno k1 r1' E1').
  - destruct (Hnew Hk) as [_ Hno]. by destruct (Hno k2 r2' E2').
  - done.
Qed.

Lemma keeps_guest_findUnique (R : relation Store) `{!PreOrder R} e :
  keeps R (prisma_sync.guest_findUnique e).
Proof.
  unfold prisma_sync.guest_findUnique.
  apply keeps_bind; [apply _ | by apply keeps_get_db |].
  intros s. by apply keeps_ret.
Qed.

Lemma keeps_guest_create (R : relation Store) `{!PreOrder R} data :
  (∀ s, R s (mkStore (<[prisma.new_id (guests s) := data]> (guests s))
               (reservations s) (proactiveCalls s) (wakeUpRequests s))) →
  keeps R (prisma_sync.guest_create data).
Proof.
  intros HR w. unfold prisma_sync.guest_create, mbind, M_bind, get_db, set_db, throw.
  simpl. destruct (_ && _); simpl; [reflexivity | apply HR].
Qed.

Lemma keeps_syncReservation (R : relation Store) `{!PreOrder R} h url key pmsRes :
  (∀ s data, R s (mkStore (<[prisma.new_id (guests s) := data]> (guests s))
                    (reservations s) (proactiveCalls s) (wakeUpRequests s))) →
  (∀ s checkIn checkOut status guestId,
     let update := reservation_update pmsRes checkIn checkOut status in
     let create := reservation_create pmsRes guestId checkIn checkOut status in
     R s (mkStore (guests s)
            (<[(upsert_target s (PMSReservation.id pmsRes) update create).1 :=
                 (upsert_target s (PMSReservation.id pmsRes) update create).2]>
               (reservations s))
            (proactiveCalls s) (wakeUpRequests s))) →
  keeps R (syncReservation h url key pmsRes).
Proof.
  intros Hguest Hres. unfold syncReservation.
  apply keeps_bind; [apply _ | by apply keeps_lift |]. intros pmsGuest.
  apply keeps_bind; [apply _ | by apply keeps_guest_findUnique |]. intros found.
  apply keeps_bind; [apply _ | |].
  - destruct found; [by apply keeps_ret | by apply keeps_guest_create].
  - intros guest.
    destruct (parseISO _) as [ci|]; [|by apply keeps_throw].
    destruct (parseISO _) as [co|]; [|by apply keeps_throw].
    destruct (normalize_status _) as [st|]; [|by apply keeps_throw].
    intros w. rewrite upsert_eval. simpl. apply Hres.
Qed.

Lemma keeps_syncFromPMS (R : relation Store) `{!PreOrder R} h :
  (∀ s data, R s (mkStore (<[prisma.new_id (guests s) := data]> (guests s))
                    (reservations s) (proactiveCalls s) (wakeUpRequests s))) →
  (∀ s pmsRes checkIn checkOut status guestId,
     let update := reservation_update pmsRes checkIn checkOut status in
     let create := reservation_create pmsRes guestId checkIn checkOut status in
     R s (mkStore (guests s)
            (<[(upsert_target s (PMSReservation.id pmsRes) update create).1 :=
                 (upsert_target s (PMSReservation.id pmsRes) update create).2]>
               (reservations s))
            (proactiveCalls s) (wakeUpRequests s))) →
  keeps R (syncFromPMS h).
Proof.
  intros Hguest Hres. unfold syncFromPMS.
  destruct (_ || _); [by apply keeps_ret|].
  apply keeps_try_catch; [apply _ | | intros e; by apply keeps_ret].
  apply keeps_bind; [apply _ | by apply keeps_new_Date |]. intros from.
  apply keeps_bind; [apply _ | by apply keeps_new_Date |]. intros to.
  apply keeps_bind; [apply _ | by apply keeps_lift |]. intros response.
  apply keeps_bind; [apply _ | | intros counts; by apply keeps_ret].
  apply keeps_for_of; [apply _|]. intros counts pmsRes. unfold syncOne.
  apply keeps_try_catch; [apply _ | | intros e; by apply keeps_ret].
  apply keeps_bind; [apply _ | | intros []; by apply keeps_ret].
  apply keeps_syncReservation; [apply _ | done |]. intros s ci co st gid. apply Hres.
Qed.

Lemma sync_frame_guest s data :
  sync_frame s (mkStore (<[prisma.new_id (guests s) := data]> (guests s))
                  (reservations s) (proactiveCalls s) (wakeUpRequests s)).
Proof.
  repeat split; simpl; try done.
  - apply insert_subseteq, new_id_fresh.
  - intros k r E. by exists r.
Qed.

Lemma sync_frame_upsert s pmsRes checkIn checkOut status guestId :
  let update := reservation_update pmsRes checkIn checkOut status in
  let create := reservation_create pmsRes guestId checkIn checkOut status in
  sync_frame s
    (mkStore (guests s)
       (<[(upsert_target s (PMSReservation.id pmsRes) update create).1 :=
            (upsert_target s (PMSReservation.id pmsRes) update create).2]>
          (reservations s))
       (proactiveCalls s) (wakeUpRequests s)).
Proof.
  intros update create.
  destruct (upsert_target_spec s (PMSReservation.id pmsRes) update create)
    as (_ & Hold & _); [done | done |].
  repeat split; simpl; try done. intros k r E.
  destruct (decide (k = (upsert_target s (PMSReservation.id pmsRes) update create).1))
    as [->|Hne].
  - destruct (Hold r E) as [_ ->]. rewrite lookup_insert_eq.
    eexists. split; [done|]. done.
  - rewrite lookup_insert_ne by done. by exists r.
Qed.

(** X24.  Reconciliation writes to guests and reservations only, and only
    so far: scheduled calls and wake-up requests are untouched; every local
    guest is left as it was (guests are only added); and every reservation
    that was there is still there under its key, with the external
    identifier and the guest it had. *)
Theorem sync_leaves_calls_and_guests_alone (h : Host) (s : Store) :
  let s' := store_after (syncFromPMS h) s in
  proactiveCalls s' = proactiveCalls s
  ∧ wakeUpRequests s' = wakeUpRequests s
  ∧ guests s ⊆ guests s'
  ∧ ∀ k r, reservations s !! k = Some r →
      ∃ r', reservations s' !! k = Some r'
            ∧ Reservation.externalId r' = Reservation.externalId r
            ∧ Reservation.guestId r' = Reservation.guestId r.
Proof.
  intros s'. unfold s'. rewrite store_after_db.
  apply (keeps_syncFromPMS sync_frame h); [apply sync_frame_guest|].
  intros s0 pmsRes ci co st gid. apply sync_frame_upsert.
Qed.

(** X25.  Reconciliation never makes two reservations of one: if no external
    identifier is carried by two reservations before, none is afterwards. *)
Theorem sync_keeps_external_ids_unique (h : Host) (s : Store) :
  (∀ e, externalId_unique s e) →
  ∀ e, externalId_unique (store_after (syncFromPMS h) s) e.
Proof.
  rewrite store_after_db.
  refine (keeps_syncFromPMS externalIds_unique h _ _ (mkWorld s 0)).
  - intros s0 data Hu e. exact (Hu e).
  - intros s0 pmsRes ci co st gid update create Hu e.
    by apply upsert_unique.
Qed.

(** X26.  A reservation that has been synced is found again by its external
    identifier, with the upstream dates, status, room type and party size;
    and syncing the same upstream record once more changes nothing. *)
Theorem synced_reservation_round_trip
    (h : Host) (url key : string) (pmsRes : PMSReservation.t) (w w' : World) :
  externalId_unique (db w) (PMSReservation.id pmsRes) →
  syncReservation h url key pmsRes w = (Ok tt, w') →
  (∃ k row,
     reservation_by_externalId (db w') (PMSReservation.id pmsRes) = Some (k, row)
     ∧ parseISO (PMSReservation.checkInDate pmsRes)
       = Some (Reservation.checkInDate row)
     ∧ parseISO (PMSReservation.checkOutDate pmsRes)
       = Some (Reservation.checkOutDate row)
     ∧ normalize_status (PMSReservation.status pmsRes)
       = Some (Reservation.status row)
     ∧ Reservation.roomType row = PMSReservation.roomType pmsRes
     ∧ Reservation.numberOfGuests row = PMSReservation.numberOfGuests pmsRes)
  ∧ syncReservation h url key pmsRes w' = (Ok tt, w').
Proof.
  intros Huniq.
  unfold syncReservation at 1. unfold lift, mbind, M_bind.
  destruct (get_guest h url key pmsRes) as [pmsGuest|] eqn:Eg; [|done].
  unfold prisma_sync.guest_findUnique at 1. unfold mbind, M_bind, get_db, mret, M_ret.
  simpl.
  set (guest1 :=
         match find _ (map_to_list (guests (db w))) with
         | Some g => _
         | None => _
         end).
  destruct (guest1 w) as [[guest|] w1] eqn:E1; [|done].
  assert (Hw1 : reservations (db w1) = reservations (db w)
                ∧ proactiveCalls (db w1) = proactiveCalls (db w)
                ∧ wakeUpRequests (db w1) = wakeUpRequests (db w)
                ∧ reads w1 = reads w
                ∧ ∃ kg, find (λ kg : ID * Guest.t,
                           bool_decide (Guest.externalId kg.2
                                        = Some (PMSGuest.id pmsGuest)))
                          (map_to_list (guests (db w1))) = Some kg).
  { unfold guest1 in E1.
    destruct (find _ (map_to_list (guests (db w)))) as [g|] eqn:Ef.
    - injection E1 as <- <-. repeat split; try done. by exists g.
    - unfold prisma_sync.guest_create, mbind, M_bind, get_db, set_db, throw,
        mret, M_ret in E1. simpl in E1.
      destruct (_ && _); [done|]. injection E1 as <- <-. simpl.
      repeat split; try done.
      destruct (find _ (map_to_list (<[_ := _]> (guests (db w))))) as [kg|] eqn:Ef';
        [by exists kg|].
      exfalso.
      pose proof (find_map_to_list_None _ _ (prisma.new_id (guests (db w)))
                    (guest_of_pms pmsGuest) Ef' (lookup_insert_eq _ _ _)) as HP.
      simpl in HP. by apply bool_decide_eq_false_1 in HP. }
  destruct Hw1 as (Er1 & Ep1 & Eu1 & Erd1 & kg & Ekg).
  destruct (parseISO (PMSReservation.checkInDate pmsRes)) as [ci|] eqn:Eci; [|done].
  destruct (parseISO (PMSReservation.checkOutDate pmsRes)) as [co|] eqn:Eco; [|done].
  destruct (normalize_status (PMSReservation.status pmsRes)) as [st|] eqn:Est; [|done].
  rewrite upsert_eval. intros [= <-].
  set (update := reservation_update pmsRes ci co st).
  set (create := reservation_create pmsRes guest.1 ci co st).
  destruct (upsert_target_spec (db w1) (PMSReservation.id pmsRes) update create)
    as (HR & Hold & Hnew); [done | done |].
  set (k := (upsert_target (db w1) (PMSReservation.id pmsRes) update create).1) in *.
  set (R := (upsert_target (db w1) (PMSReservation.id pmsRes) update create).2) in *.
  assert (Huniq1 : externalId_unique (db w1) (PMSReservation.id pmsRes)).
  { unfold externalId_unique. rewrite Er1. exact Huniq. }
  pose proof (upsert_unique (db w1) (PMSReservation.id pmsRes) update create
                (PMSReservation.id pmsRes) (λ _, eq_refl) eq_refl Huniq1) as Huniq'.
  fold k R in Huniq'.
  assert (Hfind : reservation_by_externalId
                    (mkStore (guests (db w1)) (<[k := R]> (reservations (db w1)))
                       (proactiveCalls (db w1)) (wakeUpRequests (db w1)))
                    (PMSReservation.id pmsRes) = Some (k, R)).
  { unfold reservation_by_externalId. simpl. apply find_map_to_list_unique.
    - apply lookup_insert_eq.
    - simpl. by apply bool_decide_eq_true_2.
    - intros k' r' E' HP. simpl in HP. apply bool_decide_eq_true_1 in HP.
      apply (Huniq' k' r' k R); simpl; [done | apply lookup_insert_eq | done | done]. }
  assert (HRfields : Reservation.checkInDate R = ci ∧ Reservation.checkOutDate R = co
                     ∧ Reservation.status R = st
                     ∧ Reservation.roomType R = PMSReservation.roomType pmsRes
                     ∧ Reservation.numberOfGuests R = PMSReservation.numberOfGuests pmsRes
                     ∧ update R = R).
  { destruct (reservations (db w1) !! k) as [r|] eqn:Ek.
    - destruct (Hold r eq_refl) as [_ ->]. repeat split.
      unfold update, reservation_update. simpl. f_equal.
      + by destruct (PMSReservation.roomNumber pmsRes).
      + by destruct (PMSReservation.specialRequests pmsRes).
    - destruct (Hnew eq_refl) as [-> _]. repeat split.
      unfold update, create, reservation_update, reservation_create. simpl. f_equal.
      + by destruct (PMSReservation.roomNumber pmsRes).
      + by destruct (PMSReservation.specialRequests pmsRes). }
  destruct HRfields as (Hci & Hco & Hst & Hrt & Hng & Hidem).
  split.
  - exists k, R. simpl. rewrite Hfind, Hci, Hco, Hst. done.
  - unfold syncReservation, lift, mbind, M_bind. rewrite Eg.
    unfold prisma_sync.guest_findUnique, mbind, M_bind, get_db, mret, M_ret.
    simpl. rewrite Ekg. rewrite Eci, Eco, Est. rewrite upsert_eval. simpl.
    unfold upsert_target. simpl. rewrite Hfind. simpl.
    rewrite insert_insert_eq. fold update. by rewrite Hidem.
Qed.

End SyncRows.

Lemma synced_reservation_round_trip_witness :
  let w := mkWorld emptyStore 0 in
  let w' := (@syncReservation utc (schema3 true) Sample.john_upstream
               "https://pms.example" "pms-key" (Sample.pms_reservation "1") w).2 in
  (∃ k row,
     reservation_by_externalId (db w') "r1" = Some (k, row)
     ∧ @parseISO utc "2024-03-16" = Some (Reservation.checkInDate row)
     ∧ @parseISO utc "2024-03-18" = Some (Reservation.checkOutDate row)
     ∧ @normalize_status "confirmed" = Some (Reservation.status row)
     ∧ Reservation.roomType row = "DELUXE"
     ∧ Reservation.numberOfGuests row = 2)
  ∧ @syncReservation utc (schema3 true) Sample.john_upstream
      "https://pms.example" "pms-key" (Sample.pms_reservation "1") w' = (Ok tt, w').
Proof.
  intros w w'.
  apply (@synced_reservation_round_trip utc (schema3 true) Sample.john_upstream
           "https://pms.example" "pms-key" (Sample.pms_reservation "1") w w').
  - intros k1 r1 k2 r2 E1. unfold w in E1. simpl in E1.
    by rewrite lookup_empty in E1.
  - vm_compute. reflexivity.
Defined.

Lemma sync_keeps_external_ids_unique_witness :
  externalId_unique
    (store_after (@syncFromPMS utc (schema3 true) Sample.five) emptyStore) "r1".
Proof.
  apply (@sync_keeps_external_ids_unique utc (schema3 true) Sample.five emptyStore).
  intros e k1 r1 k2 r2 E1. simpl in E1. by rewrite lookup_empty in E1.
Defined.

(** ** The cron route *)

Lemma keeps_weaken {A} (R R' : relation Store) (m : M A) :
  (∀ s s', R s s' → R' s s') → keeps R m → keeps R' m.
Proof. intros HR Hm w. apply HR, Hm. Qed.

Section RouteFacts.
Context {cal : Calendar} {sch : Schema}.

Lemma keeps_schedule rid ty op h : keeps (at_most_one_kept rid ty) (schedule op h).
Proof.
  intros w Hle. destruct (schedule_eval op h w) as (w' & E & Ha). rewrite E. simpl.
  rewrite (adds_callCount _ _ _ _ rid ty Ha).
  rewrite length_filter_eq_NoDup by apply selected_NoDup.
  case_bool_decide as Et; [|lia]. case_bool_decide as Hin; [|lia].
  subst ty. rewrite (selected_none _ _ _ _ Hin). lia.
Qed.

Lemma keeps_processScheduledCalls rid ty h callType :
  keeps (at_most_one_kept rid ty) (processScheduledCalls h callType).
Proof.
  intros w Hle. destruct (pass_frame h callType w) as (_ & _ & _ & _ & Hkey).
  by rewrite (callCount_ext _ _ rid ty Hkey).
Qed.

Lemma callCount_calls s s' rid ty :
  proactiveCalls s' = proactiveCalls s → callCount s' rid ty = callCount s rid ty.
Proof. unfold callCount. by intros ->. Qed.

Lemma keeps_switch rid ty h type :
  keeps (at_most_one_kept rid ty) (cron.switch h type).
Proof.
  assert (Hs : ∀ op, keeps (at_most_one_kept rid ty) (schedule op h))
    by (intros op; apply keeps_schedule).
  pose proof (Hs PreArrival) as H1. pose proof (Hs MidStay) as H2.
  pose proof (Hs PreCheckout) as H3. pose proof (Hs PostStay) as H4.
  simpl in H1, H2, H3, H4.
  assert (Hp : ∀ callType,
             keeps (at_most_one_kept rid ty) (processScheduledCalls h callType))
    by (intros callType; apply keeps_processScheduledCalls).
  assert (Hw : keeps (at_most_one_kept rid ty) (processWakeUpCalls h)).
  { eapply keeps_weaken; [|apply keeps_processWakeUpCalls].
    intros s s' (_ & _ & Ep & _) Hle. by rewrite (callCount_calls _ _ _ _ Ep). }
  assert (Hy : keeps (at_most_one_kept rid ty) (syncFromPMS h)).
  { eapply keeps_weaken; [|apply (keeps_syncFromPMS sync_frame h)].
    - intros s s' (Ep & _) Hle. by rewrite (callCount_calls _ _ _ _ Ep).
    - apply sync_frame_guest.
    - intros s0 pmsRes ci co st gid. apply sync_frame_upsert. }
  unfold cron.switch.
  repeat (case_bool_decide;
          [repeat (first [ apply keeps_ret; apply _
                         | apply keeps_bind; [apply _ | done |]; intros ? ])|]).
  apply keeps_ret; apply _.
Qed.

(** The default case is the only one that leaves [result] unset, and it
    touches nothing. *)
Lemma bind_Some_ne {A B} (m : M A) (f : A → M (option B)) w w' :
  (∀ a w1 w2, f a w1 ≠ (Ok None, w2)) → (m ≫= f) w ≠ (Ok None, w').
Proof.
  intros Hf. unfold mbind, M_bind. destruct (m w) as [[a|e] w1]; [apply Hf | done].
Qed.

Lemma switch_None h type w w' :
  cron.switch h type w = (Ok None, w') ↔ (type ∉ cron.known_types) ∧ w' = w.
Proof.
  unfold cron.switch, cron.known_types.
  repeat (case_bool_decide;
          [ subst type; split;
            [ intros Hs; exfalso; revert Hs;
              repeat (apply bind_Some_ne; intros); done
            | intros [Hn _]; exfalso; apply Hn;
              repeat first [ by left | right ] ]
          | ]).
  unfold mret, M_ret. split.
  - intros [= <-]. split; [|done].
    rewrite !not_elem_of_cons. repeat split; try done. apply not_elem_of_nil.
  - by intros [_ ->].
Qed.

(** The route on a request it lets in, case by case. *)
Lemma GET_accepted h authorization type w :
  verifyCronSecret (env h) (JsString.replace "Bearer " "" <$> authorization) None
  = true →
  cron.GET h authorization type w
  = match cron.switch h (Js.or_default type "process")
            (mkWorld (db w) (S (reads w))) with
    | (Ok (Some result), w1) =>
        (Ok (cron.mkResponse 200
               (cron.SuccessBody (Js.or_default type "process") result
                  (clk h (reads w1)))),
         mkWorld (db w1) (S (reads w1)))
    | (Ok None, w1) => (Ok (cron.mkResponse 400 (cron.ErrorBody "Invalid type")), w1)
    | (Throw e, w1) =>
        (Ok (cron.mkResponse 500
               (cron.FailureBody (Js.or_default type "process")
                  match e with
                  | Error message => message
                  | Thrown => "Unknown error"
                  end
                  (clk h (reads w1)))),
         mkWorld (db w1) (S (reads w1)))
    end.
Proof.
  intros Ha. unfold cron.GET. rewrite Ha. simpl.
  erewrite bind_Ok by reflexivity. unfold try_catch, mbind, M_bind.
  by destruct (cron.switch _ _ _) as [[[result|]|e] w1].
Qed.

(** X27.  The route always answers: no exception escapes it.  The status is
    401 exactly when [verifyCronSecret] rejects the header (with "Bearer "
    removed), 400 exactly when the secret is accepted and the type is none of
    the eight known ones (an absent or empty type counts as "process"), and
    200 or 500 otherwise; a 401 or 400 answer has written nothing. *)
Theorem cron_route_always_answers
    (h : Host) (authorization type : option string) (w : World) :
  let accepted :=
    verifyCronSecret (env h) (JsString.replace "Bearer " "" <$> authorization) None in
  ∃ response w',
    cron.GET h authorization type w = (Ok response, w')
    ∧ cron.status response ∈ [200; 400; 401; 500]
    ∧ (cron.status response = 401 ↔ accepted = false)
    ∧ (cron.status response = 400
       ↔ accepted = true ∧ (Js.or_default type "process" ∉ cron.known_types))
    ∧ (cron.status response = 401 ∨ cron.status response = 400 → db w' = db w).
Proof.
  intros accepted.
  destruct accepted eqn:Ha; unfold accepted in Ha.
  - rewrite GET_accepted by done.
    destruct (cron.switch h (Js.or_default type "process")
                (mkWorld (db w) (S (reads w)))) as [[[result|]|e] w1] eqn:Es.
    + eexists _, _. split; [done|]. simpl. split; [set_solver|].
      split; [done|]. split; [|intros [|]; done].
      split; [done|]. intros [_ Hn]. exfalso.
      assert (Hnone := proj2 (switch_None h _ (mkWorld (db w) (S (reads w)))
                                (mkWorld (db w) (S (reads w)))) (conj Hn eq_refl)).
      congruence.
    + apply switch_None in Es as [Hn ->].
      eexists _, _. split; [done|]. simpl. split; [set_solver|].
      split; [done|]. done.
    + eexists _, _. split; [done|]. simpl. split; [set_solver|].
      split; [done|]. split; [|intros [|]; done].
      split; [done|]. intros [_ Hn]. exfalso.
      assert (Hnone := proj2 (switch_None h _ (mkWorld (db w) (S (reads w)))
                                (mkWorld (db w) (S (reads w)))) (conj Hn eq_refl)).
      congruence.
  - unfold cron.GET. rewrite Ha. simpl.
    eexists _, _. split; [done|]. simpl. split; [set_solver|].
    split; [done|]. split; [|done]. split; [done|]. by intros [? _].
Qed.

Lemma verifyCronSecret_configured env secret expected :
  env !! "CRON_SECRET" = Some expected → expected ≠ "" →
  verifyCronSecret env secret None = true ↔ secret = Some expected.
Proof.
  intros Ee Hne. unfold verifyCronSecret, Js.or_else. simpl. rewrite Ee.
  rewrite (proj2 (falsy_Some_false expected) Hne). simpl.
  destruct secret as [s|]; simpl; [|done].
  case_bool_decide as Hs; simpl.
  - subst s. split; [done|]. intros [= <-]. done.
  - fold (safe_equal s expected). rewrite safe_equal_eq.
    split; [by intros -> | by intros [= ->]].
Qed.

(** X28.  With [CRON_SECRET] configured, a request is let in exactly when
    its authorization header, with its first "Bearer " removed, is the
    secret: "Bearer <secret>" is let in; a request with no header, or with
    another token, is answered 401 "Unauthorized" and nothing is read or
    written. *)
Theorem cron_route_requires_the_secret
    (h : Host) (authorization type : option string) (w : World) (secret : string) :
  env h !! "CRON_SECRET" = Some secret →
  secret ≠ "" →
  (cron.GET h authorization type w
   = (Ok (cron.mkResponse 401 (cron.ErrorBody "Unauthorized")), w)
   ↔ ¬ (∃ header, authorization = Some header
                  ∧ JsString.replace "Bearer " "" header = secret))
  ∧ cron.GET h (Some ("Bearer " +:+ secret)) type w
    ≠ (Ok (cron.mkResponse 401 (cron.ErrorBody "Unauthorized")), w).
Proof.
  intros Ee Hne.
  assert (Hiff : ∀ authorization,
    verifyCronSecret (env h) (JsString.replace "Bearer " "" <$> authorization) None
    = true
    ↔ ∃ header, authorization = Some header
                ∧ JsString.replace "Bearer " "" header = secret).
  { intros a. rewrite (verifyCronSecret_configured _ _ secret Ee Hne).
    destruct a as [header|]; simpl.
    - split; [intros [= E]; by exists header | by intros (? & [= <-] & ->)].
    - split; [done | by intros (? & ? & _)]. }
  assert (Hlet : ∀ authorization,
    verifyCronSecret (env h) (JsString.replace "Bearer " "" <$> authorization) None
    = true →
    cron.GET h authorization type w
    ≠ (Ok (cron.mkResponse 401 (cron.ErrorBody "Unauthorized")), w)).
  { intros a Ha E. rewrite GET_accepted in E by done.
    by destruct (cron.switch _ _ _) as [[[result|]|e] w1]. }
  split.
  - split.
    + intros E Hex. apply Hiff in Hex. by apply (Hlet authorization).
    + intros Hno. unfold cron.GET.
      destruct (verifyCronSecret _ _ _) eqn:Ev; [|done].
      by apply Hiff in Ev.
  - apply Hlet, Hiff. exists ("Bearer " +:+ secret). split; [done|].
    apply (replace_prefix "Bearer " "" secret).
Qed.

(** X29.  Whatever the request, the route keeps the at-most-one-call
    property: a reservation and call type with at most one scheduled call
    before the request have at most one after it, whether the answer is 200,
    400, 401 or 500. *)
Theorem cron_route_keeps_at_most_one
    (h : Host) (authorization type : option string) (s : Store)
    (reservationId : ID) (callType : CallType) :
  (callCount s reservationId callType ≤ 1)%nat →
  (callCount (store_after (cron.GET h authorization type) s) reservationId callType
   ≤ 1)%nat.
Proof.
  rewrite store_after_db.
  assert (K : keeps (at_most_one_kept reservationId callType)
                (cron.GET h authorization type));
    [|exact (K (mkWorld s 0))].
  unfold cron.GET. destruct (negb _); [apply keeps_ret; apply _|].
  apply keeps_bind; [apply _ | apply keeps_new_Date; apply _ |]. intros started.
  apply keeps_try_catch; [apply _ | |].
  - apply keeps_bind; [apply _ | apply keeps_switch |]. intros [result|].
    + apply keeps_bind; [apply _ | apply keeps_new_Date; apply _ |].
      intros timestamp. apply keeps_ret; apply _.
    + apply keeps_ret; apply _.
  - intros e. apply keeps_bind; [apply _ | apply keeps_new_Date; apply _ |].
    intros timestamp. apply keeps_ret; apply _.
Qed.

End RouteFacts.

Lemma cron_route_requires_the_secret_witness :
  let h := mkHost {[ "CRON_SECRET" := "s3cret" ]} (λ _, Sample.day0)
             (λ _ _, Sample.busy) (λ _ _ _ _, Ok []) (λ _ _, Throw Thrown) in
  let w := mkWorld (Sample.store CONFIRMED) 0 in
  (@cron.GET utc (schema3 true) h (Some "Bearer wrong") (Some "schedule") w
   = (Ok (cron.mkResponse 401 (cron.ErrorBody "Unauthorized")), w)
   ↔ ¬ (∃ header, Some "Bearer wrong" = Some header
                  ∧ JsString.replace "Bearer " "" header = "s3cret"))
  ∧ @cron.GET utc (schema3 true) h (Some ("Bearer " +:+ "s3cret")) (Some "schedule") w
    ≠ (Ok (cron.mkResponse 401 (cron.ErrorBody "Unauthorized")), w).
Proof.
  intros h w.
  apply (@cron_route_requires_the_secret utc (schema3 true) h
           (Some "Bearer wrong") (Some "schedule") w "s3cret");
    [reflexivity | discriminate].
Defined.

Lemma cron_route_keeps_at_most_one_witness :
  let h := mkHost (<[ "CRON_SECRET" := "s3cret" ]> Sample.configured)
             (λ _, Sample.day0 + Sample.hours 17) (λ _ _, Sample.accepted)
             (λ _ _ _ _, Ok []) (λ _ _, Throw Thrown) in
  (callCount
     (store_after (@cron.GET utc (schema3 true) h (Some "Bearer s3cret")
                     (Some "pre-arrival"))
        (Sample.store CONFIRMED))
     0%nat PRE_ARRIVAL ≤ 1)%nat.
Proof.
  intros h.
  apply (@cron_route_keeps_at_most_one utc (schema3 true) h (Some "Bearer s3cret")
           (Some "pre-arrival") (Sample.store CONFIRMED) 0%nat PRE_ARRIVAL).
  vm_compute. lia.
Defined.

(** A "pre-arrival" request after 16:00: the call is scheduled for an hour
    later, so the dispatch pass of the same request finds nothing due. *)
Example cron_pre_arrival_sample :
  let now := Sample.day0 + Sample.hours 17 in
  let h := mkHost (<[ "CRON_SECRET" := "s3cret" ]> Sample.configured)
             (λ _, now) (λ _ _, Sample.accepted)
             (λ _ _ _ _, Ok []) (λ _ _, Throw Thrown) in
  run (@cron.GET utc (schema3 true) h (Some "Bearer s3cret") (Some "pre-arrival"))
      (Sample.store CONFIRMED)
  = (Ok (cron.mkResponse 200
           (cron.SuccessBody "pre-arrival" (cron.ScheduledProcessed 1 0) now)),
     with_calls (Sample.store CONFIRMED)
       {[ 0%nat := ProactiveCall.mk 0%nat PRE_ARRIVAL (now + Sample.hours 1)
                     None SCHEDULED 0 3 None None ]}).
Proof. vm_compute. reflexivity. Qed.

(** ** The configuration a dispatched call is placed with *)

(** X30.  The per-type entry of [PROACTIVE_CALL_CONFIGS] is never found: the
    key is the lower-cased type name without its first underscore
    ("prearrival", "wakeup", ...), the table's keys are camel-cased, and the
    lookup falls back on [midStay] every time.  So the gateway is only ever
    asked for calls with the mid-stay system prompt and a limit of 300
    seconds, whatever the type of the call: hosts that agree on such requests
    give the same result for every due call. *)
Theorem dispatch_always_uses_the_mid_stay_config (h h' : Host) (d : DueCall) :
  env h = env h' →
  (∀ authorization request,
     model_messages request = [MID_STAY_SYSTEM_PROMPT] →
     maxDurationSeconds request = 300 →
     vapi_post h authorization request = vapi_post h' authorization request) →
  placeCall h d = placeCall h' d.
Proof.
  intros Eenv Hpost.
  assert (Hc : config_of (ProactiveCall.callType (due_call d))
               = PROACTIVE_CALL_CONFIGS_midStay)
    by (by destruct (ProactiveCall.callType (due_call d))).
  unfold placeCall, makeOutboundCall. rewrite Hc, <- Eenv.
  destruct (_ || _); [done|].
  by rewrite Hpost.
Qed.

Lemma dispatch_always_uses_the_mid_stay_config_witness :
  let now := Sample.day0 + Sample.hours 17 in
  let h := Sample.host now Sample.accepted in
  let h' := mkHost Sample.configured (λ _, now)
              (λ _ request,
                 match model_messages request with
                 | [MID_STAY_SYSTEM_PROMPT] =>
                     if bool_decide (maxDurationSeconds request = 300)
                     then Sample.accepted else Sample.busy
                 | _ => Sample.busy
                 end)
              (λ _ _ _ _, Throw (Error "Network Error"))
              (λ _ _, Throw (Error "Network Error")) in
  let d := mkDue 0%nat Sample.job 0%nat (Sample.stay CONFIRMED) Sample.john in
  placeCall h d = placeCall h' d.
Proof.
  intros now h h' d. apply (dispatch_always_uses_the_mid_stay_config h h' d).
  - reflexivity.
  - intros authorization request Em Ed. simpl. by rewrite Em, Ed.
Defined.
